(** * The buildkit solver scheduler and exec errors, embedded in Rocq

    Shallow embedding of
      - solver/llbsolver/errdefs/exec.go  (module [errdefs])
      - solver/scheduler.go               (module [solver])

    Pointers are addresses ([nat]) into explicit stores, Go maps are
    [gmap]s, Go sets ([map[K]struct{}]) are [gset]s, a nil pointer or a nil
    interface value is [None], and a nil dereference is a panic, written
    [None] in the result of a computation. *)

From stdpp Require Import functions gmap strings list fin_maps.

Set Default Proof Using "Type".

(* ===================================================================== *)
(** * Shared data: vertices, edges, errors                                *)
(* ===================================================================== *)

(** [solver.VertexOptions]: the two options scheduler.go reads. *)
Record VertexOptions := mkVertexOptions {
  IgnoreCache : bool;
  SkipEdgeMerge : bool
}.

(** [solver.Vertex] is an interface; an implementation is given by what its
    methods [Digest()], [Name()] and [Options()] return. *)
Record Vertex := mkVertex {
  Digest : string;
  Name : string;
  Options : VertexOptions
}.

(** [solver.Edge]: one selected output of a vertex. *)
Record Edge := mkEdge {
  Index : nat;
  Vertex_ : Vertex
}.

(** Go [error] values built in the two files. *)
Inductive error : Type :=
| errors_New (msg : string)
| errors_Errorf (format : string) (arg : Edge).

(** [context.Context]; only [context.TODO()] is built by the code. *)
Inductive Context : Type :=
| context_TODO
| context_Other (n : nat).

(** A list without its repetitions, each element staying at the place where
    it is first mentioned. *)
Fixpoint first_mentions (l : list nat) : list nat :=
  match l with
  | [] => []
  | x :: l' => x :: filter (λ y, y ≠ x) (first_mentions l')
  end.

(* ===================================================================== *)
(** * solver/llbsolver/errdefs/exec.go                                    *)
(* ===================================================================== *)

Module errdefs.

(** A [solver.Result] interface value that is not nil is identified by the
    handle it holds; Go compares interface values by that identity when
    they are used as map keys. A nil interface value is [None]. *)
Abbreviation Result := nat (only parsing).

Record ExecError := mkExecError {
  error_ : error;
  Inputs : list (option Result);
  Mounts : list (option Result);
  OwnerBorrowed : bool
}.

Definition Unwrap (e : ExecError) : error := error_ e.

Section EachRef.
(** The callback runs in some world [W] and may return an error. *)
Context {W : Type}.
Variable fn : Result → W → option error * W.

(** One [for _, res := range ...] loop of [EachRef]: [m] is the map of
    handles seen so far, [err] the first error so far. *)
Fixpoint EachRef_range (l : list (option Result)) (m : gset Result)
    (err : option error) (w : W) : gset Result * option error * W :=
  match l with
  | [] => (m, err, w)
  | None :: l' => EachRef_range l' m err w
  | Some res :: l' =>
      if decide (res ∈ m) then EachRef_range l' m err w
      else
        let '(err1, w') := fn res w in
        let err' := match err1, err with
                    | Some e1, None => Some e1
                    | _, _ => err
                    end in
        EachRef_range l' ({[res]} ∪ m) err' w'
  end.

Definition EachRef (e : ExecError) (w : W) : option error * W :=
  let '(m, err, w1) := EachRef_range (Inputs e) ∅ None w in
  let '(_, err, w2) := EachRef_range (Mounts e) m err w1 in
  (err, w2).
End EachRef.

(** The world of [Release]: the log of [r.Release(ctx)] calls made so far,
    oldest first. *)
Abbreviation release_log := (list nat) (only parsing).

(** The closure passed by [Release]: it releases [r] and returns nil. *)
Definition release_ref (r : Result) (log : release_log)
  : option error * release_log := (None, log ++ [r]).

(** [(e *ExecError) Release()]: the returned error, the updated object and
    the updated log. *)
Definition Release (e : ExecError) (log : release_log)
  : option error * ExecError * release_log :=
  if OwnerBorrowed e then (None, e, log)
  else
    let '(err, log') := EachRef release_ref e log in
    (err,
     {| error_ := error_ e; Inputs := Inputs e; Mounts := Mounts e;
        OwnerBorrowed := true |},
     log').

(** [n] successive calls of [Release] on the same object. *)
Fixpoint Release_times (n : nat) (e : ExecError) (log : release_log)
  : ExecError * release_log :=
  match n with
  | 0 => (e, log)
  | S n' => let '(_, e', log') := Release e log in Release_times n' e' log'
  end.

(** [WithExecErrorWithContext]: nil for a nil error, else a fresh
    [*ExecError]. *)
Definition WithExecErrorWithContext (ctx : Context) (err : option error)
    (inputs mounts : list (option Result)) : option ExecError :=
  match err with
  | None => None
  | Some err =>
      Some {| error_ := err; Inputs := inputs; Mounts := mounts;
              OwnerBorrowed := false |}
  end.

Definition WithExecError (err : option error)
    (inputs mounts : list (option Result)) : option ExecError :=
  WithExecErrorWithContext context_TODO err inputs mounts.

(** Calling [fn] on the handles [rs] one after the other, whatever it
    returns, and keeping the first error. *)
Fixpoint call_each {W} (fn : Result → W → option error * W) (rs : list Result)
    (err : option error) (w : W) : option error * W :=
  match rs with
  | [] => (err, w)
  | r :: rs' =>
      let '(err1, w') := fn r w in
      call_each fn rs'
        (match err1, err with
         | Some e1, None => Some e1
         | _, _ => err
         end) w'
  end.

(** The handles an [ExecError] holds: the non-nil ones of [Inputs], then
    of [Mounts], without repetitions. *)
Definition held_refs (e : ExecError) : list Result :=
  first_mentions (omap id (Inputs e ++ Mounts e)).

End errdefs.

(* ===================================================================== *)
(** * solver/scheduler.go                                                 *)
(* ===================================================================== *)

Module solver.

(** ** Addresses *)

Abbreviation edge_ptr := nat (only parsing).        (* *edge *)
Abbreviation pipe_ptr := nat (only parsing).        (* *edgePipe, and its *pipe.Pipe *)
Abbreviation dispatcher_ptr := nat (only parsing).  (* *dispatcher *)

(** ** Cache keys, results and the fields of [edge] that scheduler.go uses *)

Abbreviation CacheKey := nat (only parsing).        (* *CacheKey of the index *)
Abbreviation ExportableCacheKey := nat (only parsing).

Record CacheKeyWithSelector := mkCacheKeyWithSelector {
  Selector : string;
  CacheKey_ : ExportableCacheKey
}.

Record expDep := mkExpDep {
  exp_index : nat;
  exp_cacheKey : CacheKeyWithSelector
}.

(** [CachedResult]: the handle and what [CacheKeys()] returns. *)
Record CachedResult := mkCachedResult {
  result_id : nat;
  CacheKeys : list ExportableCacheKey
}.

(** One entry of [edge.deps]. *)
Record dep := mkDep {
  keys : list ExportableCacheKey;
  slowCacheKey : option ExportableCacheKey;
  result : option CachedResult
}.

(** [CacheMap.Deps[i].Selector] is all that [mergeTo] reads. *)
Record CacheMap := mkCacheMap {
  Deps : list string
}.

Record edge := mkEdgeState {
  e_edge : Edge;                       (* field [edge] *)
  deps : list dep;
  cacheMap : option CacheMap;          (* nil until loaded *)
  hasActiveOutgoing : bool;
  keysDidChange : bool;
  secondaryExporters : list expDep;
  err : option error                   (* set when the edge has failed *)
}.

Inductive edgeStatusType :=
| edgeStatusInitial
| edgeStatusCacheFast
| edgeStatusCacheSlow
| edgeStatusComplete.

Record edgeRequest := mkEdgeRequest {
  desiredState : edgeStatusType
}.

(** The value a completed pipe carries towards [build]. *)
Record edgeState := mkEdgeStateValue {
  es_state : edgeStatusType;
  es_result : option CachedResult      (* *SharedCachedResult *)
}.

(** A Go [any]. *)
Inductive any :=
| any_nil
| any_edgeState (st : edgeState)
| any_other (n : nat).

(** ** Pipes *)

(** Modelled from the spec: the pipe package (solver/internal/pipe) is
    outside this development. A pipe has a request payload and a status, one
    of Initial, Running, Completed, Cancelled, with an optional value or
    error; [Completed] is the accessor the scheduler reads. *)
Inductive pipe_state := StInitial | StRunning | StCompleted | StCancelled.

Record Status := mkStatus {
  st : pipe_state;
  Err : option error;
  Value : any
}.

Definition Completed (s : Status) : bool :=
  match st s with StCompleted => true | _ => false end.

Record pipeRequest := mkPipeRequest {
  Payload : edgeRequest;
  Canceled : bool                      (* cancel was called *)
}.

(** The closures scheduler.go installs as completion callbacks. *)
Inductive callback :=
| cb_signal_From      (* func() { s.signal(p.From) } *)
| cb_signal_Target    (* func() { s.signal(p.Target) } *)
| cb_build_wait.      (* the closure of [build] that closes [wait] *)

(** [edgePipe], with the fields of the [*pipe.Pipe] it embeds.
    [SenderStatus] is [p.Sender.Status()], the status as last set on the
    producing side; [ReceiverStatus] is [p.Receiver.Status()], the status
    the consumer has last received. *)
Record edgePipe := mkEdgePipe {
  Request : pipeRequest;
  SenderStatus : Status;
  ReceiverStatus : Status;
  OnReceiveCompletion : option callback;
  OnSendCompletion : option callback;
  Target : option edge_ptr;
  From : option edge_ptr
}.

Definition set_Request (f : pipeRequest → pipeRequest) (p : edgePipe) :=
  mkEdgePipe (f (Request p)) (SenderStatus p) (ReceiverStatus p)
    (OnReceiveCompletion p) (OnSendCompletion p) (Target p) (From p).
Definition set_SenderStatus (f : Status → Status) (p : edgePipe) :=
  mkEdgePipe (Request p) (f (SenderStatus p)) (ReceiverStatus p)
    (OnReceiveCompletion p) (OnSendCompletion p) (Target p) (From p).
Definition set_ReceiverStatus (f : Status → Status) (p : edgePipe) :=
  mkEdgePipe (Request p) (SenderStatus p) (f (ReceiverStatus p))
    (OnReceiveCompletion p) (OnSendCompletion p) (Target p) (From p).
Definition set_OnReceiveCompletion (c : option callback) (p : edgePipe) :=
  mkEdgePipe (Request p) (SenderStatus p) (ReceiverStatus p)
    c (OnSendCompletion p) (Target p) (From p).
Definition set_OnSendCompletion (c : option callback) (p : edgePipe) :=
  mkEdgePipe (Request p) (SenderStatus p) (ReceiverStatus p)
    (OnReceiveCompletion p) c (Target p) (From p).
Definition set_Target (t : option edge_ptr) (p : edgePipe) :=
  mkEdgePipe (Request p) (SenderStatus p) (ReceiverStatus p)
    (OnReceiveCompletion p) (OnSendCompletion p) t (From p).
Definition set_From (t : option edge_ptr) (p : edgePipe) :=
  mkEdgePipe (Request p) (SenderStatus p) (ReceiverStatus p)
    (OnReceiveCompletion p) (OnSendCompletion p) (Target p) t.

Definition set_hasActiveOutgoing (b : bool) (e : edge) :=
  mkEdgeState (e_edge e) (deps e) (cacheMap e) b (keysDidChange e)
    (secondaryExporters e) (err e).
Definition set_keysDidChange (b : bool) (e : edge) :=
  mkEdgeState (e_edge e) (deps e) (cacheMap e) (hasActiveOutgoing e) b
    (secondaryExporters e) (err e).
Definition set_secondaryExporters (f : list expDep → list expDep) (e : edge) :=
  mkEdgeState (e_edge e) (deps e) (cacheMap e) (hasActiveOutgoing e)
    (keysDidChange e) (f (secondaryExporters e)) (err e).
Definition set_err (x : option error) (e : edge) :=
  mkEdgeState (e_edge e) (deps e) (cacheMap e) (hasActiveOutgoing e)
    (keysDidChange e) (secondaryExporters e) x.

Global Instance VertexOptions_eq_dec : EqDecision VertexOptions.
Proof. solve_decision. Defined.
Global Instance Vertex_eq_dec : EqDecision Vertex.
Proof. solve_decision. Defined.
Global Instance Edge_eq_dec : EqDecision Edge.
Proof. solve_decision. Defined.
Global Instance error_eq_dec : EqDecision error.
Proof. solve_decision. Defined.
Global Instance CachedResult_eq_dec : EqDecision CachedResult.
Proof. solve_decision. Defined.
Global Instance edgeStatusType_eq_dec : EqDecision edgeStatusType.
Proof. solve_decision. Defined.
Global Instance edgeState_eq_dec : EqDecision edgeState.
Proof. solve_decision. Defined.
Global Instance any_eq_dec : EqDecision any.
Proof. solve_decision. Defined.
Global Instance pipe_state_eq_dec : EqDecision pipe_state.
Proof. solve_decision. Defined.
Global Instance Status_eq_dec : EqDecision Status.
Proof. solve_decision. Defined.

(** [new(pipe.Pipe)] with its request, as the helper [newPipe(req)] of
    edge.go returns it: nothing sent, nothing received, no callbacks. *)
Definition Status_zero : Status := mkStatus StInitial None any_nil.

Definition pipe_New (req : pipeRequest) (target from : option edge_ptr)
  : edgePipe :=
  mkEdgePipe req Status_zero Status_zero None None target from.

(** A queue node. *)
Record dispatcher := mkDispatcher {
  d_next : option dispatcher_ptr;      (* field [next] *)
  d_e : edge_ptr                       (* field [e] *)
}.

(** ** The interfaces the scheduler is built on *)

(** [edgeFactory], over the state [EF] of an implementation. *)
Class edgeFactory (EF : Type) := {
  getEdge : EF → Edge → option edge_ptr;
  setEdge : Edge → edge_ptr → EF → EF;
  hasOwner : EF → Edge → Edge → bool
}.

(** [edgeIndex], over the state [IDX] of an implementation:
    [LoadOrStore] returns the edge already stored for the key, or stores
    the given edge and returns nil. *)
Class edgeIndex (IDX : Type) := {
  LoadOrStore : CacheKey → edge_ptr → IDX → option edge_ptr * IDX
}.

(** ** The state *)

Section Scheduler.
Context {EF IDX : Type} `{!edgeFactory EF} `{!edgeIndex IDX}.

(** The fields of [scheduler] ([cond] to [outgoing]), then the objects its
    pointers lead to. Go has no dangling pointers: each store is total, and
    an address at or above the allocation mark holds an object nobody
    refers to yet. [waits] holds the root pipes whose [wait] channel
    (a local of [build]) is closed. All edges share one key index, kept
    in [index]. *)
Record state := mkState {
  cond : bool;                          (* the stateful condvar is signalled *)
  ef : EF;
  waitq : gset edge_ptr;
  next : option dispatcher_ptr;
  last : option dispatcher_ptr;
  stopped : bool;                       (* channel [stopped] is closed *)
  incoming : gmap edge_ptr (list pipe_ptr);
  outgoing : gmap edge_ptr (list pipe_ptr);
  dispatchers : dispatcher_ptr → dispatcher;
  dispatcher_alloc : dispatcher_ptr;
  pipes : pipe_ptr → edgePipe;
  pipe_alloc : pipe_ptr;
  edges : edge_ptr → edge;
  index : IDX;
  waits : gset pipe_ptr
}.

Definition set_cond (b : bool) (s : state) : state :=
  mkState b (ef s) (waitq s) (next s) (last s) (stopped s) (incoming s)
    (outgoing s) (dispatchers s) (dispatcher_alloc s) (pipes s) (pipe_alloc s)
    (edges s) (index s) (waits s).
Definition set_ef (f : EF → EF) (s : state) : state :=
  mkState (cond s) (f (ef s)) (waitq s) (next s) (last s) (stopped s)
    (incoming s) (outgoing s) (dispatchers s) (dispatcher_alloc s) (pipes s)
    (pipe_alloc s) (edges s) (index s) (waits s).
Definition set_waitq (f : gset edge_ptr → gset edge_ptr) (s : state) : state :=
  mkState (cond s) (ef s) (f (waitq s)) (next s) (last s) (stopped s)
    (incoming s) (outgoing s) (dispatchers s) (dispatcher_alloc s) (pipes s)
    (pipe_alloc s) (edges s) (index s) (waits s).
Definition set_next (n : option dispatcher_ptr) (s : state) : state :=
  mkState (cond s) (ef s) (waitq s) n (last s) (stopped s)
    (incoming s) (outgoing s) (dispatchers s) (dispatcher_alloc s) (pipes s)
    (pipe_alloc s) (edges s) (index s) (waits s).
Definition set_last (n : option dispatcher_ptr) (s : state) : state :=
  mkState (cond s) (ef s) (waitq s) (next s) n (stopped s)
    (incoming s) (outgoing s) (dispatchers s) (dispatcher_alloc s) (pipes s)
    (pipe_alloc s) (edges s) (index s) (waits s).
Definition set_stopped (b : bool) (s : state) : state :=
  mkState (cond s) (ef s) (waitq s) (next s) (last s) b
    (incoming s) (outgoing s) (dispatchers s) (dispatcher_alloc s) (pipes s)
    (pipe_alloc s) (edges s) (index s) (waits s).
Definition set_incoming
    (f : gmap edge_ptr (list pipe_ptr) → gmap edge_ptr (list pipe_ptr))
    (s : state) : state :=
  mkState (cond s) (ef s) (waitq s) (next s) (last s) (stopped s)
    (f (incoming s)) (outgoing s) (dispatchers s) (dispatcher_alloc s)
    (pipes s) (pipe_alloc s) (edges s) (index s) (waits s).
Definition set_outgoing
    (f : gmap edge_ptr (list pipe_ptr) → gmap edge_ptr (list pipe_ptr))
    (s : state) : state :=
  mkState (cond s) (ef s) (waitq s) (next s) (last s) (stopped s)
    (incoming s) (f (outgoing s)) (dispatchers s) (dispatcher_alloc s)
    (pipes s) (pipe_alloc s) (edges s) (index s) (waits s).
Definition set_dispatchers
    (f : (dispatcher_ptr → dispatcher) → dispatcher_ptr → dispatcher)
    (s : state) : state :=
  mkState (cond s) (ef s) (waitq s) (next s) (last s) (stopped s)
    (incoming s) (outgoing s) (f (dispatchers s)) (dispatcher_alloc s)
    (pipes s) (pipe_alloc s) (edges s) (index s) (waits s).
Definition set_dispatcher_alloc (n : dispatcher_ptr) (s : state) : state :=
  mkState (cond s) (ef s) (waitq s) (next s) (last s) (stopped s)
    (incoming s) (outgoing s) (dispatchers s) n
    (pipes s) (pipe_alloc s) (edges s) (index s) (waits s).
Definition set_pipes (f : (pipe_ptr → edgePipe) → pipe_ptr → edgePipe)
    (s : state) : state :=
  mkState (cond s) (ef s) (waitq s) (next s) (last s) (stopped s)
    (incoming s) (outgoing s) (dispatchers s) (dispatcher_alloc s)
    (f (pipes s)) (pipe_alloc s) (edges s) (index s) (waits s).
Definition set_pipe_alloc (n : pipe_ptr) (s : state) : state :=
  mkState (cond s) (ef s) (waitq s) (next s) (last s) (stopped s)
    (incoming s) (outgoing s) (dispatchers s) (dispatcher_alloc s)
    (pipes s) n (edges s) (index s) (waits s).
Definition set_edges (f : (edge_ptr → edge) → edge_ptr → edge)
    (s : state) : state :=
  mkState (cond s) (ef s) (waitq s) (next s) (last s) (stopped s)
    (incoming s) (outgoing s) (dispatchers s) (dispatcher_alloc s)
    (pipes s) (pipe_alloc s) (f (edges s)) (index s) (waits s).
Definition set_index (i : IDX) (s : state) : state :=
  mkState (cond s) (ef s) (waitq s) (next s) (last s) (stopped s)
    (incoming s) (outgoing s) (dispatchers s) (dispatcher_alloc s)
    (pipes s) (pipe_alloc s) (edges s) i (waits s).
Definition set_waits (f : gset pipe_ptr → gset pipe_ptr) (s : state) : state :=
  mkState (cond s) (ef s) (waitq s) (next s) (last s) (stopped s)
    (incoming s) (outgoing s) (dispatchers s) (dispatcher_alloc s)
    (pipes s) (pipe_alloc s) (edges s) (index s) (f (waits s)).

(** Field writes through a pointer: [p.f = v] and [e.f = v]. *)
Definition upd_pipe (p : pipe_ptr) (f : edgePipe → edgePipe) : state → state :=
  set_pipes (alter f p).
Definition upd_edge (e : edge_ptr) (f : edge → edge) : state → state :=
  set_edges (alter f e).

(** [m[k]] on a Go map of slices: a missing key reads as the nil slice. *)
Definition slice_at (m : gmap edge_ptr (list pipe_ptr)) (k : edge_ptr)
  : list pipe_ptr := default [] (m !! k).

(** [m[k] = append(m[k], p)]. *)
Definition append_at (k : edge_ptr) (p : pipe_ptr)
    (m : gmap edge_ptr (list pipe_ptr)) : gmap edge_ptr (list pipe_ptr) :=
  <[k := slice_at m k ++ [p]]> m.

(** ** Computations: state passing, [None] is a panic *)

Definition M (A : Type) : Type := state → option (A * state).

Definition ret {A} (a : A) : M A := λ s, Some (a, s).
Definition bind {A B} (c : M A) (k : A → M B) : M B :=
  λ s, match c s with
       | Some (a, s') => k a s'
       | None => None
       end.
Definition panic {A} : M A := λ _, None.
Definition get : M state := λ s, Some (s, s).
Definition modify (f : state → state) : M unit := λ s, Some (tt, f s).

Notation "x <- c1 ;; c2" := (bind c1 (λ x, c2))
  (at level 100, c1 at next level, right associativity).
Notation "c1 ;;; c2" := (bind c1 (λ _, c2))
  (at level 100, right associativity).

(** [for _, a := range l { f(a) }] over the slice as it is when the loop
    starts. *)
Fixpoint forM_ {A} (l : list A) (f : A → M unit) : M unit :=
  match l with
  | [] => ret tt
  | a :: l' => f a ;;; forM_ l' f
  end.

(** [for i, a := range l { f(i, a) }], counting from [i]. *)
Fixpoint forM_i {A} (i : nat) (l : list A) (f : nat → A → M unit) : M unit :=
  match l with
  | [] => ret tt
  | a :: l' => f i a ;;; forM_i (S i) l' f
  end.

(** ** The wake-up queue *)

(** [signal]: notifies that an edge needs to be processed again. *)
Definition signal (e : edge_ptr) (s : state) : state :=
  if decide (e ∈ waitq s) then s
  else
    let d := dispatcher_alloc s in      (* d := &dispatcher{e: e} *)
    let s := set_dispatcher_alloc (S d)
               (set_dispatchers <[d := mkDispatcher None e]> s) in
    let s := match last s with
             | None => set_next (Some d) s
             | Some l =>
                 set_dispatchers
                   (alter (λ n, mkDispatcher (Some d) (d_e n)) l) s
             end in
    let s := set_last (Some d) s in
    let s := set_waitq (λ q, {[e]} ∪ q) s in
    set_cond true s.                    (* s.cond.Signal() *)

(** The part of [loop] under [muQ]: take the head node off the queue. *)
Definition dequeue (s : state) : option dispatcher_ptr * state :=
  match next s with
  | None => (None, s)
  | Some l =>
      let s := if decide (Some l = last s) then set_last None s else s in
      let s := set_next (d_next (dispatchers s l)) s in
      let s := set_waitq (λ q, q ∖ {[d_e (dispatchers s l)]}) s in
      (Some l, s)
  end.

(** ** Pipe operations *)

(** Modelled from the spec: receive() consumes the last emitted update
    and returns whether new data was observed. *)
Definition Receive (p : pipe_ptr) : M bool :=
  s <- get ;;
  let pp := pipes s p in
  if decide (ReceiverStatus pp = SenderStatus pp) then ret false
  else
    modify (upd_pipe p (set_ReceiverStatus (λ _, SenderStatus pp))) ;;;
    ret true.

(** Running a completion callback of pipe [p]. Signalling a nil edge would
    make the loop dispatch nil, a nil dereference; closing a closed
    channel panics. *)
Definition fire (cb : option callback) (p : pipe_ptr) : M unit :=
  match cb with
  | None => ret tt
  | Some cb_signal_From =>
      s <- get ;;
      match From (pipes s p) with
      | Some e => modify (signal e)
      | None => panic
      end
  | Some cb_signal_Target =>
      s <- get ;;
      match Target (pipes s p) with
      | Some e => modify (signal e)
      | None => panic
      end
  | Some cb_build_wait =>
      _ <- Receive p ;;
      s <- get ;;
      if Completed (ReceiverStatus (pipes s p)) then
        if decide (p ∈ waits s) then panic
        else modify (set_waits (λ w, {[p]} ∪ w))
      else ret tt
  end.

(** Modelled from the spec: cancel() transitions to Cancelled only if not
    already Completed, fires both completion callbacks once, and is
    idempotent. *)
Definition Cancel (p : pipe_ptr) : M unit :=
  s <- get ;;
  if Canceled (Request (pipes s p)) then ret tt
  else
    modify (upd_pipe p (λ pp,
      set_Request (λ r, mkPipeRequest (Payload r) true)
        (set_SenderStatus
           (λ x, if Completed x then x
                 else mkStatus StCancelled (Err x) (Value x)) pp))) ;;;
    s <- get ;;
    fire (OnReceiveCompletion (pipes s p)) p ;;;
    s <- get ;;
    fire (OnSendCompletion (pipes s p)) p.

(** [newPipe]: creates a new request pipe between two edges. *)
Definition newPipe (target : edge_ptr) (from : option edge_ptr)
    (req : pipeRequest) : M pipe_ptr :=
  s <- get ;;
  let p := pipe_alloc s in
  modify (set_pipe_alloc (S p)) ;;;
  modify (set_pipes <[p := pipe_New req (Some target) from]>) ;;;
  modify (signal target) ;;;
  match from with
  | Some f =>
      modify (upd_pipe p (set_OnSendCompletion (Some cb_signal_From))) ;;;
      modify (set_outgoing (append_at f p))
  | None => ret tt
  end ;;;
  modify (set_incoming (append_at target p)) ;;;
  modify (upd_pipe p (set_OnReceiveCompletion (Some cb_signal_Target))) ;;;
  ret p.

(** ** mergeTo *)

(** [src.cacheMap.Deps[i].Selector]. *)
Definition dep_Selector (src : edge_ptr) (i : nat) : M string :=
  s <- get ;;
  match cacheMap (edges s src) with
  | None => panic
  | Some cm =>
      match Deps cm !! i with
      | Some sel => ret sel
      | None => panic
      end
  end.

(** [target.secondaryExporters = append(target.secondaryExporters, x)]. *)
Definition add_secondaryExporter (target : edge_ptr) (x : expDep) : M unit :=
  modify (upd_edge target (set_secondaryExporters (λ l, l ++ [x]))).

(** The body of [for i, d := range src.deps]. *)
Definition mergeTo_dep (target src : edge_ptr) (i : nat) (d : dep) : M unit :=
  forM_ (keys d) (λ k,
    sel <- dep_Selector src i ;;
    add_secondaryExporter target
      (mkExpDep i (mkCacheKeyWithSelector sel k))) ;;;
  match slowCacheKey d with
  | Some k =>
      add_secondaryExporter target
        (mkExpDep i (mkCacheKeyWithSelector "" k))
  | None => ret tt
  end ;;;
  match result d with
  | Some r =>
      forM_ (CacheKeys r) (λ dk,
        sel <- dep_Selector src i ;;
        add_secondaryExporter target
          (mkExpDep i (mkCacheKeyWithSelector sel dk)))
  | None => ret tt
  end.

(** [mergeTo]: merges the state from one edge to another. *)
Definition mergeTo (target src : edge_ptr) : M bool :=
  s <- get ;;
  let topt := Options (Vertex_ (e_edge (edges s target))) in
  let sopt := Options (Vertex_ (e_edge (edges s src))) in
  if SkipEdgeMerge topt || SkipEdgeMerge sopt then ret false
  else if negb (IgnoreCache topt) && IgnoreCache sopt then ret false
  else
    forM_ (slice_at (incoming s) src) (λ inc,
      modify (upd_pipe inc (set_Target (Some target))) ;;;
      modify (set_incoming (append_at target inc))) ;;;
    s <- get ;;
    forM_ (slice_at (outgoing s) src) (λ out,
      modify (upd_pipe out (set_From (Some target))) ;;;
      modify (set_outgoing (append_at target out)) ;;;
      Cancel out) ;;;
    modify (set_incoming (delete src)) ;;;
    modify (set_outgoing (delete src)) ;;;
    modify (signal target) ;;;
    s <- get ;;
    forM_i 0 (deps (edges s src)) (mergeTo_dep target src) ;;;
    ret true.

(** ** Function requests and the pipe factory *)

(** The errors of a function request: [errdefs.Internal(err)] and the
    [errors.Errorf] of [NewInputRequest], with its format and the three
    arguments it is given. *)
Inductive request_error :=
| request_Errorf (format : string) (name digest : string) (index : nat)
| errdefs_Internal (err : request_error).

(** [func(context.Context) (any, error)]. *)
Definition request_func : Type := Context → any * option request_error.

(** The function [NewInputRequest] hands over when the graph does not
    know the edge. *)
Definition inconsistent_graph (ee : Edge) : request_func :=
  λ _, (any_nil,
        Some (errdefs_Internal
                (request_Errorf
                   "failed to get edge: inconsistent graph state in edge %s %s %d"
                   (Name (Vertex_ ee)) (Digest (Vertex_ ee)) (Index ee)))).

Section Requests.

(** [pipe.NewWithFunction] is outside this development: the pipe it
    returns for a function is taken as it comes, read as an [edgePipe]
    whose endpoints are still to be set. *)
Variable NewWithFunction : request_func → edgePipe.

(** [newRequestWithFunc]: creates a new request pipe that invokes an
    async function. It returns the receiver together with the function
    that [go start()] runs beside the scheduler. *)
Definition newRequestWithFunc (e : edge_ptr) (f : request_func)
  : M (pipe_ptr * request_func) :=
  s <- get ;;
  let p := pipe_alloc s in
  modify (set_pipe_alloc (S p)) ;;;
  modify (set_pipes
            <[p := set_From (Some e) (set_Target None (NewWithFunction f))]>) ;;;
  modify (upd_pipe p (set_OnSendCompletion (Some cb_signal_From))) ;;;
  modify (set_outgoing (append_at e p)) ;;;
  ret (p, f).

(** [pipeFactory.NewFuncRequest], for the factory of edge [pf_e]. *)
Definition NewFuncRequest (pf_e : edge_ptr) (f : request_func)
  : M (pipe_ptr * request_func) :=
  newRequestWithFunc pf_e f.

(** [pipeFactory.NewInputRequest]: the receiver, and the function that
    was started if there is one. *)
Definition NewInputRequest (pf_e : edge_ptr) (ee : Edge) (req : edgeRequest)
  : M (pipe_ptr * option request_func) :=
  s <- get ;;
  match getEdge (ef s) ee with
  | None =>
      r <- NewFuncRequest pf_e (inconsistent_graph ee) ;;
      ret (r.1, Some r.2)
  | Some target =>
      p <- newPipe target (Some pf_e) (mkPipeRequest req false) ;;
      ret (p, None)
  end.

End Requests.

(** ** dispatch, the loop and build *)

Section Dispatch.

(** The methods of [*edge] that scheduler.go calls; edge.go is outside
    this development, so they are taken as they come. [unpark] and [markFailed]
    receive the pipe factory [&pipeFactory{s: s, e: e}], that is, the whole
    state and the edge. *)
Variable unpark :
  edge_ptr → list pipe_ptr → list pipe_ptr → list pipe_ptr → state → state.
Variable isDep : state → edge_ptr → edge_ptr → bool.
Variable currentIndexKey : state → edge_ptr → option CacheKey.
Variable markFailed : edge_ptr → error → state → state.

(** [CachedResult.CloneCachedResult()]. *)
Variable CloneCachedResult : CachedResult → CachedResult.

(** The loop over [out] at the start of [dispatch]. *)
Fixpoint dispatch_receive (e : edge_ptr) (out updates : list pipe_ptr)
  : M (list pipe_ptr) :=
  match out with
  | [] => ret updates
  | p :: out' =>
      ok <- Receive p ;;
      let updates := if ok : bool then updates ++ [p] else updates in
      s <- get ;;
      (if Completed (ReceiverStatus (pipes s p)) then ret tt
       else modify (upd_edge e (set_hasActiveOutgoing true))) ;;;
      dispatch_receive e out' updates
  end.

(** [dispatch], up to and including the call of [unpark]. *)
Definition dispatch_unpark (e : edge_ptr) : M unit :=
  s <- get ;;
  let inc := slice_at (incoming s) e in        (* the senders *)
  let out := slice_at (outgoing s) e in        (* the receivers *)
  modify (upd_edge e (set_hasActiveOutgoing false)) ;;;
  updates <- dispatch_receive e out [] ;;
  modify (unpark e inc updates out).

(** The open pipes among [l]: those whose status, read on the side
    [side], is not completed. *)
Definition open_pipes (side : edgePipe → Status) (s : state)
    (l : list pipe_ptr) : list pipe_ptr :=
  filter (λ r, Completed (side (pipes s r)) = false) l.

(** [dispatch]: pruning the completed pipes from both maps. It returns
    [openIncoming] and [openOutgoing]. *)
Definition dispatch_prune (e : edge_ptr)
  : M (list pipe_ptr * list pipe_ptr) :=
  s <- get ;;
  let openIncoming := open_pipes SenderStatus s (slice_at (incoming s) e) in
  (if 0 <? length openIncoming
   then modify (set_incoming <[e := openIncoming]>)
   else modify (set_incoming (delete e))) ;;;
  s <- get ;;
  let openOutgoing := open_pipes ReceiverStatus s (slice_at (outgoing s) e) in
  (if 0 <? length openOutgoing
   then modify (set_outgoing <[e := openOutgoing]>)
   else modify (set_outgoing (delete e))) ;;;
  ret (openIncoming, openOutgoing).

(** The choice of [dest, src] for an edge [e] that met [origEdge] in the
    index. *)
Definition merge_roles (s : state) (e origEdge : edge_ptr)
  : edge_ptr * edge_ptr :=
  let '(dest, src) := (origEdge, e) in
  if hasOwner (ef s) (e_edge (edges s origEdge)) (e_edge (edges s e))
  then (src, dest)
  else (dest, src).

(** [dispatch]: the block [if e.keysDidChange { ... }]. *)
Definition dispatch_merge (e : edge_ptr) : M unit :=
  s <- get ;;
  if keysDidChange (edges s e) then
    match currentIndexKey s e with
    | Some k =>
        let '(origEdge, idx) := LoadOrStore k e (index s) in
        modify (set_index idx) ;;;
        match origEdge with
        | Some origEdge =>
            s <- get ;;
            if isDep s e origEdge || isDep s origEdge e then ret tt
            else
              let '(dest, src) := merge_roles s e origEdge in
              ok <- mergeTo dest src ;;
              if ok : bool then
                s <- get ;;
                modify (set_ef (setEdge (e_edge (edges s src)) dest))
              else ret tt
        | None => ret tt
        end
    | None => ret tt
    end ;;;
    modify (upd_edge e (set_keysDidChange false))
  else ret tt.

(** What [dispatch] makes of [mergeTo(target, source)]: on true it
    redirects the factory from the source to the target, and in each
    case it resets [e.keysDidChange]. *)
Definition merge_outcome (e target source : edge_ptr) (s1 : state)
  : option (unit * state) :=
  match mergeTo target source s1 with
  | Some (true, s2) =>
      Some (tt, upd_edge e (set_keysDidChange false)
                  (set_ef (setEdge (e_edge (edges s2 source)) target) s2))
  | Some (false, s2) => Some (tt, upd_edge e (set_keysDidChange false) s2)
  | None => None
  end.

Definition err_incoming_open : error :=
  errors_New "buildkit scheduler error: return leaving incoming open. Please report this with BUILDKIT_SCHEDULER_DEBUG=1".
Definition err_outgoing_open : error :=
  errors_New "buildkit scheduler error: return leaving outgoing open. Please report this with BUILDKIT_SCHEDULER_DEBUG=1".

(** [dispatch]: the validation at its end. *)
Definition dispatch_validate (e : edge_ptr)
    (openIncoming openOutgoing : list pipe_ptr) : M unit :=
  (if (0 <? length openIncoming) && (length openOutgoing =? 0)
   then modify (markFailed e err_incoming_open)
   else ret tt) ;;;
  (if (length openIncoming =? 0) && (0 <? length openOutgoing)
   then modify (markFailed e err_outgoing_open)
   else ret tt).

(** [dispatch]: schedules an edge to be processed. *)
Definition dispatch (e : edge_ptr) : M unit :=
  dispatch_unpark e ;;;
  open <- dispatch_prune e ;;
  dispatch_merge e ;;;
  dispatch_validate e open.1 open.2.

(** One turn of the [for] of [loop]. *)
Inductive loop_status :=
| loop_returned      (* stopped: the loop returns *)
| loop_waiting       (* blocked in s.cond.Wait() *)
| loop_running.      (* goes on to the next turn *)

(** Modelled from the spec: util/cond is outside this development. The
    condvar is stateful: a signal sent while nobody waits is kept, and
    the next wait consumes it instead of blocking. *)
Definition cond_Wait : M loop_status :=
  s <- get ;;
  if cond s then modify (set_cond false) ;;; ret loop_running
  else ret loop_waiting.

Definition loop_iter : M loop_status :=
  s <- get ;;
  if stopped s then ret loop_returned
  else
    let '(l, s') := dequeue s in
    modify (λ _, s') ;;;
    match l with
    | None => cond_Wait
    | Some l => dispatch (d_e (dispatchers s' l)) ;;; ret loop_running
    end.

(** The [for] of [loop], for at most [fuel] turns: it goes on while the
    turns go on, and ends where a turn returns or blocks. *)
Fixpoint loop_for (fuel : nat) : M loop_status :=
  match fuel with
  | 0 => ret loop_running
  | S n =>
      r <- loop_iter ;;
      match r with
      | loop_running => loop_for n
      | _ => ret r
      end
  end.

(** [build], the part under [mu]: it returns the error of an unknown
    edge, or the root pipe. *)
Definition build_enter (edge : Edge) : M (error + pipe_ptr) :=
  s <- get ;;
  match getEdge (ef s) edge with
  | None => ret (inl (errors_Errorf "invalid request %v for build" edge))
  | Some e =>
      p <- newPipe e None
             (mkPipeRequest (mkEdgeRequest edgeStatusComplete) false) ;;
      modify (upd_pipe p (set_OnSendCompletion (Some cb_build_wait))) ;;;
      ret (inr p)
  end.

(** [<-wait] returns once the channel [wait] of the root pipe is closed. *)
Definition build_wait (p : pipe_ptr) (s : state) : bool :=
  bool_decide (p ∈ waits s).

(** [build], after [<-wait]: the error or the cloned result. The type
    assertion on [Value] and the call on a nil result panic. *)
Definition build_return (p : pipe_ptr) (s : state)
  : option (CachedResult + error) :=
  let status := ReceiverStatus (pipes s p) in
  match Err status with
  | Some err => Some (inr err)
  | None =>
      match Value status with
      | any_edgeState es =>
          match es_result es with
          | Some r => Some (inl (CloneCachedResult r))
          | None => None
          end
      | _ => None
      end
  end.

(** [build] as seen by its caller: [wake] is the state in which the
    blocked call is looked at again. The call is still blocked ([inl]) while
    [wait] is open. *)
Definition build_resume (p : pipe_ptr) (wake : state)
  : option (unit + (CachedResult + error)) :=
  if build_wait p wake then inr <$> build_return p wake
  else Some (inl tt).

End Dispatch.

(** [newScheduler]: empty maps and an empty queue. The edges are the
    factory's; nothing else is allocated yet. *)
Definition newScheduler (ef0 : EF) (idx : IDX) (es : edge_ptr → edge)
    (d0 : dispatcher) (p0 : edgePipe) : state :=
  mkState false ef0 ∅ None None false ∅ ∅ (λ _, d0) 0 (λ _, p0) 0 es idx ∅.

(** ** The queue, read off the state *)

(** The nodes linked from [p] on, at most [fuel] of them. *)
Fixpoint fifo_nodes (fuel : nat) (h : dispatcher_ptr → dispatcher)
    (p : option dispatcher_ptr) : list dispatcher_ptr :=
  match fuel, p with
  | S n, Some a => a :: fifo_nodes n h (d_next (h a))
  | _, _ => []
  end.

(** The edges that wait in the queue, head first. Every node is allocated,
    so the allocation mark is fuel enough. *)
Definition fifo (s : state) : list edge_ptr :=
  (λ a, d_e (dispatchers s a))
    <$> fifo_nodes (dispatcher_alloc s) (dispatchers s) (next s).

(** What the loop takes off the queue, in order, when nothing is
    signalled in between. *)
Fixpoint drain (fuel : nat) (s : state) : list edge_ptr :=
  match fuel with
  | 0 => []
  | S n =>
      match dequeue s with
      | (None, _) => []
      | (Some l, s') => d_e (dispatchers s' l) :: drain n s'
      end
  end.

(** [linked h nxt lst l]: [l] is the list of nodes from [nxt] to [lst]. *)
Inductive linked (h : dispatcher_ptr → dispatcher)
  : option dispatcher_ptr → option dispatcher_ptr → list dispatcher_ptr → Prop :=
| linked_empty : linked h None None []
| linked_one a : d_next (h a) = None → linked h (Some a) (Some a) [a]
| linked_more a b lst l :
    d_next (h a) = Some b →
    linked h (Some b) lst (b :: l) →
    linked h (Some a) lst (a :: b :: l).

(** The invariant of the queue: [next] to [last] is a list of distinct
    allocated nodes, no edge is queued twice, and [waitq] is the set of
    the queued edges. *)
Record queue_inv (s : state) (l : list dispatcher_ptr) : Prop := {
  qi_linked : linked (dispatchers s) (next s) (last s) l;
  qi_alloc : Forall (λ a, a < dispatcher_alloc s) l;
  qi_nodup : NoDup ((λ a, d_e (dispatchers s a)) <$> l);
  qi_waitq : ∀ e, e ∈ waitq s ↔ e ∈ (λ a, d_e (dispatchers s a)) <$> l
}.

(** A step that leaves the queue alone: everything the scheduler does
    apart from [signal] and the dequeue step of the loop. *)
Definition same_queue (s s' : state) : Prop :=
  waitq s' = waitq s ∧ next s' = next s ∧ last s' = last s ∧
  dispatchers s' = dispatchers s ∧ dispatcher_alloc s' = dispatcher_alloc s.

(** The states of a scheduler since [newScheduler]. *)
Inductive queue_reachable : state → Prop :=
| qr_new ef0 idx es d0 p0 : queue_reachable (newScheduler ef0 idx es d0 p0)
| qr_signal e s : queue_reachable s → queue_reachable (signal e s)
| qr_dequeue s : queue_reachable s → queue_reachable (dequeue s).2
| qr_other s s' : queue_reachable s → same_queue s s' → queue_reachable s'.

(** ** What mergeTo needs to run through *)

(** A callback that can be run on pipe [pp] once [pp.From] is set. *)
Definition cb_safe (pp : edgePipe) (cb : option callback) : bool :=
  match cb with
  | None | Some cb_signal_From => true
  | Some cb_signal_Target => bool_decide (is_Some (Target pp))
  | Some cb_build_wait => false
  end.

(** The outgoing pipes of [src] carry the callbacks of pipes that have a
    source edge. *)
Definition outgoing_ok (s : state) (src : edge_ptr) : Prop :=
  ∀ p, p ∈ slice_at (outgoing s) src →
    cb_safe (pipes s p) (OnReceiveCompletion (pipes s p)) = true ∧
    cb_safe (pipes s p) (OnSendCompletion (pipes s p)) = true.

(** The cache map of [e] has a selector for each of its dependencies. *)
Definition selectors_ok (e : edge) : Prop :=
  ∃ cm, cacheMap e = Some cm ∧ length (deps e) ≤ length (Deps cm).

(** The records [mergeTo] adds for dependency [i] when the selector of
    that dependency is [sel]. *)
Definition dep_exporters (sel : string) (i : nat) (d : dep) : list expDep :=
  ((λ k, mkExpDep i (mkCacheKeyWithSelector sel k)) <$> keys d)
  ++ match slowCacheKey d with
     | Some k => [mkExpDep i (mkCacheKeyWithSelector "" k)]
     | None => []
     end
  ++ match result d with
     | Some r =>
         (λ dk, mkExpDep i (mkCacheKeyWithSelector sel dk)) <$> CacheKeys r
     | None => []
     end.

(** All the records of an edge, dependencies in order from index [i]. *)
Fixpoint edge_exporters (sels : list string) (i : nat) (ds : list dep)
  : list expDep :=
  match ds with
  | [] => []
  | d :: ds' =>
      dep_exporters (default "" (sels !! i)) i d
      ++ edge_exporters sels (S i) ds'
  end.

(** The selectors of the cache map of an edge, none while it is nil. *)
Definition edge_selectors (e : edge) : list string :=
  match cacheMap e with
  | Some cm => Deps cm
  | None => []
  end.

(** [s'] is [s] with the records [xs] added to the secondary exporters
    of [target]. *)
Record exporters_added (target : edge_ptr) (xs : list expDep)
    (s s' : state) : Prop := {
  ea_incoming : incoming s' = incoming s;
  ea_outgoing : outgoing s' = outgoing s;
  ea_pipes : pipes s' = pipes s;
  ea_waitq : waitq s' = waitq s;
  ea_ef : ef s' = ef s;
  ea_index : index s' = index s;
  ea_target :
    edges s' target = set_secondaryExporters (λ l, l ++ xs) (edges s target);
  ea_others : ∀ a, a ≠ target → edges s' a = edges s a
}.

(** What signalling, receiving, running a callback and cancelling leave
    alone: the pipe maps, the edges, the factory, the index and the
    endpoints and callbacks of every pipe. A cancelled pipe stays
    cancelled and a waiting edge keeps waiting. *)
Record callback_frame (s s' : state) : Prop := {
  cf_incoming : incoming s' = incoming s;
  cf_outgoing : outgoing s' = outgoing s;
  cf_edges : edges s' = edges s;
  cf_ef : ef s' = ef s;
  cf_index : index s' = index s;
  cf_Target : ∀ q, Target (pipes s' q) = Target (pipes s q);
  cf_From : ∀ q, From (pipes s' q) = From (pipes s q);
  cf_OnReceive : ∀ q,
    OnReceiveCompletion (pipes s' q) = OnReceiveCompletion (pipes s q);
  cf_OnSend : ∀ q,
    OnSendCompletion (pipes s' q) = OnSendCompletion (pipes s q);
  cf_Canceled : ∀ q,
    Canceled (Request (pipes s q)) = true →
    Canceled (Request (pipes s' q)) = true;
  cf_waitq : waitq s ⊆ waitq s'
}.

(** ** The pipe maps *)

(** The pipe maps agree with the pipes: a pipe listed under an edge in
    [incoming] has this edge as its target, one listed in [outgoing] has
    it as its source, every listed pipe is allocated, and no list holds a
    pipe twice. *)
Record wired (s : state) : Prop := {
  wired_incoming : ∀ e p, p ∈ slice_at (incoming s) e →
    Target (pipes s p) = Some e ∧ p < pipe_alloc s;
  wired_outgoing : ∀ e p, p ∈ slice_at (outgoing s) e →
    From (pipes s p) = Some e ∧ p < pipe_alloc s;
  wired_incoming_once : ∀ e, NoDup (slice_at (incoming s) e);
  wired_outgoing_once : ∀ e, NoDup (slice_at (outgoing s) e)
}.

(** No key of the pipe maps is left with an empty slice. *)
Definition no_empty_slice (s : state) : Prop :=
  ∀ e, incoming s !! e ≠ Some [] ∧ outgoing s !! e ≠ Some [].

End Scheduler.

(** ** An edge factory and a key index to run the scheduler on *)

(** What identifies an edge in the graph: vertex digest and output index. *)
Definition edge_key (e : Edge) : string * nat := (Digest (Vertex_ e), Index e).

(** Modelled from the spec: the graph index is outside this
    development. It maps (vertex digest, output index) to the shared edge
    object, [setEdge(old, new)] redirects the mapping of [old] to [new],
    and [hasOwner(a, b)] returns true if edge [a] logically owns [b].
    [owner] maps an owned edge to its owner. *)
Record graph := mkGraph {
  actives : gmap (string * nat) edge_ptr;
  owner : gmap (string * nat) (string * nat)
}.

Global Instance graph_edgeFactory : edgeFactory graph := {
  getEdge g e := actives g !! edge_key e;
  setEdge old new g := mkGraph (<[edge_key old := new]> (actives g)) (owner g);
  hasOwner g a b := bool_decide (owner g !! edge_key b = Some (edge_key a))
}.

(** Modelled from the spec: the cache-key index is outside this
    development. It maps a cache key to the edge that claimed it, with
    compare-and-set semantics. *)
Global Instance keymap_edgeIndex : edgeIndex (gmap CacheKey edge_ptr) := {
  LoadOrStore k e idx :=
    match idx !! k with
    | Some o => (Some o, idx)
    | None => (None, <[k := e]> idx)
    end
}.

End solver.

(* ===================================================================== *)
(** * A small build graph to run the scheduler on                         *)
(* ===================================================================== *)

Module demo.
Import solver.

(** Three vertices: A and B come to the same cache key, and A reads the
    output of C. B was created to serve an input of A, so A owns B. *)
Definition vertexA : Vertex := mkVertex "sha256:aa" "A" (mkVertexOptions false false).
Definition vertexB : Vertex := mkVertex "sha256:bb" "B" (mkVertexOptions false false).
Definition vertexC : Vertex := mkVertex "sha256:cc" "C" (mkVertexOptions false false).
Definition vertexS : Vertex := mkVertex "sha256:dd" "S" (mkVertexOptions false true).

Definition EdgeA : Edge := mkEdge 0 vertexA.
Definition EdgeB : Edge := mkEdge 0 vertexB.
Definition EdgeC : Edge := mkEdge 0 vertexC.
Definition EdgeS : Edge := mkEdge 0 vertexS.
Definition EdgeX : Edge := mkEdge 1 vertexC.      (* not in the graph *)

(** The edge objects, at addresses 1 (A), 2 (B), 4 (S) and, for every
    other address, C. *)
Definition edgeA : edge :=
  mkEdgeState EdgeA [mkDep [11] None None] (Some (mkCacheMap ["selA"]))
    false false [] None.
Definition edgeB : edge :=
  mkEdgeState EdgeB [mkDep [21] (Some 22) (Some (mkCachedResult 5 [23; 24]))]
    (Some (mkCacheMap ["selB"])) false false [] None.
Definition edgeC : edge :=
  mkEdgeState EdgeC [] (Some (mkCacheMap [])) false false [] None.
Definition edgeS : edge :=
  mkEdgeState EdgeS [] (Some (mkCacheMap [])) false false [] None.

Definition demo_edges (a : nat) : edge :=
  match a with
  | 1 => edgeA
  | 2 => edgeB
  | 4 => edgeS
  | _ => edgeC
  end.

Definition demo_graph : graph :=
  mkGraph
    (<[edge_key EdgeA := 1]> (<[edge_key EdgeB := 2]>
       (<[edge_key EdgeC := 3]> (<[edge_key EdgeS := 4]> ∅))))
    {[edge_key EdgeB := edge_key EdgeA]}.

Abbreviation demo_state := (@state graph (gmap nat nat)) (only parsing).

Definition demo_init : demo_state :=
  newScheduler demo_graph ∅ demo_edges (mkDispatcher None 0)
    (pipe_New (mkPipeRequest (mkEdgeRequest edgeStatusInitial) false)
       None None).

(** The state a computation ends in; a panic leaves the state as it was. *)
Definition exec {A} (c : M A) (s : demo_state) : demo_state :=
  match c s with
  | Some (_, s') => s'
  | None => s
  end.

(** The methods of [*edge] for the demo: [unpark] does nothing, an edge
    depends on itself and A depends on C, every edge has index key 7, and
    [markFailed] records the error in the edge. *)
Definition demo_unpark (e : nat) (inc updates out : list nat)
    (s : demo_state) : demo_state := s.
Definition demo_isDep (s : demo_state) (a b : nat) : bool :=
  bool_decide (a = b ∨ (a = 1 ∧ b = 3)).
Definition demo_currentIndexKey (s : demo_state) (e : nat) : option nat :=
  Some 7.
Definition demo_markFailed (e : nat) (x : error) (s : demo_state)
  : demo_state := upd_edge e (set_err (Some x)) s.
Definition demo_Clone (r : CachedResult) : CachedResult :=
  mkCachedResult (S (result_id r)) (CacheKeys r).

Definition demo_request : pipeRequest :=
  mkPipeRequest (mkEdgeRequest edgeStatusCacheFast) false.

(** Builds of A and B are under way, and both A and B have asked C. *)
Definition demo_running : demo_state :=
  exec (newPipe 3 (Some 2) demo_request)
    (exec (newPipe 3 (Some 1) demo_request)
       (exec (build_enter EdgeB) (exec (build_enter EdgeA) demo_init))).

(** A has found its key 7, which B (respectively C) has claimed before. *)
Definition demo_keys_A_meets_B : demo_state :=
  upd_edge 1 (set_keysDidChange true) (set_index {[7 := 2]} demo_running).
Definition demo_keys_A_meets_C : demo_state :=
  upd_edge 1 (set_keysDidChange true) (set_index {[7 := 3]} demo_running).

(** A merged into B. *)
Definition demo_merged : demo_state :=
  exec (mergeTo 2 1) demo_keys_A_meets_B.

(** The merge decision for A, taken by the dispatcher. *)
Definition demo_A_decided : demo_state :=
  exec (dispatch_merge demo_isDep demo_currentIndexKey 1) demo_keys_A_meets_B.



(** The root pipe of the build of A (pipe 0) has completed with value
    [v] and error [x], and its waiter has been woken. *)
Definition demo_result : CachedResult := mkCachedResult 5 [23].
Definition demo_completed (v : any) (x : option error) : demo_state :=
  exec (fire (Some cb_build_wait) 0)
    (upd_pipe 0 (set_SenderStatus (λ _, mkStatus StCompleted x v))
       demo_running).

(** The loop has taken A off the queue and dispatched it. *)
Definition demo_after_turn : demo_state :=
  exec (loop_iter demo_unpark demo_isDep demo_currentIndexKey demo_markFailed)
    demo_running.

(** C has answered the request of A (pipe 2): the sender side of the
    pipe is completed, the receiver has not looked yet. *)
Definition demo_C_answered : demo_state :=
  upd_pipe 2 (set_SenderStatus (λ _, mkStatus StCompleted None any_nil))
    demo_running.

(** The loop has run for two turns: A and B are dispatched. *)
Definition demo_after_two_turns : demo_state :=
  exec (loop_for demo_unpark demo_isDep demo_currentIndexKey demo_markFailed 2)
    demo_running.

(** A build of C has made its request while A and B wait. *)
Definition demo_build_C : demo_state :=
  exec (build_enter EdgeC) (signal 2 (signal 1 demo_init)).

End demo.

(* ===================================================================== *)
(** * Properties of exec.go                                               *)
(* ===================================================================== *)

Section ErrdefsFacts.
Import errdefs.

(** One loop of [EachRef] with the closure of [Release]: the handles it
    releases are the new ones, each once, and no error comes back. *)
Lemma EachRef_range_release (l : list (option nat)) (m : gset nat)
    (err : option error) (log : list nat) :
  ∃ rs m',
    EachRef_range release_ref l m err log = (m', err, log ++ rs) ∧
    NoDup rs ∧
    (∀ r, r ∈ rs ↔ Some r ∈ l ∧ r ∉ m) ∧
    (∀ r, r ∈ m' ↔ r ∈ m ∨ Some r ∈ l).
Proof.
  revert m err log. induction l as [|[res|] l IH]; intros m err log; simpl.
  - exists [], m. rewrite app_nil_r. split_and!; [done|constructor|..].
    + intros r. rewrite elem_of_nil. set_solver.
    + intros r. set_solver.
  - destruct (decide (res ∈ m)) as [Hin|Hnin].
    + destruct (IH m err log) as (rs & m' & -> & Hnd & Hrs & Hm').
      exists rs, m'. split_and!; [done|done|..].
      * intros r. rewrite Hrs, elem_of_cons. split; [naive_solver|].
        intros [[[= ->]|?] ?]; done.
      * intros r. rewrite Hm', elem_of_cons. split; [naive_solver|].
        intros [?|[[= ->]|?]]; eauto.
    + destruct (IH ({[res]} ∪ m) err (log ++ [res]))
        as (rs & m' & Heq & Hnd & Hrs & Hm').
      exists (res :: rs), m'. split_and!.
      * replace (match err with Some _ | _ => err end) with err
          by (by destruct err).
        rewrite Heq. by rewrite <- app_assoc.
      * constructor; [|done]. rewrite Hrs. set_solver.
      * intros r. rewrite !elem_of_cons, Hrs.
        split.
        -- intros [->|[? ?]]; [eauto|]. split; [eauto|set_solver].
        -- intros [[[= ->]|?] ?]; [eauto|].
           destruct (decide (r = res)) as [->|]; [eauto|].
           right. split; [done|set_solver].
      * intros r. rewrite Hm', elem_of_cons. set_solver.
  - destruct (IH m err log) as (rs & m' & -> & Hnd & Hrs & Hm').
    exists rs, m'. split_and!; [done|done|..].
    + intros r. rewrite Hrs, elem_of_cons. naive_solver.
    + intros r. rewrite Hm', elem_of_cons. naive_solver.
Qed.

(** [Release] on an object whose handles are not released yet. *)
Lemma Release_first (e : ExecError) (log : list nat) :
  OwnerBorrowed e = false →
  ∃ rs,
    Release e log =
      (None, mkExecError (error_ e) (Inputs e) (Mounts e) true, log ++ rs) ∧
    NoDup rs ∧
    (∀ r, r ∈ rs ↔ Some r ∈ Inputs e ++ Mounts e).
Proof.
  intros Hob. unfold Release, EachRef. rewrite Hob.
  destruct (EachRef_range_release (Inputs e) ∅ None log)
    as (rs1 & m1 & -> & Hnd1 & Hrs1 & Hm1).
  destruct (EachRef_range_release (Mounts e) m1 None (log ++ rs1))
    as (rs2 & m2 & -> & Hnd2 & Hrs2 & Hm2).
  exists (rs1 ++ rs2). split_and!.
  - by rewrite <- app_assoc.
  - apply NoDup_app. split_and!; [done| |done].
    intros r Hr1 Hr2. apply Hrs2 in Hr2 as [_ Hr2]. apply Hr2, Hm1.
    right. by apply Hrs1 in Hr1 as [? _].
  - intros r. rewrite !elem_of_app, Hrs1, Hrs2, Hm1. split.
    + naive_solver.
    + intros [?|?]; [left; set_solver|].
      destruct (decide (Some r ∈ Inputs e)); [left; set_solver|].
      right. split; [done|set_solver].
Qed.

(** [Release] on an object that is marked does nothing. *)
Lemma Release_borrowed (e : ExecError) (log : list nat) :
  OwnerBorrowed e = true → Release e log = (None, e, log).
Proof. intros Hob. unfold Release. by rewrite Hob. Qed.

Lemma Release_times_borrowed (n : nat) (e : ExecError) (log : list nat) :
  OwnerBorrowed e = true → Release_times n e log = (e, log).
Proof.
  intros Hob. induction n as [|n IH]; [done|].
  simpl. by rewrite Release_borrowed.
Qed.

(** C9. A call of [Release] on an [ExecError] that is not yet marked
    releases every non-nil handle of [Inputs] and [Mounts] once, however
    often it is listed, marks the object and returns nil; each later call
    returns nil and releases nothing, so that over any number of calls no
    handle is released twice. *)
Theorem Release_releases_once (e : ExecError) (log : list nat) :
  OwnerBorrowed e = false →
  ∃ rs e',
    Release e log = (None, e', log ++ rs) ∧
    NoDup rs ∧
    (∀ r, r ∈ rs ↔ Some r ∈ Inputs e ++ Mounts e) ∧
    (∀ r, Some r ∈ Inputs e ++ Mounts e → count_occ Nat.eq_dec rs r = 1) ∧
    OwnerBorrowed e' = true ∧
    (∀ log', Release e' log' = (None, e', log')) ∧
    (∀ n, Release_times (S n) e log = (e', log ++ rs)).
Proof.
  intros Hob. destruct (Release_first e log Hob) as (rs & Heq & Hnd & Hrs).
  eexists rs, _. split_and!; [exact Heq|done|done|..|done| |].
  - intros r Hr. apply Hrs, list_elem_of_In in Hr.
    apply NoDup_ListNoDup in Hnd.
    apply (NoDup_count_occ' Nat.eq_dec); done.
  - intros log'. by apply Release_borrowed.
  - intros n. simpl. rewrite Heq. by apply Release_times_borrowed.
Qed.

Lemma Release_releases_once_witness :
  ∃ rs e',
    Release (mkExecError (errors_New "exit code 1")
               [Some 7; None; Some 7; Some 3] [Some 3; Some 9] false) [] =
      (None, e', [] ++ rs) ∧
    NoDup rs ∧
    (∀ r, r ∈ rs ↔
       Some r ∈ [Some 7; None; Some 7; Some 3] ++ [Some 3; Some 9]) ∧
    (∀ r, Some r ∈ [Some 7; None; Some 7; Some 3] ++ [Some 3; Some 9] →
       count_occ Nat.eq_dec rs r = 1) ∧
    OwnerBorrowed e' = true ∧
    (∀ log', Release e' log' = (None, e', log')) ∧
    (∀ n, Release_times (S n)
            (mkExecError (errors_New "exit code 1")
               [Some 7; None; Some 7; Some 3] [Some 3; Some 9] false) [] =
          (e', [] ++ rs)).
Proof.
  apply (Release_releases_once
           (mkExecError (errors_New "exit code 1")
              [Some 7; None; Some 7; Some 3] [Some 3; Some 9] false) []).
  reflexivity.
Defined.

(** The order of the releases on that error: first mention first. *)
Example Release_example :
  Release (mkExecError (errors_New "exit code 1")
             [Some 7; None; Some 7; Some 3] [Some 3; Some 9] false) [] =
  (None,
   mkExecError (errors_New "exit code 1")
     [Some 7; None; Some 7; Some 3] [Some 3; Some 9] true,
   [7; 3; 9]).
Proof. vm_compute. reflexivity. Qed.

(** C10. With a nil error, [WithExecError] and
    [WithExecErrorWithContext] return nil whatever the inputs and mounts
    are: no [ExecError] holds the handles. *)
Theorem WithExecError_nil (ctx : Context)
    (inputs mounts : list (option nat)) :
  WithExecError None inputs mounts = None ∧
  WithExecErrorWithContext ctx None inputs mounts = None.
Proof. split; reflexivity. Qed.

(** With an error, the handles are taken as given and not yet marked. *)
Lemma WithExecError_some (err : error) (inputs mounts : list (option nat)) :
  WithExecError (Some err) inputs mounts =
  Some (mkExecError err inputs mounts false).
Proof. reflexivity. Qed.

End ErrdefsFacts.
(* ===================================================================== *)
(** * Properties of the wake-up queue                                     *)
(* ===================================================================== *)

Section QueueFacts.
Import solver.
Context {EF IDX : Type} `{!edgeFactory EF} `{!edgeIndex IDX}.
Implicit Types (s : @state EF IDX) (h : nat → dispatcher) (l : list nat).

(** An edge that waits is not queued again. *)
Lemma signal_pending e s : e ∈ waitq s → signal e s = s.
Proof. intros Hin. unfold signal. by rewrite decide_True. Qed.

Lemma signal_waitq e s : e ∈ waitq (signal e s).
Proof.
  unfold signal. destruct (decide (e ∈ waitq s)) as [Hin|Hnin]; [done|].
  destruct (last _); simpl; set_solver.
Qed.

Lemma signal_waitq_mono e e' s : e' ∈ waitq s → e' ∈ waitq (signal e s).
Proof.
  intros Hin. unfold signal. destruct (decide (e ∈ waitq s)); [done|].
  destruct (last _); simpl; set_solver.
Qed.

Lemma signal_twice e s : signal e (signal e s) = signal e s.
Proof. apply signal_pending, signal_waitq. Qed.

Lemma signal_iter e s n : Nat.iter (S n) (signal e) s = signal e s.
Proof.
  induction n as [|n IH]; [done|].
  change (signal e (Nat.iter (S n) (signal e) s) = signal e s).
  rewrite IH. apply signal_twice.
Qed.

(** The list of a linked queue ends in [last]. *)
Lemma linked_last h nxt z l : linked h nxt (Some z) l → z ∈ l.
Proof.
  intros Hl. remember (Some z) as lst eqn:Hz.
  induction Hl as [|a Ha|a b lst l Hab Hl IH]; simplify_eq.
  - set_solver.
  - specialize (IH eq_refl). set_solver.
Qed.

Lemma linked_last_None h nxt l : linked h nxt None l → nxt = None ∧ l = [].
Proof.
  intros Hl. remember None as lst eqn:Hz.
  induction Hl as [|a Ha|a b lst l Hab Hl IH]; simplify_eq; [done|].
  by destruct (IH eq_refl).
Qed.

(** Only the nodes of the list matter. *)
Lemma linked_ext h h' nxt lst l :
  linked h nxt lst l → (∀ a, a ∈ l → h' a = h a) → linked h' nxt lst l.
Proof.
  induction 1 as [|a Ha|a b lst l Hab Hl IH]; intros Hext.
  - constructor.
  - constructor. rewrite Hext; [done|set_solver].
  - constructor.
    + rewrite Hext; [done|set_solver].
    + apply IH. intros c Hc. apply Hext. set_solver.
Qed.

(** Linking a new node behind the last one. *)
Lemma linked_snoc h nxt z l d e :
  linked h nxt (Some z) l → NoDup l → d ∉ l →
  linked (alter (λ n, mkDispatcher (Some d) (d_e n)) z
            (<[d := mkDispatcher None e]> h))
    nxt (Some d) (l ++ [d]).
Proof.
  intros Hl. remember (Some z) as lst eqn:Hz. revert Hz.
  induction Hl as [|a Ha|a b lst l Hab Hl IH]; intros Hz Hnd Hd; simplify_eq.
  - assert (z ≠ d) by set_solver.
    simpl. apply linked_more.
    + by rewrite fn_lookup_alter.
    + apply linked_one.
      rewrite fn_lookup_alter_ne, fn_lookup_insert by done. done.
  - apply NoDup_cons in Hnd as [Ha Hnd].
    assert (z ∈ b :: l) by (by eapply linked_last).
    assert (z ≠ a) by (intros ->; done).
    assert (a ≠ d) by set_solver.
    change ((a :: b :: l) ++ [d]) with (a :: b :: (l ++ [d])).
    apply linked_more.
    + rewrite fn_lookup_alter_ne, fn_lookup_insert_ne by done. done.
    + apply (IH eq_refl Hnd). set_solver.
Qed.

(** With fuel for every node, [fifo_nodes] walks the linked list. *)
Lemma fifo_nodes_linked h nxt lst l fuel :
  linked h nxt lst l → length l ≤ fuel → fifo_nodes fuel h nxt = l.
Proof.
  intros Hl. revert fuel.
  induction Hl as [|a Ha|a b lst l Hab Hl IH]; intros fuel Hf.
  - by destruct fuel.
  - destruct fuel as [|fuel]; simpl in *; [lia|]. rewrite Ha.
    by destruct fuel.
  - destruct fuel as [|fuel]; simpl in *; [lia|]. rewrite Hab.
    f_equal. apply IH. simpl. lia.
Qed.

(** Distinct addresses below [n] are at most [n]. *)
Lemma NoDup_below_length l n :
  NoDup l → Forall (λ a, a < n) l → length l ≤ n.
Proof.
  intros Hnd Hall.
  assert (length (seq 0 n) = n) as <- by apply List.length_seq.
  apply submseteq_length.
  apply NoDup_submseteq; [done|].
  intros a Ha. apply elem_of_seq.
  rewrite Forall_forall in Hall. specialize (Hall a Ha). lia.
Qed.

Lemma queue_inv_nodes_nodup s l : queue_inv s l → NoDup l.
Proof. intros [_ _ Hnd _]. by apply NoDup_fmap_1 in Hnd. Qed.

(** Under the invariant, the queue read off the state is the list. *)
Lemma queue_inv_fifo s l :
  queue_inv s l → fifo s = (λ a, d_e (dispatchers s a)) <$> l.
Proof.
  intros Hinv. unfold fifo. f_equal.
  eapply fifo_nodes_linked; [apply Hinv|].
  apply NoDup_below_length; [by eapply queue_inv_nodes_nodup|apply Hinv].
Qed.

(** [signal] keeps the invariant: a new edge goes to the end. *)
Lemma signal_queue_inv e s l :
  queue_inv s l →
  queue_inv (signal e s)
    (if decide (e ∈ waitq s) then l else l ++ [dispatcher_alloc s]) ∧
  (λ a, d_e (dispatchers (signal e s) a))
    <$> (if decide (e ∈ waitq s) then l else l ++ [dispatcher_alloc s])
  = ((λ a, d_e (dispatchers s a)) <$> l)
    ++ (if decide (e ∈ waitq s) then [] else [e]).
Proof.
  intros Hinv. unfold signal.
  destruct (decide (e ∈ waitq s)) as [Hin|Hnin];
    [by rewrite app_nil_r|].
  pose proof (queue_inv_nodes_nodup _ _ Hinv) as Hnd.
  destruct Hinv as [Hl Hall Hnde Hw].
  set (d := dispatcher_alloc s).
  assert (Hd : d ∉ l).
  { intros Hd. rewrite Forall_forall in Hall. specialize (Hall d Hd).
    unfold d in Hall. lia. }
  assert (He : e ∉ (λ a, d_e (dispatchers s a)) <$> l) by (by rewrite <- Hw).
  simpl. destruct (last s) as [z|] eqn:Hlast; simpl.
  - assert (Hold : ∀ a, a ∈ l →
      d_e (alter (λ n, mkDispatcher (Some d) (d_e n)) z
             (<[d := mkDispatcher None e]> (dispatchers s)) a)
      = d_e (dispatchers s a)).
    { intros a Ha. assert (a ≠ d) by (intros ->; done).
      destruct (decide (z = a)) as [->|].
      - rewrite fn_lookup_alter. simpl. by rewrite fn_lookup_insert_ne.
      - rewrite fn_lookup_alter_ne, fn_lookup_insert_ne by done. done. }
    assert (Hnew :
      d_e (alter (λ n, mkDispatcher (Some d) (d_e n)) z
             (<[d := mkDispatcher None e]> (dispatchers s)) d) = e).
    { assert (z ∈ l) by (by eapply linked_last).
      assert (z ≠ d) by (intros ->; done).
      rewrite fn_lookup_alter_ne, fn_lookup_insert by done. done. }
    assert (Hmap :
      (λ a, d_e (alter (λ n, mkDispatcher (Some d) (d_e n)) z
                   (<[d := mkDispatcher None e]> (dispatchers s)) a)) <$> l
      = (λ a, d_e (dispatchers s a)) <$> l).
    { apply Forall_fmap_ext_1, Forall_forall. exact Hold. }
    split; [|simpl; by rewrite fmap_app, Hmap; simpl; rewrite Hnew].
    split; simpl.
    + by apply linked_snoc.
    + apply Forall_app. split.
      * eapply Forall_impl; [exact Hall|]. simpl. intros. unfold d. lia.
      * apply Forall_singleton. unfold d. lia.
    + rewrite fmap_app. simpl. rewrite Hnew.
      rewrite Hmap.
      apply NoDup_app. split_and!; [done| |apply NoDup_singleton].
      intros x Hx. set_solver.
    + intros e'. rewrite fmap_app. simpl. rewrite Hnew.
      rewrite Hmap.
      rewrite elem_of_union, elem_of_app, Hw. set_solver.
  - apply linked_last_None in Hl as [Hnext ->].
    split; [|simpl; by rewrite fn_lookup_insert].
    split; simpl.
    + apply linked_one. by rewrite fn_lookup_insert.
    + apply Forall_singleton. unfold d. lia.
    + rewrite fn_lookup_insert. simpl. apply NoDup_singleton.
    + intros e'. rewrite fn_lookup_insert. simpl.
      rewrite elem_of_union, Hw. set_solver.
Qed.

(** [dequeue] keeps the invariant and returns the head node. *)
Lemma dequeue_queue_inv s l :
  queue_inv s l →
  (dequeue s).1 = head l ∧ queue_inv (dequeue s).2 (tail l) ∧
  dispatchers (dequeue s).2 = dispatchers s ∧
  dispatcher_alloc (dequeue s).2 = dispatcher_alloc s.
Proof.
  intros Hinv.
  pose proof (queue_inv_nodes_nodup _ _ Hinv) as Hnd.
  destruct Hinv as [Hl Hall Hnde Hw].
  unfold dequeue. inversion Hl as [Hn Hz Hnil|a Ha Hn Hz Hone|a b lst l' Hab Hl' Hn Hz Hmore].
  - split_and!; [done| |done|done]. subst l. simpl. split; simpl.
    + rewrite <- Hn, <- Hz. constructor.
    + done.
    + constructor.
    + done.
  - simpl. rewrite decide_True by done. simpl. rewrite Ha.
    split_and!; [done| |done|done]. split; simpl.
    + constructor.
    + constructor.
    + constructor.
    + intros e. rewrite elem_of_difference, Hw. subst l. simpl. set_solver.
  - subst l. simpl in *.
    assert (Hne : Some a ≠ last s).
    { intros Heq. rewrite <- Heq in Hl'.
      apply NoDup_cons in Hnd as [Hnd _]. apply Hnd. by eapply linked_last. }
    rewrite decide_False by done. simpl. rewrite Hab.
    split_and!; [done| |done|done]. split; simpl.
    + done.
    + by inversion Hall.
    + by inversion Hnde.
    + intros e. rewrite elem_of_difference, Hw.
      apply NoDup_cons in Hnde as [Hhd _]. set_solver.
Qed.

(** Under the invariant the loop takes the queued edges in order. *)
Lemma drain_fifo s l fuel :
  queue_inv s l → length l ≤ fuel →
  drain fuel s = (λ a, d_e (dispatchers s a)) <$> l.
Proof.
  revert s l. induction fuel as [|fuel IH]; intros s l Hinv Hlen.
  - destruct l; simpl in *; [done|lia].
  - simpl. destruct (dequeue_queue_inv s l Hinv) as (Hhd & Hinv' & Hh & _).
    destruct (dequeue s) as [o s'] eqn:Hdq. simpl in *. subst o.
    destruct l as [|a l]; simpl; [done|].
    rewrite Hh. f_equal.
    rewrite (IH s' l Hinv') by (simpl in Hlen; lia).
    by rewrite Hh.
Qed.

Lemma queue_inv_length s l : queue_inv s l → length l ≤ dispatcher_alloc s.
Proof.
  intros Hinv.
  apply NoDup_below_length; [by eapply queue_inv_nodes_nodup|apply Hinv].
Qed.

Lemma queue_inv_newScheduler (ef0 : EF) (idx : IDX) es d0 p0 :
  queue_inv (newScheduler ef0 idx es d0 p0) [].
Proof. split; simpl; [constructor|constructor|constructor|set_solver]. Qed.

Lemma queue_inv_same_queue s s' l :
  same_queue s s' → queue_inv s l → queue_inv s' l.
Proof.
  intros (Hw & Hn & Hl & Hd & Ha) [H1 H2 H3 H4].
  split; rewrite ?Hw, ?Hn, ?Hl, ?Hd, ?Ha; done.
Qed.

(** Every state of the scheduler has the queue invariant. *)
Lemma queue_reachable_inv s : queue_reachable s → ∃ l, queue_inv s l.
Proof.
  induction 1 as [ef0 idx es d0 p0|e s _ [l IH]|s _ [l IH]|s s' _ [l IH] Hsame].
  - exists []. apply queue_inv_newScheduler.
  - eexists. by apply signal_queue_inv.
  - eexists. by apply dequeue_queue_inv.
  - exists l. by eapply queue_inv_same_queue.
Qed.

(** The queue is first in, first out. *)
Lemma fifo_signal e s :
  queue_reachable s →
  fifo (signal e s) = fifo s ++ (if decide (e ∈ waitq s) then [] else [e]).
Proof.
  intros [l Hinv]%queue_reachable_inv.
  destruct (signal_queue_inv e s l Hinv) as [Hinv' Hmap].
  by rewrite (queue_inv_fifo _ _ Hinv'), (queue_inv_fifo _ _ Hinv), Hmap.
Qed.

Lemma fifo_dequeue s :
  queue_reachable s →
  fifo (dequeue s).2 = tail (fifo s) ∧
  (λ a, d_e (dispatchers s a)) <$> (dequeue s).1 = head (fifo s).
Proof.
  intros [l Hinv]%queue_reachable_inv.
  destruct (dequeue_queue_inv s l Hinv) as (Hhd & Hinv' & Hh & _).
  rewrite (queue_inv_fifo _ _ Hinv'), (queue_inv_fifo _ _ Hinv), Hh, Hhd.
  by destruct l.
Qed.

(** C8. In every state of the scheduler, reached from [newScheduler] by
    [signal], by the dequeue step of the loop and by steps that leave the
    queue alone, [waitq] holds exactly the edges linked from [next] to
    [last]: membership in [waitq] is membership in the queue, and each
    waiting edge is in the queue once. [signal] and the dequeue step keep
    the invariant behind this. *)
Theorem waitq_is_the_queue s e :
  queue_reachable s →
  (∀ e', e' ∈ waitq s ↔ e' ∈ fifo s) ∧
  NoDup (fifo s) ∧
  (∀ e', e' ∈ waitq s → count_occ Nat.eq_dec (fifo s) e' = 1) ∧
  ∃ l,
    queue_inv s l ∧
    (∃ l', queue_inv (signal e s) l') ∧
    (∃ l', queue_inv (dequeue s).2 l').
Proof.
  intros [l Hinv]%queue_reachable_inv.
  rewrite (queue_inv_fifo s l Hinv). split_and!.
  - apply Hinv.
  - apply Hinv.
  - intros e' He'. apply (NoDup_count_occ' Nat.eq_dec).
    + apply NoDup_ListNoDup, Hinv.
    + apply list_elem_of_In. by apply Hinv.
  - exists l. split_and!; [done| |].
    + eexists. by apply signal_queue_inv.
    + eexists. by apply dequeue_queue_inv.
Qed.

Lemma signal_others_keep_waiting e es s :
  e ∈ waitq s → e ∈ waitq (foldl (λ s x, signal x s) s es).
Proof.
  revert s. induction es as [|x es IH]; intros s Hin; simpl; [done|].
  by apply IH, signal_waitq_mono.
Qed.

(** C6. Signalling an edge again before it is taken off the queue
    changes nothing: any number of signals leaves the state of one
    signal, also when other edges are signalled in between, with the edge
    once in the queue, so that the loop takes it off, and unparks it,
    once. *)
Theorem signal_idempotent s e n :
  queue_reachable s →
  let s' := Nat.iter (S n) (signal e) s in
  s' = signal e s ∧
  signal e s' = s' ∧
  (∀ es, let s'' := foldl (λ s x, signal x s) s' es in signal e s'' = s'') ∧
  count_occ Nat.eq_dec (fifo s') e = 1 ∧
  count_occ Nat.eq_dec (drain (dispatcher_alloc s') s') e = 1.
Proof.
  intros [l Hinv]%queue_reachable_inv s'. unfold s'. rewrite signal_iter.
  destruct (signal_queue_inv e s l Hinv) as [Hinv' _].
  set (l' := if decide (e ∈ waitq s) then l else l ++ [dispatcher_alloc s])
    in Hinv'.
  assert (Hcount : count_occ Nat.eq_dec
            ((λ a, d_e (dispatchers (signal e s) a)) <$> l') e = 1).
  { apply (NoDup_count_occ' Nat.eq_dec).
    - apply NoDup_ListNoDup, Hinv'.
    - apply list_elem_of_In, Hinv', signal_waitq. }
  split_and!.
  - done.
  - apply signal_twice.
  - intros es. cbv zeta.
    apply signal_pending, signal_others_keep_waiting, signal_waitq.
  - by rewrite (queue_inv_fifo _ _ Hinv').
  - rewrite (drain_fifo _ l' _ Hinv'); [done|].
    by eapply queue_inv_length.
Qed.

End QueueFacts.

Section QueueDemo.
Import solver demo.

(** Two edges are signalled on a new scheduler. *)
Lemma demo_signalled_reachable : queue_reachable (signal 2 (signal 1 demo_init)).
Proof. apply qr_signal, qr_signal, qr_new. Qed.

Example demo_signalled_fifo :
  fifo (signal 1 (signal 2 (signal 1 demo_init))) = [1; 2] ∧
  drain 2 (signal 1 (signal 2 (signal 1 demo_init))) = [1; 2] ∧
  fifo (dequeue (signal 2 (signal 1 demo_init))).2 = [2].
Proof. vm_compute. done. Qed.

(** The queue of the demo: A, B and C wait, in this order. *)
Example demo_running_fifo : fifo demo_running = [1; 2; 3].
Proof. vm_compute. reflexivity. Qed.

Lemma waitq_is_the_queue_witness :
  (∀ e', e' ∈ waitq (signal 2 (signal 1 demo_init))
         ↔ e' ∈ fifo (signal 2 (signal 1 demo_init))) ∧
  NoDup (fifo (signal 2 (signal 1 demo_init))) ∧
  (∀ e', e' ∈ waitq (signal 2 (signal 1 demo_init)) →
     count_occ Nat.eq_dec (fifo (signal 2 (signal 1 demo_init))) e' = 1) ∧
  ∃ l,
    queue_inv (signal 2 (signal 1 demo_init)) l ∧
    (∃ l', queue_inv (signal 3 (signal 2 (signal 1 demo_init))) l') ∧
    (∃ l', queue_inv (dequeue (signal 2 (signal 1 demo_init))).2 l').
Proof.
  exact (waitq_is_the_queue (signal 2 (signal 1 demo_init)) 3
           demo_signalled_reachable).
Defined.

Lemma signal_idempotent_witness :
  let s' := Nat.iter 3 (signal 4) (signal 2 (signal 1 demo_init)) in
  s' = signal 4 (signal 2 (signal 1 demo_init)) ∧
  signal 4 s' = s' ∧
  (∀ es, let s'' := foldl (λ s x, signal x s) s' es in signal 4 s'' = s'') ∧
  count_occ Nat.eq_dec (fifo s') 4 = 1 ∧
  count_occ Nat.eq_dec (drain (dispatcher_alloc s') s') 4 = 1.
Proof.
  exact (signal_idempotent (signal 2 (signal 1 demo_init)) 4 2
           demo_signalled_reachable).
Defined.

End QueueDemo.

(* ===================================================================== *)
(** * Properties of mergeTo                                               *)
(* ===================================================================== *)

Section MergeFacts.
Import solver.
Context {EF IDX : Type} `{!edgeFactory EF} `{!edgeIndex IDX}.
Implicit Types (s : @state EF IDX) (l : list nat).

Local Notation M := (@M EF IDX).
Local Notation "x <- c1 ;; c2" := (bind c1 (λ x, c2))
  (at level 100, c1 at next level, right associativity).
Local Notation "c1 ;;; c2" := (bind c1 (λ _, c2))
  (at level 100, right associativity).

(** *** Running computations *)

Lemma bind_Some {A B} (c : M A) (k : A → M B) s b s' :
  bind c k s = Some (b, s') ↔
  ∃ a s1, c s = Some (a, s1) ∧ k a s1 = Some (b, s').
Proof.
  unfold bind. destruct (c s) as [[a s1]|]; [|naive_solver].
  split; [eauto|]. by intros (? & ? & [= <- <-] & ?).
Qed.

(** A loop that keeps an invariant, if it comes to its end. [done] is the
    part of the slice already visited. *)
Lemma forM_inv {A} (I : list A → @state EF IDX → Prop) (l : list A)
    (f : A → M unit) s s' :
  (∀ done a s1 s2, I done s1 → f a s1 = Some (tt, s2) → I (done ++ [a]) s2) →
  I [] s → forM_ l f s = Some (tt, s') → I l s'.
Proof.
  intros Hstep. change l with ([] ++ l) at 2. generalize (@nil A) as done.
  revert s. induction l as [|a l IH]; intros s done Hinit Hrun; simpl in *.
  - injection Hrun as <-. by rewrite app_nil_r.
  - apply bind_Some in Hrun as ([] & s1 & Ha & Hrun).
    replace (done ++ a :: l) with ((done ++ [a]) ++ l)
      by (by rewrite <- app_assoc).
    eapply IH; [|exact Hrun]. eauto.
Qed.

(** A loop whose body runs through under the invariant runs through. *)
Lemma forM_total_from {A} (I : list A → @state EF IDX → Prop) (l : list A)
    (f : A → M unit) done s :
  (∀ done a s1, I done s1 → a ∈ l →
     ∃ s2, f a s1 = Some (tt, s2) ∧ I (done ++ [a]) s2) →
  I done s → ∃ s', forM_ l f s = Some (tt, s') ∧ I (done ++ l) s'.
Proof.
  revert done s. induction l as [|a l IH]; intros done s Hstep Hinit; simpl.
  - exists s. by rewrite app_nil_r.
  - destruct (Hstep done a s Hinit) as (s2 & Ha & Hinv); [set_solver|].
    unfold bind at 1. rewrite Ha.
    replace (done ++ a :: l) with ((done ++ [a]) ++ l)
      by (by rewrite <- app_assoc).
    apply IH; [|done]. intros ? ? ? ? ?. apply Hstep; [done|set_solver].
Qed.

Lemma forM_total {A} (I : list A → @state EF IDX → Prop) (l : list A)
    (f : A → M unit) s :
  (∀ done a s1, I done s1 → a ∈ l →
     ∃ s2, f a s1 = Some (tt, s2) ∧ I (done ++ [a]) s2) →
  I [] s → ∃ s', forM_ l f s = Some (tt, s') ∧ I l s'.
Proof. intros Hstep Hinit. by apply (forM_total_from I l f [] s). Qed.

(** *** The frame of signal, Receive, callbacks and Cancel *)

Lemma callback_frame_refl s : callback_frame s s.
Proof. by split. Qed.

Lemma callback_frame_trans s1 s2 s3 :
  callback_frame s1 s2 → callback_frame s2 s3 → callback_frame s1 s3.
Proof.
  intros [a1 a2 a3 a4 a5 a6 a7 a8 a9 a10 a11].
  intros [b1 b2 b3 b4 b5 b6 b7 b8 b9 b10 b11].
  split; [congruence..| | | | | |].
  - intros q. by rewrite b6.
  - intros q. by rewrite b7.
  - intros q. by rewrite b8.
  - intros q. by rewrite b9.
  - intros q Hq. by apply b10, a10.
  - by etrans.
Qed.

Lemma signal_frame e s : callback_frame s (signal e s).
Proof.
  unfold signal. destruct (decide (e ∈ waitq s)); [apply callback_frame_refl|].
  simpl. destruct (last s); split; simpl; try done; set_solver.
Qed.

Lemma signal_heap e s :
  pipes (signal e s) = pipes s ∧ waits (signal e s) = waits s ∧
  pipe_alloc (signal e s) = pipe_alloc s.
Proof.
  unfold signal. destruct (decide (e ∈ waitq s)); [done|].
  simpl. by destruct (last s).
Qed.

Lemma Receive_frame p s b s' :
  Receive p s = Some (b, s') → callback_frame s s'.
Proof.
  unfold Receive, bind, get, modify, ret.
  destruct (decide _); intros [= <- <-]; [apply callback_frame_refl|].
  split; simpl; try done; intros q;
    (destruct (decide (p = q)) as [->|];
     [rewrite fn_lookup_alter|rewrite fn_lookup_alter_ne by done]; done).
Qed.

Lemma fire_frame cb p s s' :
  fire cb p s = Some (tt, s') → callback_frame s s'.
Proof.
  destruct cb as [[]|]; simpl.
  - unfold bind, get, modify. destruct (From _); [|done].
    intros [= <-]. apply signal_frame.
  - unfold bind, get, modify. destruct (Target _); [|done].
    intros [= <-]. apply signal_frame.
  - intros Hrun. apply bind_Some in Hrun as (b & s1 & Hrecv & Hrun).
    apply Receive_frame in Hrecv. eapply callback_frame_trans; [exact Hrecv|].
    unfold bind, get, modify, ret, panic in Hrun.
    destruct (Completed _); [|injection Hrun as <-; apply callback_frame_refl].
    destruct (decide _); [done|]. injection Hrun as <-. by split.
  - intros [= <-]. apply callback_frame_refl.
Qed.

(** [Cancel] keeps the frame and leaves the pipe cancelled. *)
Lemma Cancel_frame p s s' :
  Cancel p s = Some (tt, s') →
  callback_frame s s' ∧ Canceled (Request (pipes s' p)) = true.
Proof.
  unfold Cancel. intros Hrun. apply bind_Some in Hrun as (s0 & ? & [= <- <-] & Hrun).
  destruct (Canceled (Request (pipes s p))) eqn:Hc.
  { injection Hrun as <-. split; [apply callback_frame_refl|done]. }
  apply bind_Some in Hrun as ([] & s1 & [= <-] & Hrun).
  apply bind_Some in Hrun as (? & ? & [= <- <-] & Hrun).
  apply bind_Some in Hrun as ([] & s2 & Hf1 & Hrun).
  apply bind_Some in Hrun as (? & ? & [= <- <-] & Hf2).
  apply fire_frame in Hf1, Hf2.
  match type of Hf1 with callback_frame ?x _ => set (s1 := x) in * end.
  assert (H1 : callback_frame s s1).
  { split; simpl; try done; intros q;
      (destruct (decide (p = q)) as [->|];
       [rewrite fn_lookup_alter|rewrite fn_lookup_alter_ne by done]; done). }
  split.
  - eauto using callback_frame_trans.
  - apply Hf2, Hf1. unfold s1. simpl. by rewrite fn_lookup_alter.
Qed.

(** *** The three loops of mergeTo *)

(** The first loop: the incoming pipes of [src] move to [target]. *)
Lemma mergeTo_incoming target l s :
  ∃ s',
    forM_ l (λ inc,
      modify (upd_pipe inc (set_Target (Some target))) ;;;
      modify (set_incoming (append_at target inc))) s = Some (tt, s') ∧
    slice_at (incoming s') target = slice_at (incoming s) target ++ l ∧
    (∀ k, k ≠ target → incoming s' !! k = incoming s !! k) ∧
    (∀ q, q ∈ l → Target (pipes s' q) = Some target) ∧
    (∀ q, is_Some (Target (pipes s q)) → is_Some (Target (pipes s' q))) ∧
    (∀ q, From (pipes s' q) = From (pipes s q) ∧
          Request (pipes s' q) = Request (pipes s q) ∧
          OnReceiveCompletion (pipes s' q) = OnReceiveCompletion (pipes s q) ∧
          OnSendCompletion (pipes s' q) = OnSendCompletion (pipes s q)) ∧
    outgoing s' = outgoing s ∧ edges s' = edges s ∧ ef s' = ef s ∧
    index s' = index s.
Proof.
  apply (forM_total (λ done s',
    slice_at (incoming s') target = slice_at (incoming s) target ++ done ∧
    (∀ k, k ≠ target → incoming s' !! k = incoming s !! k) ∧
    (∀ q, q ∈ done → Target (pipes s' q) = Some target) ∧
    (∀ q, is_Some (Target (pipes s q)) → is_Some (Target (pipes s' q))) ∧
    (∀ q, From (pipes s' q) = From (pipes s q) ∧
          Request (pipes s' q) = Request (pipes s q) ∧
          OnReceiveCompletion (pipes s' q) = OnReceiveCompletion (pipes s q) ∧
          OnSendCompletion (pipes s' q) = OnSendCompletion (pipes s q)) ∧
    outgoing s' = outgoing s ∧ edges s' = edges s ∧ ef s' = ef s ∧
    index s' = index s)).
  - intros done inc s1 (Hin & Hother & Htgt & Hsome & Hrest & Hout & He & Hef & Hidx) _.
    eexists. split; [reflexivity|]. simpl. split_and!; try done.
    + unfold append_at, slice_at. rewrite lookup_insert_eq. simpl.
      unfold slice_at in Hin. by rewrite Hin, <- app_assoc.
    + intros k Hk. unfold append_at. rewrite lookup_insert_ne by done. eauto.
    + intros q Hq. destruct (decide (inc = q)) as [->|Hne].
      * by rewrite fn_lookup_alter.
      * rewrite fn_lookup_alter_ne by done. apply Htgt. set_solver.
    + intros q Hq. destruct (decide (inc = q)) as [->|Hne].
      * rewrite fn_lookup_alter. by eexists.
      * rewrite fn_lookup_alter_ne by done. eauto.
    + intros q. destruct (decide (inc = q)) as [->|Hne].
      * rewrite fn_lookup_alter. apply Hrest.
      * rewrite fn_lookup_alter_ne by done. apply Hrest.
  - rewrite app_nil_r. split_and!; try done. set_solver.
Qed.

(** Callbacks that are safe to run on a pipe with a source edge run. *)
Lemma fire_total cb p s :
  cb_safe (pipes s p) cb = true → is_Some (From (pipes s p)) →
  ∃ s', fire cb p s = Some (tt, s').
Proof.
  intros Hsafe [f Hf]. destruct cb as [[]|]; simpl in *.
  - unfold bind, get, modify. rewrite Hf. eauto.
  - apply bool_decide_eq_true in Hsafe as [t Ht].
    unfold bind, get, modify. rewrite Ht. eauto.
  - done.
  - by eexists.
Qed.

Lemma Cancel_total p s :
  is_Some (From (pipes s p)) →
  cb_safe (pipes s p) (OnReceiveCompletion (pipes s p)) = true →
  cb_safe (pipes s p) (OnSendCompletion (pipes s p)) = true →
  ∃ s', Cancel p s = Some (tt, s').
Proof.
  intros Hfrom Hrecv Hsend. unfold Cancel. unfold bind at 1, get.
  destruct (Canceled (Request (pipes s p))); [by eexists|].
  unfold bind at 1, modify. unfold bind at 1.
  set (upd := λ pp : edgePipe, set_Request _ _).
  set (s1 := upd_pipe p upd s).
  assert (Hp : pipes s1 p = upd (pipes s p))
    by (unfold s1, upd_pipe, set_pipes; cbn [pipes]; apply fn_lookup_alter).
  destruct (fire_total (OnReceiveCompletion (pipes s1 p)) p s1)
    as (s2 & Hf1); [by rewrite Hp|by rewrite Hp|].
  unfold bind at 1. rewrite Hf1. unfold bind at 1, get.
  apply fire_frame in Hf1.
  apply fire_total.
  - rewrite (cf_OnSend _ _ Hf1), Hp. simpl.
    destruct (OnSendCompletion (pipes s p)) as [[]|];
      simpl in Hsend |- *; try done.
    by rewrite (cf_Target _ _ Hf1), Hp.
  - by rewrite (cf_From _ _ Hf1), Hp.
Qed.

(** The second loop: the outgoing pipes of [src] move to [target] and are
    cancelled. *)
Lemma mergeTo_outgoing target l s s' :
  forM_ l (λ out,
    modify (upd_pipe out (set_From (Some target))) ;;;
    modify (set_outgoing (append_at target out)) ;;;
    Cancel out) s = Some (tt, s') →
  slice_at (outgoing s') target = slice_at (outgoing s) target ++ l ∧
  (∀ k, k ≠ target → outgoing s' !! k = outgoing s !! k) ∧
  (∀ q, q ∈ l → From (pipes s' q) = Some target ∧
                Canceled (Request (pipes s' q)) = true) ∧
  (∀ q, Target (pipes s' q) = Target (pipes s q)) ∧
  incoming s' = incoming s ∧ edges s' = edges s ∧ ef s' = ef s ∧
  index s' = index s.
Proof.
  apply (forM_inv (λ done s',
    slice_at (outgoing s') target = slice_at (outgoing s) target ++ done ∧
    (∀ k, k ≠ target → outgoing s' !! k = outgoing s !! k) ∧
    (∀ q, q ∈ done → From (pipes s' q) = Some target ∧
                     Canceled (Request (pipes s' q)) = true) ∧
    (∀ q, Target (pipes s' q) = Target (pipes s q)) ∧
    incoming s' = incoming s ∧ edges s' = edges s ∧ ef s' = ef s ∧
    index s' = index s)).
  - intros done out s1 s2 (Hout & Hother & Hdone & Htgt & Hin & He & Hef & Hidx) Hrun.
    unfold bind at 1 2, modify in Hrun.
    apply Cancel_frame in Hrun as [Hfr Hc].
    split_and!.
    + rewrite (cf_outgoing _ _ Hfr). simpl.
      unfold append_at, slice_at. rewrite lookup_insert_eq. simpl.
      unfold slice_at in Hout. by rewrite Hout, <- app_assoc.
    + intros k Hk. rewrite (cf_outgoing _ _ Hfr). simpl.
      unfold append_at. rewrite lookup_insert_ne by done. eauto.
    + intros q Hq. rewrite (cf_From _ _ Hfr). simpl.
      destruct (decide (out = q)) as [->|Hne].
      * by rewrite fn_lookup_alter.
      * rewrite fn_lookup_alter_ne by done.
        assert (q ∈ done) as Hqd by set_solver.
        destruct (Hdone q Hqd) as [HF HC]. split; [done|].
        apply (cf_Canceled _ _ Hfr). simpl.
        by rewrite fn_lookup_alter_ne.
    + intros q. rewrite (cf_Target _ _ Hfr). simpl. rewrite <- Htgt.
      destruct (decide (out = q)) as [->|Hne].
      * by rewrite fn_lookup_alter.
      * by rewrite fn_lookup_alter_ne.
    + by rewrite (cf_incoming _ _ Hfr).
    + by rewrite (cf_edges _ _ Hfr).
    + by rewrite (cf_ef _ _ Hfr).
    + by rewrite (cf_index _ _ Hfr).
  - rewrite app_nil_r. split_and!; try done. set_solver.
Qed.

(** The second loop runs through when the callbacks of the pipes are
    those of pipes with a source edge. *)
Lemma mergeTo_outgoing_total target l s :
  (∀ p, p ∈ l →
     cb_safe (pipes s p) (OnReceiveCompletion (pipes s p)) = true ∧
     cb_safe (pipes s p) (OnSendCompletion (pipes s p)) = true) →
  ∃ s',
    forM_ l (λ out,
      modify (upd_pipe out (set_From (Some target))) ;;;
      modify (set_outgoing (append_at target out)) ;;;
      Cancel out) s = Some (tt, s').
Proof.
  intros Hsafe.
  destruct (forM_total (λ _ s',
    ∀ q, Target (pipes s' q) = Target (pipes s q) ∧
         OnReceiveCompletion (pipes s' q) = OnReceiveCompletion (pipes s q) ∧
         OnSendCompletion (pipes s' q) = OnSendCompletion (pipes s q))
    l (λ out,
      modify (upd_pipe out (set_From (Some target))) ;;;
      modify (set_outgoing (append_at target out)) ;;;
      Cancel out) s) as (s' & Hrun & _); [| |by exists s'].
  - intros _ out s1 Hinv Hout.
    unfold bind at 1 2, modify.
    set (s2 := set_outgoing _ _).
    assert (Hq : ∀ q,
      Target (pipes s2 q) = Target (pipes s q) ∧
      OnReceiveCompletion (pipes s2 q) = OnReceiveCompletion (pipes s q) ∧
      OnSendCompletion (pipes s2 q) = OnSendCompletion (pipes s q)).
    { intros q. unfold s2. simpl. destruct (decide (out = q)) as [->|Hne].
      - rewrite fn_lookup_alter. apply Hinv.
      - rewrite fn_lookup_alter_ne by done. apply Hinv. }
    destruct (Hsafe out Hout) as [Hs1 Hs2].
    destruct (Cancel_total out s2) as (s3 & Hc).
    + unfold s2. simpl. rewrite fn_lookup_alter. by eexists.
    + destruct (Hq out) as (Ht & -> & _).
      destruct (OnReceiveCompletion (pipes s out)) as [[]|]; try done.
      simpl in *. by rewrite Ht.
    + destruct (Hq out) as (Ht & _ & ->).
      destruct (OnSendCompletion (pipes s out)) as [[]|]; try done.
      simpl in *. by rewrite Ht.
    + exists s3. split; [done|]. apply Cancel_frame in Hc as [Hfr _].
      intros q. rewrite (cf_Target _ _ Hfr), (cf_OnReceive _ _ Hfr),
        (cf_OnSend _ _ Hfr). apply Hq.
  - done.
Qed.

(** The third loop: the records of [src] go to [target]. *)
Lemma set_secondaryExporters_nil (e : edge) :
  set_secondaryExporters (λ r, r ++ []) e = e.
Proof. destruct e. unfold set_secondaryExporters. simpl. by rewrite app_nil_r. Qed.

Lemma exporters_added_refl target s : exporters_added target [] s s.
Proof. split; try done. by rewrite set_secondaryExporters_nil. Qed.

Lemma exporters_added_trans target xs ys s1 s2 s3 :
  exporters_added target xs s1 s2 → exporters_added target ys s2 s3 →
  exporters_added target (xs ++ ys) s1 s3.
Proof.
  intros [a1 a2 a3 a4 a5 a6 a7 a8] [b1 b2 b3 b4 b5 b6 b7 b8].
  split; [congruence..| |].
  - rewrite b7, a7. unfold set_secondaryExporters. simpl.
    by rewrite <- app_assoc.
  - intros a Ha. rewrite b8, a8; done.
Qed.

Lemma add_secondaryExporter_added target x s :
  add_secondaryExporter target x s =
    Some (tt, upd_edge target (set_secondaryExporters (λ r, r ++ [x])) s) ∧
  exporters_added target [x] s
    (upd_edge target (set_secondaryExporters (λ r, r ++ [x])) s).
Proof.
  split; [done|]. split; simpl; try done.
  - by rewrite fn_lookup_alter.
  - intros a Ha. by rewrite fn_lookup_alter_ne.
Qed.

(** Adding records leaves the dependencies and the cache map alone. *)
Lemma exporters_added_static target xs s s' a :
  exporters_added target xs s s' →
  deps (edges s' a) = deps (edges s a) ∧
  cacheMap (edges s' a) = cacheMap (edges s a) ∧
  e_edge (edges s' a) = e_edge (edges s a).
Proof.
  intros Hadd. destruct (decide (a = target)) as [->|Hne].
  - by rewrite (ea_target _ _ _ _ Hadd).
  - by rewrite (ea_others _ _ _ _ Hadd).
Qed.

Lemma dep_Selector_Some src i s sel s' :
  dep_Selector src i s = Some (sel, s') ↔
  s' = s ∧ edge_selectors (edges s src) !! i = Some sel ∧
  is_Some (cacheMap (edges s src)).
Proof.
  unfold dep_Selector, bind, get, ret, panic, edge_selectors.
  destruct (cacheMap (edges s src)) as [cm|].
  - destruct (Deps cm !! i); split.
    + intros [= <- <-]. eauto.
    + by intros (-> & [= ->] & _).
    + done.
    + by intros (_ & ? & _).
  - split; [done|]. by intros (_ & _ & []).
Qed.

(** One inner loop: the keys [ks] of dependency [i]. *)
Lemma mergeTo_keys target src i ks s s' :
  forM_ ks (λ k,
    sel <- dep_Selector src i ;;
    add_secondaryExporter target
      (mkExpDep i (mkCacheKeyWithSelector sel k))) s = Some (tt, s') →
  exporters_added target
    ((λ k, mkExpDep i (mkCacheKeyWithSelector
                         (default "" (edge_selectors (edges s src) !! i)) k))
       <$> ks) s s'.
Proof.
  apply (forM_inv (λ done s',
    exporters_added target
      ((λ k, mkExpDep i (mkCacheKeyWithSelector
                           (default "" (edge_selectors (edges s src) !! i)) k))
         <$> done) s s')).
  - intros done k s1 s2 Hinv Hrun.
    apply bind_Some in Hrun as (sel & ? & Hsel & Hadd).
    apply dep_Selector_Some in Hsel as (-> & Hsel & _).
    unfold edge_selectors in Hsel.
    destruct (exporters_added_static _ _ _ _ src Hinv) as (_ & Hcm & _).
    rewrite Hcm in Hsel. fold (edge_selectors (edges s src)) in Hsel.
    destruct (add_secondaryExporter_added target
                (mkExpDep i (mkCacheKeyWithSelector sel k)) s1) as [Heq Hstep].
    rewrite Heq in Hadd. injection Hadd as <-.
    rewrite fmap_app. rewrite Hsel in Hinv |- *. simpl in Hinv |- *.
    by eapply exporters_added_trans.
  - apply exporters_added_refl.
Qed.

Lemma mergeTo_keys_total target src i ks s :
  i < length (edge_selectors (edges s src)) →
  is_Some (cacheMap (edges s src)) →
  ∃ s',
    forM_ ks (λ k,
      sel <- dep_Selector src i ;;
      add_secondaryExporter target
        (mkExpDep i (mkCacheKeyWithSelector sel k))) s = Some (tt, s').
Proof.
  intros Hi Hcm.
  destruct (forM_total (λ _ s',
              edge_selectors (edges s' src) = edge_selectors (edges s src) ∧
              is_Some (cacheMap (edges s' src)))
    ks (λ k,
      sel <- dep_Selector src i ;;
      add_secondaryExporter target
        (mkExpDep i (mkCacheKeyWithSelector sel k))) s)
    as (s' & Hrun & _); [| |by exists s'].
  - intros _ k s1 [Hsel Hcm1] _.
    destruct (lookup_lt_is_Some_2 (edge_selectors (edges s src)) i Hi)
      as [sel Hlook].
    assert (Hds : dep_Selector src i s1 = Some (sel, s1)).
    { apply dep_Selector_Some. by rewrite Hsel. }
    unfold bind at 1. rewrite Hds.
    destruct (add_secondaryExporter_added target
                (mkExpDep i (mkCacheKeyWithSelector sel k)) s1) as [Heq Hstep].
    eexists. split; [exact Heq|].
    destruct (exporters_added_static _ _ _ _ src Hstep) as (_ & Hc & _).
    unfold edge_selectors in *. by rewrite Hc.
  - done.
Qed.

Lemma exporters_added_selectors target xs s s' a :
  exporters_added target xs s s' →
  edge_selectors (edges s' a) = edge_selectors (edges s a) ∧
  (is_Some (cacheMap (edges s a)) → is_Some (cacheMap (edges s' a))).
Proof.
  intros Hadd.
  destruct (exporters_added_static _ _ _ _ a Hadd) as (_ & Hcm & _).
  unfold edge_selectors. by rewrite Hcm.
Qed.

(** The body of the third loop, for dependency [i]. *)
Lemma mergeTo_dep_added target src i d s s' :
  mergeTo_dep target src i d s = Some (tt, s') →
  exporters_added target
    (dep_exporters (default "" (edge_selectors (edges s src) !! i)) i d) s s'.
Proof.
  unfold mergeTo_dep. intros Hrun.
  apply bind_Some in Hrun as ([] & s1 & Hkeys & Hrun).
  apply bind_Some in Hrun as ([] & s2 & Hslow & Hres).
  apply mergeTo_keys in Hkeys.
  unfold dep_exporters. eapply exporters_added_trans; [exact Hkeys|].
  assert (Hs2 : exporters_added target
            match slowCacheKey d with
            | Some k => [mkExpDep i (mkCacheKeyWithSelector "" k)]
            | None => []
            end s1 s2).
  { destruct (slowCacheKey d) as [k|].
    - destruct (add_secondaryExporter_added target
                  (mkExpDep i (mkCacheKeyWithSelector "" k)) s1) as [Heq Hstep].
      rewrite Heq in Hslow. by injection Hslow as <-.
    - injection Hslow as <-. apply exporters_added_refl. }
  eapply exporters_added_trans; [exact Hs2|].
  destruct (result d) as [r|].
  - apply mergeTo_keys in Hres.
    destruct (exporters_added_selectors _ _ _ _ src Hkeys) as [Hsel1 _].
    destruct (exporters_added_selectors _ _ _ _ src Hs2) as [Hsel2 _].
    by rewrite Hsel2, Hsel1 in Hres.
  - injection Hres as <-. apply exporters_added_refl.
Qed.

Lemma mergeTo_dep_total target src i d s :
  i < length (edge_selectors (edges s src)) →
  is_Some (cacheMap (edges s src)) →
  ∃ s', mergeTo_dep target src i d s = Some (tt, s').
Proof.
  intros Hi Hcm. unfold mergeTo_dep.
  destruct (mergeTo_keys_total target src i (keys d) s Hi Hcm) as (s1 & Hkeys).
  unfold bind at 1. rewrite Hkeys.
  apply mergeTo_keys in Hkeys.
  destruct (exporters_added_selectors _ _ _ _ src Hkeys) as [Hsel1 Hcm1].
  assert (∃ s2,
    match slowCacheKey d with
    | Some k =>
        add_secondaryExporter target (mkExpDep i (mkCacheKeyWithSelector "" k))
    | None => ret tt
    end s1 = Some (tt, s2) ∧
    edge_selectors (edges s2 src) = edge_selectors (edges s1 src) ∧
    (is_Some (cacheMap (edges s1 src)) → is_Some (cacheMap (edges s2 src))))
    as (s2 & Hslow & Hsel2 & Hcm2).
  { destruct (slowCacheKey d) as [k|].
    - destruct (add_secondaryExporter_added target
                  (mkExpDep i (mkCacheKeyWithSelector "" k)) s1) as [Heq Hstep].
      eexists. split; [exact Heq|].
      by apply (exporters_added_selectors _ _ _ _ src Hstep).
    - by exists s1. }
  unfold bind at 1. rewrite Hslow.
  destruct (result d) as [r|]; [|by eexists].
  apply mergeTo_keys_total.
  - by rewrite Hsel2, Hsel1.
  - auto.
Qed.

(** The third loop as a whole. *)
Lemma mergeTo_deps_added target src ds i s s' :
  forM_i i ds (mergeTo_dep target src) s = Some (tt, s') →
  exporters_added target
    (edge_exporters (edge_selectors (edges s src)) i ds) s s'.
Proof.
  revert i s. induction ds as [|d ds IH]; intros i s Hrun; simpl in *.
  - injection Hrun as <-. apply exporters_added_refl.
  - apply bind_Some in Hrun as ([] & s1 & Hd & Hrun).
    apply mergeTo_dep_added in Hd. apply IH in Hrun.
    destruct (exporters_added_selectors _ _ _ _ src Hd) as [Hsel _].
    rewrite Hsel in Hrun. by eapply exporters_added_trans.
Qed.

Lemma mergeTo_deps_total target src ds i s :
  i + length ds ≤ length (edge_selectors (edges s src)) →
  is_Some (cacheMap (edges s src)) →
  ∃ s', forM_i i ds (mergeTo_dep target src) s = Some (tt, s').
Proof.
  revert i s. induction ds as [|d ds IH]; intros i s Hlen Hcm; simpl in *.
  - by eexists.
  - destruct (mergeTo_dep_total target src i d s) as (s1 & Hd); [lia|done|].
    unfold bind at 1. rewrite Hd.
    apply mergeTo_dep_added in Hd.
    destruct (exporters_added_selectors _ _ _ _ src Hd) as [Hsel Hcm1].
    apply IH; [rewrite Hsel; lia|auto].
Qed.

(** *** mergeTo *)

(** The two tests at the head of [mergeTo]. *)
Lemma mergeTo_refused target src s :
  SkipEdgeMerge (Options (Vertex_ (e_edge (edges s target)))) = true ∨
  SkipEdgeMerge (Options (Vertex_ (e_edge (edges s src)))) = true ∨
  (IgnoreCache (Options (Vertex_ (e_edge (edges s target)))) = false ∧
   IgnoreCache (Options (Vertex_ (e_edge (edges s src)))) = true) →
  mergeTo target src s = Some (false, s).
Proof.
  intros Href. unfold mergeTo, bind, get, ret.
  destruct Href as [->|[->|[-> ->]]]; simpl; [done| |].
  - by rewrite orb_true_r.
  - by destruct (_ || _).
Qed.

Lemma mergeTo_not_refused target src s :
  ¬ (SkipEdgeMerge (Options (Vertex_ (e_edge (edges s target)))) = true ∨
     SkipEdgeMerge (Options (Vertex_ (e_edge (edges s src)))) = true ∨
     (IgnoreCache (Options (Vertex_ (e_edge (edges s target)))) = false ∧
      IgnoreCache (Options (Vertex_ (e_edge (edges s src)))) = true)) →
  SkipEdgeMerge (Options (Vertex_ (e_edge (edges s target))))
  || SkipEdgeMerge (Options (Vertex_ (e_edge (edges s src)))) = false ∧
  negb (IgnoreCache (Options (Vertex_ (e_edge (edges s target)))))
  && IgnoreCache (Options (Vertex_ (e_edge (edges s src)))) = false.
Proof.
  intros Hnot.
  destruct (SkipEdgeMerge _), (SkipEdgeMerge _), (IgnoreCache _),
    (IgnoreCache _); simpl; split; try done; exfalso; apply Hnot; auto.
Qed.

Lemma slice_at_delete_ne (m : gmap nat (list nat)) a b :
  a ≠ b → slice_at (delete a m) b = slice_at m b.
Proof. intros Hne. unfold slice_at. by rewrite lookup_delete_ne. Qed.

(** What a merge that went through has done. *)
Lemma mergeTo_merges target src s s' :
  target ≠ src →
  mergeTo target src s = Some (true, s') →
  (∀ p, p ∈ slice_at (incoming s) src → Target (pipes s' p) = Some target) ∧
  slice_at (incoming s') target =
    slice_at (incoming s) target ++ slice_at (incoming s) src ∧
  (∀ p, p ∈ slice_at (outgoing s) src →
     From (pipes s' p) = Some target ∧
     Canceled (Request (pipes s' p)) = true) ∧
  slice_at (outgoing s') target =
    slice_at (outgoing s) target ++ slice_at (outgoing s) src ∧
  incoming s' !! src = None ∧ outgoing s' !! src = None ∧
  target ∈ waitq s' ∧
  secondaryExporters (edges s' target) =
    secondaryExporters (edges s target)
    ++ edge_exporters (edge_selectors (edges s src)) 0 (deps (edges s src)) ∧
  ef s' = ef s ∧ index s' = index s ∧
  (∀ a, e_edge (edges s' a) = e_edge (edges s a)).
Proof.
  intros Hne Hrun. unfold mergeTo in Hrun.
  apply bind_Some in Hrun as (? & ? & [= <- <-] & Hrun).
  destruct (_ || _); [done|]. destruct (_ && _); [done|].
  destruct (mergeTo_incoming target (slice_at (incoming s) src) s)
    as (s1 & Hl1 & Hin1 & Hino1 & Htgt1 & _ & _ & Hout1 & He1 & Hef1 & Hidx1).
  unfold bind at 1 in Hrun. rewrite Hl1 in Hrun.
  apply bind_Some in Hrun as (? & ? & [= <- <-] & Hrun).
  apply bind_Some in Hrun as ([] & s2 & Hl2 & Hrun).
  apply mergeTo_outgoing in Hl2
    as (Hout2 & Houto2 & Hfrom2 & Htgt2 & Hin2 & He2 & Hef2 & Hidx2).
  rewrite Hout1 in Hout2, Houto2, Hfrom2.
  unfold bind at 1 2 3, modify in Hrun.
  apply bind_Some in Hrun as (? & ? & [= <- <-] & Hrun).
  apply bind_Some in Hrun as ([] & s4 & Hl3 & [= <-]).
  apply mergeTo_deps_added in Hl3.
  set (s3 := signal target _) in *.
  pose proof (signal_frame target
    (set_outgoing (delete src) (set_incoming (delete src) s2))) as Hfr.
  fold s3 in Hfr.
  assert (He3 : edges s3 = edges s)
    by (rewrite (cf_edges _ _ Hfr); simpl; congruence).
  split_and!.
  - intros p Hp. rewrite (ea_pipes _ _ _ _ Hl3), (cf_Target _ _ Hfr). simpl.
    rewrite Htgt2. by apply Htgt1.
  - rewrite (ea_incoming _ _ _ _ Hl3), (cf_incoming _ _ Hfr). simpl.
    rewrite slice_at_delete_ne by done. by rewrite Hin2.
  - intros p Hp. destruct (Hfrom2 p Hp) as [HF HC].
    rewrite (ea_pipes _ _ _ _ Hl3), (cf_From _ _ Hfr). simpl.
    split; [done|]. by apply (cf_Canceled _ _ Hfr).
  - rewrite (ea_outgoing _ _ _ _ Hl3), (cf_outgoing _ _ Hfr). simpl.
    by rewrite slice_at_delete_ne.
  - rewrite (ea_incoming _ _ _ _ Hl3), (cf_incoming _ _ Hfr). simpl.
    apply lookup_delete_eq.
  - rewrite (ea_outgoing _ _ _ _ Hl3), (cf_outgoing _ _ Hfr). simpl.
    apply lookup_delete_eq.
  - rewrite (ea_waitq _ _ _ _ Hl3). apply signal_waitq.
  - rewrite (ea_target _ _ _ _ Hl3). simpl. by rewrite He3.
  - rewrite (ea_ef _ _ _ _ Hl3), (cf_ef _ _ Hfr). simpl. congruence.
  - rewrite (ea_index _ _ _ _ Hl3), (cf_index _ _ Hfr). simpl. congruence.
  - intros a. destruct (exporters_added_static _ _ _ _ a Hl3) as (_ & _ & ->).
    by rewrite He3.
Qed.

(** A merge that is not refused goes through on a state whose pipes and
    cache map are in order. *)
Lemma mergeTo_total target src s :
  ¬ (SkipEdgeMerge (Options (Vertex_ (e_edge (edges s target)))) = true ∨
     SkipEdgeMerge (Options (Vertex_ (e_edge (edges s src)))) = true ∨
     (IgnoreCache (Options (Vertex_ (e_edge (edges s target)))) = false ∧
      IgnoreCache (Options (Vertex_ (e_edge (edges s src)))) = true)) →
  outgoing_ok s src → selectors_ok (edges s src) →
  ∃ s', mergeTo target src s = Some (true, s').
Proof.
  intros Hnot Hok (cm & Hcm & Hlen).
  apply mergeTo_not_refused in Hnot as [Hskip Hign].
  unfold mergeTo. unfold bind at 1, get. rewrite Hskip, Hign.
  destruct (mergeTo_incoming target (slice_at (incoming s) src) s)
    as (s1 & Hl1 & _ & _ & _ & Hsome1 & Hcb1 & Hout1 & He1 & _).
  unfold bind at 1. rewrite Hl1. unfold bind at 1, get.
  destruct (mergeTo_outgoing_total target (slice_at (outgoing s1) src) s1)
    as (s2 & Hl2).
  { rewrite Hout1. intros p Hp. destruct (Hok p Hp) as [Hr Hs].
    destruct (Hcb1 p) as (_ & _ & -> & ->).
    split.
    - destruct (OnReceiveCompletion (pipes s p)) as [[]|]; try done.
      simpl in *. apply bool_decide_eq_true, Hsome1.
      by apply bool_decide_eq_true in Hr.
    - destruct (OnSendCompletion (pipes s p)) as [[]|]; try done.
      simpl in *. apply bool_decide_eq_true, Hsome1.
      by apply bool_decide_eq_true in Hs. }
  unfold bind at 1. rewrite Hl2.
  apply mergeTo_outgoing in Hl2 as (_ & _ & _ & _ & _ & He2 & _).
  unfold bind at 1 2 3, modify. unfold bind at 1, get.
  set (s3 := signal target _).
  assert (He3 : edges s3 = edges s).
  { unfold s3. rewrite (cf_edges _ _ (signal_frame target _)). simpl.
    congruence. }
  destruct (mergeTo_deps_total target src (deps (edges s3 src)) 0 s3)
    as (s4 & Hl3).
  - rewrite He3. unfold edge_selectors. rewrite Hcm. simpl. lia.
  - rewrite He3, Hcm. by eexists.
  - unfold bind. rewrite Hl3. by eexists.
Qed.

Lemma mergeTo_result target src s b s' :
  mergeTo target src s = Some (b, s') →
  b = negb (SkipEdgeMerge (Options (Vertex_ (e_edge (edges s target))))
            || SkipEdgeMerge (Options (Vertex_ (e_edge (edges s src))))
            || negb (IgnoreCache (Options (Vertex_ (e_edge (edges s target)))))
               && IgnoreCache (Options (Vertex_ (e_edge (edges s src))))).
Proof.
  unfold mergeTo. intros Hrun.
  apply bind_Some in Hrun as (? & ? & [= <- <-] & Hrun).
  destruct (_ || _); [by injection Hrun as <- _|].
  destruct (_ && _); [by injection Hrun as <- _|].
  repeat (apply bind_Some in Hrun as (? & ? & _ & Hrun)).
  by injection Hrun as <- _.
Qed.

(** C3. [mergeTo] returns false, with the state as it was, when either
    vertex has the skip-merge option or when the source ignores the cache
    and the target does not. In every other case its result is true: it
    cannot return false, and it returns on a state whose outgoing pipes
    and cache map are in order. *)
Theorem mergeTo_refusal target src s :
  let topt := Options (Vertex_ (e_edge (edges s target))) in
  let sopt := Options (Vertex_ (e_edge (edges s src))) in
  let refused :=
    SkipEdgeMerge topt = true ∨ SkipEdgeMerge sopt = true ∨
    (IgnoreCache topt = false ∧ IgnoreCache sopt = true) in
  (refused → mergeTo target src s = Some (false, s)) ∧
  (¬ refused →
     (∀ b s', mergeTo target src s = Some (b, s') → b = true) ∧
     (outgoing_ok s src → selectors_ok (edges s src) →
      ∃ s', mergeTo target src s = Some (true, s'))).
Proof.
  intros topt sopt refused. split; [apply mergeTo_refused|].
  intros Hnot. split.
  - intros b s' Hrun. apply mergeTo_result in Hrun as ->.
    apply mergeTo_not_refused in Hnot as [Hskip Hign].
    fold topt sopt in Hskip, Hign |- *. by rewrite Hskip, Hign.
  - by apply mergeTo_total.
Qed.

(** The callback of [build] closes the waiter when it sees the pipe
    completed, and only then. *)
Lemma build_wake_up p s1 s2 :
  p ∉ waits s1 →
  fire (Some cb_build_wait) p s1 = Some (tt, s2) →
  (p ∈ waits s2 ↔ Completed (ReceiverStatus (pipes s2 p)) = true).
Proof.
  intros Hopen Hrun. simpl in Hrun.
  apply bind_Some in Hrun as (b & s1' & Hrecv & Hrun).
  assert (Hw : waits s1' = waits s1).
  { unfold Receive, bind, get, modify, ret in Hrecv.
    destruct (decide _); by injection Hrecv as _ <-. }
  unfold bind, get, modify, ret, panic in Hrun.
  destruct (Completed (ReceiverStatus (pipes s1' p))) eqn:Hc.
  - destruct (decide _); [done|]. injection Hrun as <-. simpl.
    rewrite Hc. set_solver.
  - injection Hrun as <-. rewrite Hc, Hw. split; [done|discriminate].
Qed.

End MergeFacts.

Section MergeDemo.
Import solver demo.

Lemma demo_running_outgoing_ok : outgoing_ok demo_running 1.
Proof.
  intros p Hp. vm_compute in Hp.
  apply list_elem_of_singleton in Hp as ->. vm_compute. done.
Qed.

Lemma demo_selectors_ok : selectors_ok (edges demo_running 1).
Proof. exists (mkCacheMap ["selA"]). vm_compute. split; [done|lia]. Qed.

(** S has the skip-merge option: no merge into it. A merges into B. *)
Lemma mergeTo_refusal_witness :
  mergeTo 4 1 demo_running = Some (false, demo_running) ∧
  (∀ b s', mergeTo 2 1 demo_running = Some (b, s') → b = true) ∧
  ∃ s', mergeTo 2 1 demo_running = Some (true, s').
Proof.
  split.
  - apply (mergeTo_refusal 4 1 demo_running). left. vm_compute. reflexivity.
  - destruct (proj2 (mergeTo_refusal 2 1 demo_running)) as [Hres Hrun].
    + vm_compute. intros [?|[?|[_ ?]]]; discriminate.
    + split; [exact Hres|].
      exact (Hrun demo_running_outgoing_ok demo_selectors_ok).
Defined.

End MergeDemo.

(* ===================================================================== *)
(** * Properties of dispatch                                              *)
(* ===================================================================== *)

Section DispatchFacts.
Import solver.
Context {EF IDX : Type} `{!edgeFactory EF} `{!edgeIndex IDX}.
Implicit Types (s : @state EF IDX).

Variable unpark :
  nat → list nat → list nat → list nat → @state EF IDX → @state EF IDX.
Variable isDep : @state EF IDX → nat → nat → bool.
Variable currentIndexKey : @state EF IDX → nat → option nat.
Variable markFailed : nat → error → @state EF IDX → @state EF IDX.
Variable CloneCachedResult : CachedResult → CachedResult.

Local Notation M := (@M EF IDX).
Local Notation "x <- c1 ;; c2" := (bind c1 (λ x, c2))
  (at level 100, c1 at next level, right associativity).
Local Notation "c1 ;;; c2" := (bind c1 (λ _, c2))
  (at level 100, right associativity).

(** *** The merge decision *)

(** The block [if e.keysDidChange], once the index has answered. *)
Lemma dispatch_merge_met e origEdge k idx s :
  keysDidChange (edges s e) = true →
  currentIndexKey s e = Some k →
  LoadOrStore k e (index s) = (Some origEdge, idx) →
  dispatch_merge isDep currentIndexKey e s =
  let s1 := set_index idx s in
  if isDep s1 e origEdge || isDep s1 origEdge e
  then Some (tt, upd_edge e (set_keysDidChange false) s1)
  else merge_outcome e (merge_roles s1 e origEdge).1
         (merge_roles s1 e origEdge).2 s1.
Proof.
  intros Hk Hkey Hidx. unfold dispatch_merge. unfold bind at 1, get.
  rewrite Hk, Hkey, Hidx. unfold bind at 1 2, modify. unfold bind at 1, get.
  simpl. destruct (_ || _); [done|].
  unfold merge_outcome. destruct (merge_roles _ e origEdge) as [dest src].
  simpl. unfold bind at 1 2.
  destruct (mergeTo dest src _) as [[[] s2]|]; done.
Qed.

(** C5. When the key of [e] is held by an edge [origEdge] and one of the
    two depends on the other, the merge is skipped: all that happens is
    the answer of the index and the reset of [keysDidChange]. [mergeTo]
    has no part in the result, and the factory, the pipe maps, the pipes
    and the secondary exporters are as before. *)
Theorem merge_skipped_between_ancestors e origEdge k idx s :
  keysDidChange (edges s e) = true →
  currentIndexKey s e = Some k →
  LoadOrStore k e (index s) = (Some origEdge, idx) →
  isDep (set_index idx s) e origEdge = true ∨
  isDep (set_index idx s) origEdge e = true →
  ∃ s',
    dispatch_merge isDep currentIndexKey e s = Some (tt, s') ∧
    s' = upd_edge e (set_keysDidChange false) (set_index idx s) ∧
    ef s' = ef s ∧
    (∀ x, getEdge (ef s') x = getEdge (ef s) x) ∧
    incoming s' = incoming s ∧ outgoing s' = outgoing s ∧
    pipes s' = pipes s ∧ waitq s' = waitq s ∧
    (∀ a, secondaryExporters (edges s' a) = secondaryExporters (edges s a)
          ∧ e_edge (edges s' a) = e_edge (edges s a)).
Proof.
  intros Hk Hkey Hidx Hdep. eexists. split_and!.
  - rewrite (dispatch_merge_met e origEdge k idx s Hk Hkey Hidx). simpl.
    destruct Hdep as [->| ->]; [done|]. by rewrite orb_true_r.
  - done.
  - done.
  - done.
  - done.
  - done.
  - done.
  - done.
  - intros a. simpl. destruct (decide (e = a)) as [->|Hne].
    + by rewrite fn_lookup_alter.
    + by rewrite fn_lookup_alter_ne.
Qed.


(** *** The validation at the end of dispatch *)




Lemma dispatch_validate_cases e oi oo s :
  dispatch_validate markFailed e oi oo s =
  Some (tt,
    match oi, oo with
    | _ :: _, [] => markFailed e err_incoming_open s
    | [], _ :: _ => markFailed e err_outgoing_open s
    | _, _ => s
    end).
Proof. by destruct oi, oo. Qed.



(** *** A merge, seen from dispatch *)

(** C4. A merge of [src] into another edge [target] that returns true
    has retargeted the incoming pipes of [src] to [target] and appended
    them to its incoming list, has set [target] as the source of the
    outgoing pipes of [src], appended them to its outgoing list and
    cancelled them, has deleted [src] from both maps, has signalled
    [target] and has appended to its secondary exporters, dependency by
    dependency, the keys, the slow key and the keys of the result of
    [src]. In dispatch the factory is then redirected from the edge of
    [src] to [target]. *)
Theorem merge_moves_pipes target src s s' :
  target ≠ src →
  mergeTo target src s = Some (true, s') →
  (∀ p, p ∈ slice_at (incoming s) src → Target (pipes s' p) = Some target) ∧
  slice_at (incoming s') target =
    slice_at (incoming s) target ++ slice_at (incoming s) src ∧
  (∀ p, p ∈ slice_at (outgoing s) src →
     From (pipes s' p) = Some target ∧
     Canceled (Request (pipes s' p)) = true) ∧
  slice_at (outgoing s') target =
    slice_at (outgoing s) target ++ slice_at (outgoing s) src ∧
  incoming s' !! src = None ∧ outgoing s' !! src = None ∧
  target ∈ waitq s' ∧
  secondaryExporters (edges s' target) =
    secondaryExporters (edges s target)
    ++ edge_exporters (edge_selectors (edges s src)) 0 (deps (edges s src)) ∧
  ∀ e origEdge k s0,
    keysDidChange (edges s0 e) = true →
    currentIndexKey s0 e = Some k →
    LoadOrStore k e (index s0) = (Some origEdge, index s) →
    s = set_index (index s) s0 →
    isDep s e origEdge = false → isDep s origEdge e = false →
    merge_roles s e origEdge = (target, src) →
    ∃ s'',
      dispatch_merge isDep currentIndexKey e s0 = Some (tt, s'') ∧
      ef s'' = setEdge (e_edge (edges s0 src)) target (ef s0) ∧
      incoming s'' = incoming s' ∧ outgoing s'' = outgoing s' ∧
      pipes s'' = pipes s' ∧ waitq s'' = waitq s'.
Proof.
  intros Hne Hrun.
  destruct (mergeTo_merges target src s s' Hne Hrun)
    as (P1 & P2 & P3 & P4 & P5 & P6 & P7 & P8 & Hef & Hidx & Hedge).
  split_and!; try done.
  intros e origEdge k s0 Hk Hkey Hload Hs Hd1 Hd2 Hroles.
  rewrite (dispatch_merge_met e origEdge k (index s) s0 Hk Hkey Hload).
  cbv zeta. rewrite <- Hs, Hd1, Hd2, Hroles. simpl.
  unfold merge_outcome. rewrite Hrun.
  eexists. split; [reflexivity|]. simpl. split_and!; try done.
  rewrite Hef, Hedge, Hs. done.
Qed.

(** *** build *)

(** C7. [build] resolves the edge through the factory. For an edge the
    factory does not know it returns the error at once, the state as it
    was. Otherwise it makes a new pipe to the resolved edge, without a
    source edge, asking for the complete result, queued as incoming pipe
    of the edge, and signals the edge; it stays blocked while the waiter
    of the pipe is open, which the callback of the pipe closes when the
    receiver sees the pipe completed; it then returns the error of the
    pipe if there is one, else a clone of the result in the value of the
    pipe. *)
Theorem build_root_pipe edge s :
  match getEdge (ef s) edge with
  | None =>
      build_enter edge s =
        Some (inl (errors_Errorf "invalid request %v for build" edge), s)
  | Some e =>
      let p := pipe_alloc s in
      ∃ s',
        build_enter edge s = Some (inr p, s') ∧
        Target (pipes s' p) = Some e ∧ From (pipes s' p) = None ∧
        Request (pipes s' p) =
          mkPipeRequest (mkEdgeRequest edgeStatusComplete) false ∧
        Completed (SenderStatus (pipes s' p)) = false ∧
        OnSendCompletion (pipes s' p) = Some cb_build_wait ∧
        (∀ q, q ≠ p → pipes s' q = pipes s q) ∧
        pipe_alloc s' = S p ∧
        slice_at (incoming s') e = slice_at (incoming s) e ++ [p] ∧
        (∀ a, a ≠ e → incoming s' !! a = incoming s !! a) ∧
        outgoing s' = outgoing s ∧
        e ∈ waitq s' ∧ waits s' = waits s ∧ ef s' = ef s ∧
        (∀ wake : @state EF IDX, p ∉ waits wake →
           build_resume CloneCachedResult p wake = Some (inl tt)) ∧
        (∀ s1 s2 : @state EF IDX, p ∉ waits s1 →
           fire (OnSendCompletion (pipes s' p)) p s1 = Some (tt, s2) →
           (p ∈ waits s2 ↔ Completed (ReceiverStatus (pipes s2 p)) = true)) ∧
        (∀ (wake : @state EF IDX) x, p ∈ waits wake →
           Err (ReceiverStatus (pipes wake p)) = Some x →
           build_resume CloneCachedResult p wake = Some (inr (inr x))) ∧
        (∀ (wake : @state EF IDX) es r, p ∈ waits wake →
           Err (ReceiverStatus (pipes wake p)) = None →
           Value (ReceiverStatus (pipes wake p)) = any_edgeState es →
           es_result es = Some r →
           build_resume CloneCachedResult p wake
             = Some (inr (inl (CloneCachedResult r))))
  end.
Proof.
  destruct (getEdge (ef s) edge) as [e|] eqn:Hget.
  - cbv zeta. unfold build_enter. unfold bind at 1, get. rewrite Hget.
    unfold newPipe, bind, get, modify, ret.
    eexists. split; [reflexivity|].
    set (s1 := set_pipes _ (set_pipe_alloc _ s)).
    pose proof (signal_frame e s1) as Hfr.
    destruct (signal_heap e s1) as (Hp & Hw & Ha).
    simpl. rewrite !fn_lookup_alter, Hp. unfold s1 at 1 2 3 4 5. simpl.
    rewrite fn_lookup_insert. simpl.
    split_and!; try done.
    + intros q Hq. rewrite !fn_lookup_alter_ne by done.
      by rewrite fn_lookup_insert_ne.
    + rewrite (cf_incoming _ _ Hfr). unfold append_at, slice_at.
      by rewrite lookup_insert_eq.
    + intros a Hne. rewrite (cf_incoming _ _ Hfr). unfold append_at.
      by rewrite lookup_insert_ne.
    + by rewrite (cf_outgoing _ _ Hfr).
    + apply signal_waitq.
    + by rewrite (cf_ef _ _ Hfr).
    + intros wake Hopen. unfold build_resume, build_wait.
      by rewrite bool_decide_eq_false_2.
    + intros s2 s3. apply (build_wake_up (pipe_alloc s)).
    + intros wake x Hclosed Herr. unfold build_resume, build_wait, build_return.
      rewrite bool_decide_eq_true_2 by done. by rewrite Herr.
    + intros wake es r Hclosed Herr Hval Hres.
      unfold build_resume, build_wait, build_return.
      rewrite bool_decide_eq_true_2 by done. by rewrite Herr, Hval, Hres.
  - unfold build_enter. unfold bind at 1, get. by rewrite Hget.
Qed.

End DispatchFacts.

Section DispatchDemo.
Import solver demo.


(** A has its root pipe open and its request to C open: no failure. *)
Example demo_both_open_no_failure :
  ∃ s',
    dispatch demo_unpark demo_isDep demo_currentIndexKey demo_markFailed
      1 demo_running = Some (tt, s') ∧
    err (edges s' 1) = None.
Proof. vm_compute. eexists. split; reflexivity. Qed.

Lemma merge_skipped_between_ancestors_witness :
  ∃ s',
    dispatch_merge demo_isDep demo_currentIndexKey 1 demo_keys_A_meets_C
      = Some (tt, s') ∧
    s' = upd_edge 1 (set_keysDidChange false)
           (set_index {[7 := 3]} demo_keys_A_meets_C) ∧
    ef s' = ef demo_keys_A_meets_C ∧
    (∀ x, getEdge (ef s') x = getEdge (ef demo_keys_A_meets_C) x) ∧
    incoming s' = incoming demo_keys_A_meets_C ∧
    outgoing s' = outgoing demo_keys_A_meets_C ∧
    pipes s' = pipes demo_keys_A_meets_C ∧
    waitq s' = waitq demo_keys_A_meets_C ∧
    (∀ a, secondaryExporters (edges s' a)
            = secondaryExporters (edges demo_keys_A_meets_C a)
          ∧ e_edge (edges s' a) = e_edge (edges demo_keys_A_meets_C a)).
Proof.
  apply (merge_skipped_between_ancestors demo_isDep demo_currentIndexKey
           1 3 7 {[7 := 3]} demo_keys_A_meets_C).
  - vm_compute. reflexivity.
  - reflexivity.
  - vm_compute. reflexivity.
  - left. vm_compute. reflexivity.
Defined.



(** A is merged into B: the root pipe of A now leads to B, the request
    of A to C is B's and is cancelled, and builds of A are sent to B. *)
Lemma merge_moves_pipes_witness :
  Target (pipes demo_merged 0) = Some 2 ∧
  slice_at (incoming demo_merged) 2 = [1; 0] ∧
  From (pipes demo_merged 2) = Some 2 ∧
  Canceled (Request (pipes demo_merged 2)) = true ∧
  slice_at (outgoing demo_merged) 2 = [3; 2] ∧
  incoming demo_merged !! 1 = None ∧ outgoing demo_merged !! 1 = None ∧
  2 ∈ waitq demo_merged ∧
  secondaryExporters (edges demo_merged 2)
    = [mkExpDep 0 (mkCacheKeyWithSelector "selA" 11)] ∧
  ∃ s'',
    dispatch_merge demo_isDep demo_currentIndexKey 1 demo_keys_A_meets_B
      = Some (tt, s'') ∧
    ef s'' = setEdge EdgeA 2 demo_graph.
Proof.
  assert (Hrun : mergeTo 2 1 demo_keys_A_meets_B = Some (true, demo_merged))
    by (vm_compute; reflexivity).
  assert (Hne : 2 ≠ 1) by lia.
  destruct (merge_moves_pipes demo_isDep demo_currentIndexKey 2 1
              demo_keys_A_meets_B demo_merged Hne Hrun)
    as (P1 & P2 & P3 & P4 & P5 & P6 & P7 & P8 & Hdisp).
  split_and!.
  - apply P1. vm_compute. left.
  - rewrite P2. vm_compute. reflexivity.
  - apply P3. vm_compute. left.
  - apply P3. vm_compute. left.
  - rewrite P4. vm_compute. reflexivity.
  - exact P5.
  - exact P6.
  - exact P7.
  - rewrite P8. vm_compute. reflexivity.
  - destruct (Hdisp 1 2 7 demo_keys_A_meets_B) as (s'' & Hd & Hef & _).
    + vm_compute. reflexivity.
    + reflexivity.
    + vm_compute. reflexivity.
    + vm_compute. reflexivity.
    + vm_compute. reflexivity.
    + vm_compute. reflexivity.
    + vm_compute. reflexivity.
    + exists s''. split; [exact Hd|]. rewrite Hef. vm_compute. reflexivity.
Defined.

(** A build of an edge the graph does not have, and a build of A: blocked
    at first, then woken with an error, or with a result. *)
Lemma build_root_pipe_witness :
  build_enter EdgeX demo_init =
    Some (inl (errors_Errorf "invalid request %v for build" EdgeX), demo_init) ∧
  ∃ s',
    build_enter EdgeA demo_init = Some (inr 0, s') ∧
    Target (pipes s' 0) = Some 1 ∧ From (pipes s' 0) = None ∧
    slice_at (incoming s') 1 = [0] ∧ 1 ∈ waitq s' ∧
    build_resume demo_Clone 0 s' = Some (inl tt) ∧
    build_resume demo_Clone 0
      (demo_completed any_nil (Some (errors_New "exit code 1")))
      = Some (inr (inr (errors_New "exit code 1"))) ∧
    build_resume demo_Clone 0
      (demo_completed
         (any_edgeState (mkEdgeStateValue edgeStatusComplete (Some demo_result)))
         None)
      = Some (inr (inl (demo_Clone demo_result))).
Proof.
  split.
  - pose proof (build_root_pipe demo_Clone EdgeX demo_init) as Hthm.
    assert (Hget : getEdge (ef demo_init) EdgeX = None)
      by (vm_compute; reflexivity).
    rewrite Hget in Hthm. exact Hthm.
  - pose proof (build_root_pipe demo_Clone EdgeA demo_init) as Hthm.
    assert (Hget : getEdge (ef demo_init) EdgeA = Some 1)
      by (vm_compute; reflexivity).
    rewrite Hget in Hthm. cbv zeta in Hthm.
    change (pipe_alloc demo_init) with 0 in Hthm.
    destruct Hthm as (s' & Hrun & Htgt & Hfrom & _ & _ & _ & _ & _ & Hin & _
                      & _ & Hq & Hw & _ & Hblock & _ & Herr & Hval).
    exists s'. split_and!.
    + exact Hrun.
    + exact Htgt.
    + exact Hfrom.
    + rewrite Hin. vm_compute. reflexivity.
    + exact Hq.
    + apply Hblock. rewrite Hw. apply not_elem_of_empty.
    + apply Herr; [|vm_compute; reflexivity].
      apply (bool_decide_unpack _). vm_compute. exact I.
    + eapply Hval; [|vm_compute; reflexivity..].
      apply (bool_decide_unpack _). vm_compute. exact I.
Defined.

End DispatchDemo.

(* ===================================================================== *)
(** * Every operation keeps the queue in order                            *)
(* ===================================================================== *)

Section Reachable.
Import solver.
Context {EF IDX : Type} `{!edgeFactory EF} `{!edgeIndex IDX}.
Implicit Types (s : @state EF IDX).

Local Notation M := (@M EF IDX).
Local Notation "x <- c1 ;; c2" := (bind c1 (λ x, c2))
  (at level 100, c1 at next level, right associativity).
Local Notation "c1 ;;; c2" := (bind c1 (λ _, c2))
  (at level 100, right associativity).

(** A computation keeps the scheduler among its states. *)
Local Notation keeps c :=
  (∀ s a s', queue_reachable s → c s = Some (a, s') → queue_reachable s').

Local Ltac other_step :=
  match goal with
  | H : queue_reachable ?s |- queue_reachable _ =>
      apply (qr_other s); [exact H|by repeat split]
  end.

Lemma keeps_bind {A B} (c : M A) (k : A → M B) :
  keeps c → (∀ a, keeps (k a)) → keeps (bind c k).
Proof.
  intros Hc Hk s b s' Hs Hrun.
  apply bind_Some in Hrun as (a & s1 & Ha & Hb). eauto.
Qed.

Lemma keeps_ret {A} (a : A) : keeps (ret a : M A).
Proof. by intros s ? s' Hs [= _ <-]. Qed.

Lemma keeps_signal e : keeps (modify (signal e) : M unit).
Proof. intros s ? s' Hs [= _ <-]. by apply qr_signal. Qed.

Lemma keeps_forM_ {A} (l : list A) (f : A → M unit) :
  (∀ a, keeps (f a)) → keeps (forM_ l f).
Proof.
  intros Hf. induction l as [|a l IH]; simpl.
  - apply keeps_ret.
  - apply keeps_bind; [apply Hf|done].
Qed.

Lemma keeps_forM_i {A} (l : list A) (f : nat → A → M unit) i :
  (∀ i a, keeps (f i a)) → keeps (forM_i i l f).
Proof.
  intros Hf. revert i. induction l as [|a l IH]; intros i; simpl.
  - apply keeps_ret.
  - apply keeps_bind; [apply Hf|intros _; apply IH].
Qed.

Lemma keeps_Receive p : keeps (Receive p).
Proof.
  intros s b s' Hs. unfold Receive, bind, get, modify, ret.
  destruct (decide _); intros [= _ <-]; [done|other_step].
Qed.

Lemma keeps_fire cb p : keeps (fire cb p).
Proof.
  intros s u s' Hs. destruct cb as [[]|]; simpl.
  - unfold bind, get, modify, panic. destruct (From _); [|done].
    intros [= _ <-]. by apply qr_signal.
  - unfold bind, get, modify, panic. destruct (Target _); [|done].
    intros [= _ <-]. by apply qr_signal.
  - intros Hrun. apply bind_Some in Hrun as (b & s1 & Hrecv & Hrun).
    apply keeps_Receive in Hrecv; [|done].
    unfold bind, get, modify, ret, panic in Hrun.
    destruct (Completed _); [|by injection Hrun as _ <-].
    destruct (decide _); [done|]. injection Hrun as _ <-. other_step.
  - by intros [= _ <-].
Qed.

Lemma keeps_Cancel p : keeps (Cancel p).
Proof.
  intros s u s' Hs. unfold Cancel. intros Hrun.
  apply bind_Some in Hrun as (? & ? & [= <- <-] & Hrun).
  destruct (Canceled _); [by injection Hrun as _ <-|].
  apply bind_Some in Hrun as ([] & s1 & [= <-] & Hrun).
  apply bind_Some in Hrun as (? & ? & [= <- <-] & Hrun).
  apply bind_Some in Hrun as ([] & s2 & Hf1 & Hrun).
  apply bind_Some in Hrun as (? & ? & [= <- <-] & Hf2).
  eapply keeps_fire; [|exact Hf2]. eapply keeps_fire; [|exact Hf1].
  other_step.
Qed.

Lemma keeps_newPipe target from req : keeps (newPipe target from req).
Proof.
  intros s p s' Hs. unfold newPipe, bind, get, modify, ret.
  set (s1 := set_pipes _ (set_pipe_alloc _ s)).
  assert (Hs1 : queue_reachable (signal target s1)).
  { apply qr_signal. unfold s1. other_step. }
  destruct from; intros [= _ <-]; other_step.
Qed.

Lemma keeps_build_enter edge : keeps (build_enter edge).
Proof.
  intros s r s' Hs. unfold build_enter. intros Hrun.
  apply bind_Some in Hrun as (? & ? & [= <- <-] & Hrun).
  destruct (getEdge _ _); [|by injection Hrun as _ <-].
  apply bind_Some in Hrun as (p & s1 & Hnew & Hrun).
  apply keeps_newPipe in Hnew; [|done].
  unfold bind, modify, ret in Hrun. injection Hrun as _ <-. other_step.
Qed.

Lemma keeps_mergeTo target src : keeps (mergeTo target src).
Proof.
  intros s b s' Hs. unfold mergeTo. intros Hrun.
  apply bind_Some in Hrun as (? & ? & [= <- <-] & Hrun).
  destruct (_ || _); [by injection Hrun as _ <-|].
  destruct (_ && _); [by injection Hrun as _ <-|].
  revert Hs Hrun. generalize (slice_at (incoming s) src). intros l.
  revert s b s'. apply keeps_bind.
  { apply keeps_forM_. intros inc s1 u s2 Hs1 [= _ <-]. other_step. }
  intros _. apply keeps_bind; [by intros ? ? ? ? [= _ <-]|]. intros s1.
  apply keeps_bind.
  { apply keeps_forM_. intros out.
    apply keeps_bind; [intros s2 u s3 Hs2 [= _ <-]; other_step|]. intros _.
    apply keeps_bind; [intros s2 u s3 Hs2 [= _ <-]; other_step|]. intros _.
    apply keeps_Cancel. }
  intros _. apply keeps_bind; [intros s2 u s3 Hs2 [= _ <-]; other_step|].
  intros _. apply keeps_bind; [intros s2 u s3 Hs2 [= _ <-]; other_step|].
  intros _. apply keeps_bind; [apply keeps_signal|].
  intros _. apply keeps_bind; [by intros ? ? ? ? [= _ <-]|]. intros s2.
  apply keeps_bind; [|intros _; apply keeps_ret].
  apply keeps_forM_i. intros i d. unfold mergeTo_dep.
  assert (Hadd : ∀ x, keeps (add_secondaryExporter target x)).
  { intros x s3 u s4 Hs3 [= _ <-]. other_step. }
  assert (Hsel : keeps (dep_Selector src i)).
  { intros s3 sel s4 Hs3 Hrun. by apply dep_Selector_Some in Hrun as [-> _]. }
  apply keeps_bind.
  { apply keeps_forM_. intros k. apply keeps_bind; [done|]. intros sel. apply Hadd. }
  intros _. apply keeps_bind.
  { destruct (slowCacheKey d); [apply Hadd|apply keeps_ret]. }
  intros _. destruct (result d); [|apply keeps_ret].
  apply keeps_forM_. intros k. apply keeps_bind; [done|]. intros sel. apply Hadd.
Qed.

(** *** dispatch and the loop *)

Section Loop.
Variable unpark :
  nat → list nat → list nat → list nat → @state EF IDX → @state EF IDX.
Variable isDep : @state EF IDX → nat → nat → bool.
Variable currentIndexKey : @state EF IDX → nat → option nat.
Variable markFailed : nat → error → @state EF IDX → @state EF IDX.

(** The edge state machine reaches the queue through [signal] only, as
    [newPipe] does. *)
Hypothesis unpark_keeps : ∀ e inc updates out s,
  queue_reachable s → queue_reachable (unpark e inc updates out s).
Hypothesis markFailed_keeps : ∀ e x s,
  queue_reachable s → queue_reachable (markFailed e x s).

Lemma keeps_dispatch_receive e out acc : keeps (dispatch_receive e out acc).
Proof.
  revert acc. induction out as [|p out IH]; intros acc; simpl.
  - apply keeps_ret.
  - apply keeps_bind; [apply keeps_Receive|]. intros ok.
    apply keeps_bind; [by intros ? ? ? ? [= _ <-]|]. intros s1.
    apply keeps_bind; [|intros _; apply IH].
    destruct (Completed _); [apply keeps_ret|].
    intros s2 u s3 Hs2 [= _ <-]. other_step.
Qed.

Lemma keeps_dispatch e :
  keeps (dispatch unpark isDep currentIndexKey markFailed e).
Proof using unpark_keeps markFailed_keeps.
  unfold dispatch. apply keeps_bind.
  { unfold dispatch_unpark. intros s u s' Hs Hrun.
    apply bind_Some in Hrun as (? & ? & [= <- <-] & Hrun).
    apply bind_Some in Hrun as ([] & s1 & [= <-] & Hrun).
    apply bind_Some in Hrun as (updates & s2 & Hrecv & [= _ <-]).
    apply unpark_keeps. eapply keeps_dispatch_receive; [|exact Hrecv].
    other_step. }
  intros _. apply keeps_bind.
  { intros s open s' Hs.
    unfold dispatch_prune, bind, get, modify, ret.
    destruct (0 <? _); simpl; destruct (0 <? _); intros [= _ <-];
      other_step. }
  intros open. apply keeps_bind.
  { intros s u s' Hs. unfold dispatch_merge. intros Hrun.
    apply bind_Some in Hrun as (? & ? & [= <- <-] & Hrun).
    destruct (keysDidChange _); [|by injection Hrun as _ <-].
    apply bind_Some in Hrun as ([] & s1 & Hrun & [= _ <-]).
    assert (queue_reachable s1); [|other_step].
    destruct (currentIndexKey s e) as [k|]; [|by injection Hrun as <-].
    destruct (LoadOrStore k e (index s)) as [origEdge idx].
    apply bind_Some in Hrun as ([] & s2 & [= <-] & Hrun).
    assert (Hs2 : queue_reachable (set_index idx s)) by other_step.
    destruct origEdge as [origEdge|]; [|by injection Hrun as <-].
    apply bind_Some in Hrun as (? & ? & [= <- <-] & Hrun).
    destruct (_ || _); [by injection Hrun as <-|].
    destruct (merge_roles _ e origEdge) as [dest src].
    apply bind_Some in Hrun as (ok & s3 & Hmerge & Hrun).
    apply keeps_mergeTo in Hmerge; [|done].
    destruct ok; [|by injection Hrun as <-].
    unfold bind, get, modify in Hrun. injection Hrun as <-. other_step. }
  intros _ s u s' Hs. rewrite dispatch_validate_cases. intros [= _ <-].
  destruct open.1, open.2; auto.
Qed.

Lemma keeps_loop_iter :
  keeps (loop_iter unpark isDep currentIndexKey markFailed).
Proof using unpark_keeps markFailed_keeps.
  intros s r s' Hs. unfold loop_iter. intros Hrun.
  apply bind_Some in Hrun as (? & ? & [= <- <-] & Hrun).
  destruct (stopped s); [by injection Hrun as _ <-|].
  pose proof (qr_dequeue s Hs) as Hdq.
  destruct (dequeue s) as [l s1]. simpl in Hdq.
  apply bind_Some in Hrun as ([] & ? & [= <-] & Hrun).
  destruct l as [l|].
  - apply bind_Some in Hrun as ([] & s2 & Hdisp & [= _ <-]).
    by eapply keeps_dispatch.
  - unfold cond_Wait, bind, get, modify, ret in Hrun.
    destruct (cond s1); injection Hrun as _ <-; [other_step|done].
Qed.

End Loop.

End Reachable.

(* ===================================================================== *)
(** * More on exec.go                                                     *)
(* ===================================================================== *)

Section FirstMentions.

Lemma filter_all (P : nat → Prop) `{!∀ x, Decision (P x)} (l : list nat) :
  (∀ x, x ∈ l → P x) → filter P l = l.
Proof.
  induction l as [|y l IH]; intros Hall; [done|].
  rewrite filter_cons_True by (apply Hall; left).
  f_equal. apply IH. intros x Hx. apply Hall. by right.
Qed.

Lemma first_mentions_elem (l : list nat) x : x ∈ first_mentions l ↔ x ∈ l.
Proof.
  induction l as [|y l IH]; simpl; [done|].
  rewrite !elem_of_cons, list_elem_of_filter, IH.
  destruct (decide (x = y)); naive_solver.
Qed.

Lemma first_mentions_NoDup (l : list nat) : NoDup (first_mentions l).
Proof.
  induction l as [|y l IH]; simpl; [constructor|].
  apply NoDup_cons. split.
  - rewrite list_elem_of_filter. naive_solver.
  - by apply NoDup_filter.
Qed.

Lemma first_mentions_app (l1 l2 : list nat) :
  first_mentions (l1 ++ l2)
  = first_mentions l1 ++ filter (λ y, y ∉ l1) (first_mentions l2).
Proof.
  induction l1 as [|x l1 IH]; simpl.
  - symmetry. apply filter_all. intros y _. apply not_elem_of_nil.
  - f_equal. rewrite IH, filter_app. f_equal.
    rewrite list_filter_filter. apply list_filter_iff.
    intros y. rewrite not_elem_of_cons. naive_solver.
Qed.

(** A list without repetitions is its own list of first mentions. *)
Lemma first_mentions_id (l : list nat) : NoDup l → first_mentions l = l.
Proof.
  induction 1 as [|x l Hx Hnd IH]; simpl; [done|].
  rewrite IH. f_equal. apply filter_all.
  intros y Hy ->. done.
Qed.

End FirstMentions.

Section MoreErrdefsFacts.
Import errdefs.

(** One loop of [EachRef], for any callback: it calls the callback on the
    first mentions of the handles not seen before, and adds them to those
    seen. *)
Lemma EachRef_range_calls {W} (fn : nat → W → option error * W)
    (l : list (option nat)) (m : gset nat) (err : option error) (w : W) :
  ∃ m',
    EachRef_range fn l m err w =
      (m', (call_each fn (filter (λ r, r ∉ m) (first_mentions (omap id l)))
              err w).1,
           (call_each fn (filter (λ r, r ∉ m) (first_mentions (omap id l)))
              err w).2) ∧
    (∀ r, r ∈ m' ↔ r ∈ m ∨ r ∈ omap id l).
Proof.
  revert m err w. induction l as [|[res|] l IH]; intros m err w; simpl.
  - exists m. split; [done|]. set_solver.
  - destruct (decide (res ∈ m)) as [Hin|Hnin].
    + destruct (IH m err w) as (m' & -> & Hm').
      exists m'. split.
      * rewrite filter_cons_False by (intros Hn; done).
        rewrite list_filter_filter.
        rewrite (list_filter_iff (λ r, r ∉ m ∧ r ≠ res) (λ r, r ∉ m)); [done|].
        intros r. split; [naive_solver|]. intros Hr. split; [done|].
        by intros ->.
      * intros r. rewrite Hm', elem_of_cons. split; [naive_solver|].
        intros [?|[->|?]]; auto.
    + rewrite filter_cons_True by done. simpl.
      destruct (fn res w) as [err1 w1].
      destruct (IH ({[res]} ∪ m)
                  (match err1, err with Some e1, None => Some e1 | _, _ => err end)
                  w1) as (m' & -> & Hm').
      exists m'. split.
      * rewrite list_filter_filter.
        rewrite (list_filter_iff (λ r, r ∉ {[res]} ∪ m)
                   (λ r, r ∉ m ∧ r ≠ res)); [done|].
        intros r. set_solver.
      * intros r. rewrite Hm', elem_of_cons. set_solver.
  - destruct (IH m err w) as (m' & -> & Hm'). by exists m'.
Qed.

Lemma call_each_app {W} (fn : nat → W → option error * W) rs1 rs2 err w :
  call_each fn (rs1 ++ rs2) err w =
  call_each fn rs2 (call_each fn rs1 err w).1 (call_each fn rs1 err w).2.
Proof.
  revert err w. induction rs1 as [|r rs1 IH]; intros err w; simpl; [done|].
  destruct (fn r w) as [err1 w1]. apply IH.
Qed.

(** With a callback that logs its calls and fails as [errf] says. *)
Lemma call_each_log (errf : nat → option error) rs err (log : list nat) :
  call_each (λ r log, (errf r, log ++ [r])) rs err log =
  (match err with
   | Some _ => err
   | None => head (omap errf rs)
   end, log ++ rs).
Proof.
  revert err log. induction rs as [|r rs IH]; intros err log; simpl.
  - rewrite app_nil_r. by destruct err.
  - rewrite IH, <- app_assoc. simpl. f_equal.
    destruct (errf r), err; done.
Qed.

(** [EachRef] is a run of the callback over the held handles. *)
Lemma EachRef_call_each (e : ExecError) {W}
    (fn : nat → W → option error * W) (w : W) :
  EachRef fn e w = call_each fn (held_refs e) None w.
Proof.
  unfold EachRef, held_refs.
  destruct (EachRef_range_calls fn (Inputs e) ∅ None w) as (m1 & -> & Hm1).
  rewrite (filter_all (λ r, r ∉ ∅))
    by (intros; apply not_elem_of_empty).
  destruct (EachRef_range_calls fn (Mounts e) m1
              (call_each fn (first_mentions (omap id (Inputs e))) None w).1
              (call_each fn (first_mentions (omap id (Inputs e))) None w).2)
    as (m2 & -> & _).
  rewrite omap_app, first_mentions_app, call_each_app.
  rewrite (list_filter_iff (λ r, r ∉ m1) (λ r, r ∉ omap id (Inputs e))).
  - by destruct (call_each _ _ _ _).
  - intros r. rewrite Hm1. set_solver.
Qed.

Lemma held_refs_elem (e : ExecError) r :
  r ∈ held_refs e ↔ Some r ∈ Inputs e ++ Mounts e.
Proof.
  unfold held_refs. rewrite first_mentions_elem, list_elem_of_omap.
  split; [by intros ([x|] & ? & [= <-])|]. intros Hr. by exists (Some r).
Qed.

(** X1. [EachRef] calls the callback once on each non-nil handle, in the
    order of first mention, [Inputs] before [Mounts]; an error of the
    callback does not stop it, and the first such error is returned. *)
Theorem EachRef_calls (e : ExecError) :
  NoDup (held_refs e) ∧
  (∀ r, r ∈ held_refs e ↔ Some r ∈ Inputs e ++ Mounts e) ∧
  (∀ W (fn : nat → W → option error * W) (w : W),
     EachRef fn e w = call_each fn (held_refs e) None w) ∧
  (∀ (errf : nat → option error) (log : list nat),
     EachRef (λ r log, (errf r, log ++ [r])) e log =
       (head (omap errf (held_refs e)), log ++ held_refs e)).
Proof.
  split_and!.
  - apply first_mentions_NoDup.
  - apply held_refs_elem.
  - intros W fn w. apply EachRef_call_each.
  - intros errf log. by rewrite EachRef_call_each, call_each_log.
Qed.

(** [Release] on an unmarked error releases the held handles, in order. *)
Lemma Release_held (e : ExecError) (log : list nat) :
  OwnerBorrowed e = false →
  Release e log =
    (None, mkExecError (error_ e) (Inputs e) (Mounts e) true,
     log ++ held_refs e).
Proof.
  intros Hob. unfold Release. rewrite Hob.
  unfold release_ref.
  rewrite EachRef_call_each, (call_each_log (λ _, None)).
  replace (omap (λ _ : nat, @None error) (held_refs e)) with (@nil error);
    [done|].
  by induction (held_refs e).
Qed.

(** X2. Whatever the flag and however many calls: [Release] called [n]
    times releases the held handles once, in order, if the error was not
    marked and [n] is not 0, and nothing otherwise; it never touches the
    lists or the wrapped error, and after a first call the error is
    marked. *)
Theorem Release_times_releases (e : ExecError) (log : list nat) (n : nat) :
  (Release_times n e log).2 =
    log ++ (if OwnerBorrowed e then []
            else match n with 0 => [] | S _ => held_refs e end) ∧
  Inputs (Release_times n e log).1 = Inputs e ∧
  Mounts (Release_times n e log).1 = Mounts e ∧
  error_ (Release_times n e log).1 = error_ e ∧
  OwnerBorrowed (Release_times n e log).1 =
    match n with 0 => OwnerBorrowed e | S _ => true end.
Proof.
  destruct (OwnerBorrowed e) eqn:Hob.
  - rewrite Release_times_borrowed by done. rewrite app_nil_r.
    split_and!; try done. by destruct n.
  - destruct n as [|n]; simpl; [by rewrite app_nil_r, Hob|].
    rewrite Release_held by done.
    by rewrite Release_times_borrowed.
Qed.

(** X3. Wrapping a non-nil error gives an [ExecError] that unwraps to it,
    holds the inputs and mounts as given and is not marked, whatever the
    context; its [Release] then releases the non-nil handles given, each
    once, in the order of first mention, and returns nil. *)
Theorem WithExecError_wraps (ctx : Context) (err : error)
    (inputs mounts : list (option nat)) :
  WithExecErrorWithContext ctx (Some err) inputs mounts
    = WithExecError (Some err) inputs mounts ∧
  ∃ ee,
    WithExecError (Some err) inputs mounts = Some ee ∧
    Unwrap ee = err ∧ Inputs ee = inputs ∧ Mounts ee = mounts ∧
    OwnerBorrowed ee = false ∧
    ∀ log,
      Release ee log =
        (None, mkExecError err inputs mounts true,
         log ++ first_mentions (omap id (inputs ++ mounts))).
Proof.
  split; [done|]. eexists. split; [reflexivity|].
  split_and!; try done.
  intros log. by rewrite Release_held.
Qed.

Example demo_exec_error_released :
  ∃ ee,
    WithExecError (Some (errors_New "exit code 1"))
      [Some 7; None; Some 3] [Some 3; Some 7; Some 9] = Some ee ∧
    Release ee [] =
      (None,
       mkExecError (errors_New "exit code 1")
         [Some 7; None; Some 3] [Some 3; Some 7; Some 9] true,
       [7; 3; 9]).
Proof. eexists. split; [reflexivity|]. vm_compute. reflexivity. Qed.

End MoreErrdefsFacts.

(* ===================================================================== *)
(** * The order of the queue and the turns of the loop                    *)
(* ===================================================================== *)

Section QueueOrder.
Import solver.
Context {EF IDX : Type} `{!edgeFactory EF} `{!edgeIndex IDX}.
Implicit Types (s : @state EF IDX).

Local Notation M := (@M EF IDX).
Local Notation "x <- c1 ;; c2" := (bind c1 (λ x, c2))
  (at level 100, c1 at next level, right associativity).
Local Notation "c1 ;;; c2" := (bind c1 (λ _, c2))
  (at level 100, right associativity).

Lemma filter_split (P Q R : nat → Prop) `{!∀ x, Decision (P x)}
    `{!∀ x, Decision (Q x)} `{!∀ x, Decision (R x)} (l : list nat) :
  (∀ y, P y ↔ Q y ∧ R y) → filter P l = filter Q (filter R l).
Proof.
  intros Hiff. induction l as [|a l IH]; [done|].
  specialize (Hiff a).
  destruct (decide (R a)) as [Hr|Hr].
  - rewrite (filter_cons_True R) by done.
    destruct (decide (Q a)) as [Hq|Hq].
    + rewrite (filter_cons_True P), (filter_cons_True Q) by tauto.
      by rewrite IH.
    + by rewrite (filter_cons_False P), (filter_cons_False Q) by tauto.
  - by rewrite (filter_cons_False P), (filter_cons_False R) by tauto.
Qed.

Lemma signal_waitq_elem e e' s :
  e' ∈ waitq (signal e s) ↔ e' = e ∨ e' ∈ waitq s.
Proof.
  unfold signal. destruct (decide (e ∈ waitq s)) as [Hin|Hnin].
  - naive_solver.
  - destruct (last _); simpl; set_solver.
Qed.

Lemma signals_reachable es s :
  queue_reachable s → queue_reachable (foldl (λ s x, signal x s) s es).
Proof.
  revert s. induction es as [|x es IH]; intros s Hs; simpl; [done|].
  by apply IH, qr_signal.
Qed.

Lemma signals_waitq es s e :
  e ∈ waitq (foldl (λ s x, signal x s) s es) ↔ e ∈ waitq s ∨ e ∈ es.
Proof.
  revert s. induction es as [|x es IH]; intros s; simpl.
  - set_solver.
  - rewrite IH, signal_waitq_elem, elem_of_cons. naive_solver.
Qed.

Lemma signals_fifo es s :
  queue_reachable s →
  fifo (foldl (λ s x, signal x s) s es)
  = fifo s ++ filter (λ e, e ∉ waitq s) (first_mentions es).
Proof.
  revert s. induction es as [|x es IH]; intros s Hs; simpl.
  - by rewrite filter_nil, app_nil_r.
  - rewrite IH by by apply qr_signal. rewrite fifo_signal by done.
    rewrite <- app_assoc. f_equal.
    rewrite (filter_split (λ e, e ∉ waitq (signal x s))
               (λ e, e ∉ waitq s) (λ y, y ≠ x)).
    2:{ intros y. rewrite signal_waitq_elem. naive_solver. }
    destruct (decide (x ∈ waitq s)) as [Hin|Hnin].
    + by rewrite filter_cons_False by naive_solver.
    + by rewrite filter_cons_True by done.
Qed.

(** X4. The queue is first in, first out: after a burst of signals it
    holds the edges that waited before, followed by the newly signalled
    edges in the order of their first signal, each once; this is the order
    the loop takes them off in, and the edges that wait are those that
    waited or were signalled. *)
Theorem queue_first_in_first_out s es :
  queue_reachable s →
  let s' := foldl (λ s x, signal x s) s es in
  fifo s' = fifo s ++ filter (λ e, e ∉ waitq s) (first_mentions es) ∧
  drain (dispatcher_alloc s') s' = fifo s' ∧
  (∀ e, e ∈ waitq s' ↔ e ∈ waitq s ∨ e ∈ es).
Proof.
  intros Hs s'. split_and!.
  - by apply signals_fifo.
  - destruct (queue_reachable_inv s' (signals_reachable es s Hs)) as [l Hinv].
    rewrite (queue_inv_fifo _ _ Hinv).
    apply drain_fifo; [done|by apply queue_inv_length].
  - intros e. apply signals_waitq.
Qed.

Section Turn.
Variable unpark :
  nat → list nat → list nat → list nat → @state EF IDX → @state EF IDX.
Variable isDep : @state EF IDX → nat → nat → bool.
Variable currentIndexKey : @state EF IDX → nat → option nat.
Variable markFailed : nat → error → @state EF IDX → @state EF IDX.

Local Notation loop_iter := (loop_iter unpark isDep currentIndexKey markFailed).
Local Notation dispatch := (dispatch unpark isDep currentIndexKey markFailed).

(** X5. A turn of the loop never waits while an edge is queued. Once
    stopped, the loop returns. Otherwise, with an empty queue it waits,
    or goes on when the condition variable holds a signal, which it
    consumes; with an edge queued it takes the head off the queue, so
    that the edge may be queued again, and dispatches it. *)
Theorem loop_never_waits_on_queued_edge s :
  queue_reachable s →
  (stopped s = true → loop_iter s = Some (loop_returned, s)) ∧
  (stopped s = false →
   match fifo s with
   | [] =>
       loop_iter s =
         Some (if cond s then (loop_running, set_cond false s)
               else (loop_waiting, s))
   | e :: rest =>
       let s1 := (dequeue s).2 in
       loop_iter s = (dispatch e ;;; ret loop_running) s1 ∧
       fifo s1 = rest ∧
       (∀ e', e' ∈ waitq s1 ↔ e' ∈ waitq s ∧ e' ≠ e) ∧
       cond s1 = cond s
   end).
Proof.
  intros Hs. split.
  { intros Hst. unfold solver.loop_iter, bind, get. by rewrite Hst. }
  intros Hst.
  destruct (fifo_dequeue s Hs) as [Htl Hhd].
  destruct (queue_reachable_inv s Hs) as [l Hinv].
  destruct (dequeue_queue_inv s l Hinv) as (Hl & Hinv' & Hh & _).
  pose proof (queue_inv_fifo _ _ Hinv) as Hfifo.
  unfold solver.loop_iter, bind, get. rewrite Hst.
  destruct l as [|a l].
  - rewrite Hfifo. simpl.
    assert (Hnext : next s = None).
    { destruct Hinv as [Hlk _ _ _]. by inversion Hlk. }
    unfold dequeue. rewrite Hnext. unfold modify, cond_Wait, bind, get, ret.
    by destruct (cond s).
  - rewrite Hfifo. simpl. rewrite Hfifo in Htl. simpl in Htl.
    assert (Hnext : next s = Some a).
    { destruct Hinv as [Hlk _ _ _]. by inversion Hlk. }
    split_and!.
    + destruct (dequeue s) as [o s1]. simpl in *. subst o.
      unfold modify, bind. by rewrite Hh.
    + done.
    + intros e'. unfold dequeue. rewrite Hnext.
      destruct (decide _); simpl; set_solver.
    + unfold dequeue. rewrite Hnext. by destruct (decide _).
Qed.

(** X6. A turn of the loop leaves the queue in order: when unparking an
    edge and marking it failed do, the state after the turn is again a
    state of the scheduler, in which the edges that wait are the queued
    ones, each queued once. *)
Theorem loop_turn_keeps_queue s r s' :
  (∀ e inc updates out s,
     queue_reachable s → queue_reachable (unpark e inc updates out s)) →
  (∀ e x s, queue_reachable s → queue_reachable (markFailed e x s)) →
  queue_reachable s →
  loop_iter s = Some (r, s') →
  queue_reachable s' ∧ (∀ e, e ∈ waitq s' ↔ e ∈ fifo s') ∧ NoDup (fifo s').
Proof.
  intros Hu Hm Hs Hrun.
  assert (Hs' : queue_reachable s')
    by exact (keeps_loop_iter unpark isDep currentIndexKey markFailed
                Hu Hm s r s' Hs Hrun).
  destruct (queue_reachable_inv s' Hs') as [l Hinv].
  rewrite (queue_inv_fifo _ _ Hinv). split_and!; [done|apply Hinv..].
Qed.

End Turn.

End QueueOrder.

Section QueueOrderDemo.
Import solver demo.

Lemma exec_reachable {A} (c : @M graph (gmap nat nat) A) (s : demo_state) :
  (∀ s a s', queue_reachable s → c s = Some (a, s') → queue_reachable s') →
  queue_reachable s → queue_reachable (exec c s).
Proof.
  intros Hc Hs. unfold exec. destruct (c s) as [[a s']|] eqn:Hrun; eauto.
Qed.

Lemma demo_running_reachable : queue_reachable demo_running.
Proof.
  unfold demo_running.
  repeat (apply exec_reachable;
          [apply keeps_newPipe || apply keeps_build_enter|]).
  apply qr_new.
Qed.

Lemma demo_unpark_reachable e inc updates out (s : demo_state) :
  queue_reachable s → queue_reachable (demo_unpark e inc updates out s).
Proof. done. Qed.

Lemma demo_markFailed_reachable e x (s : demo_state) :
  queue_reachable s → queue_reachable (demo_markFailed e x s).
Proof. intros Hs. apply (qr_other s); [done|by repeat split]. Qed.

(** C, A, C again and S are signalled while A and B wait. *)
Lemma queue_first_in_first_out_witness :
  let s := signal 2 (signal 1 demo_init) in
  let s' := foldl (λ s x, signal x s) s [3; 1; 3; 4] in
  fifo s' = fifo s ++ filter (λ e, e ∉ waitq s) (first_mentions [3; 1; 3; 4]) ∧
  drain (dispatcher_alloc s') s' = fifo s' ∧
  (∀ e, e ∈ waitq s' ↔ e ∈ waitq s ∨ e ∈ [3; 1; 3; 4]).
Proof.
  exact (queue_first_in_first_out (signal 2 (signal 1 demo_init)) [3; 1; 3; 4]
           demo_signalled_reachable).
Defined.

Example demo_burst_fifo :
  fifo (foldl (λ s x, signal x s) (signal 2 (signal 1 demo_init)) [3; 1; 3; 4])
  = [1; 2; 3; 4].
Proof. vm_compute. reflexivity. Qed.

Lemma loop_never_waits_on_queued_edge_witness :
  fifo demo_running = [1; 2; 3] ∧
  loop_iter demo_unpark demo_isDep demo_currentIndexKey demo_markFailed
    demo_running
  = bind (dispatch demo_unpark demo_isDep demo_currentIndexKey
            demo_markFailed 1) (λ _, ret loop_running) (dequeue demo_running).2 ∧
  fifo (dequeue demo_running).2 = [2; 3].
Proof.
  pose proof (proj2 (loop_never_waits_on_queued_edge demo_unpark demo_isDep
                       demo_currentIndexKey demo_markFailed demo_running
                       demo_running_reachable))
    as Hthm.
  assert (Hfifo : fifo demo_running = [1; 2; 3]) by (vm_compute; reflexivity).
  rewrite Hfifo in Hthm.
  destruct Hthm as (Hrun & Hrest & _ & _).
  - vm_compute. reflexivity.
  - split_and!; [reflexivity|exact Hrun|exact Hrest].
Defined.

Lemma loop_turn_keeps_queue_witness :
  queue_reachable demo_after_turn ∧
  (∀ e, e ∈ waitq demo_after_turn ↔ e ∈ fifo demo_after_turn) ∧
  NoDup (fifo demo_after_turn).
Proof.
  assert (Hrun : loop_iter demo_unpark demo_isDep demo_currentIndexKey
                   demo_markFailed demo_running
                 = Some (loop_running, demo_after_turn))
    by (vm_compute; reflexivity).
  exact (loop_turn_keeps_queue demo_unpark demo_isDep demo_currentIndexKey
           demo_markFailed demo_running loop_running demo_after_turn
           demo_unpark_reachable demo_markFailed_reachable
           demo_running_reachable Hrun).
Defined.

Example demo_after_turn_fifo : fifo demo_after_turn = [2; 3].
Proof. vm_compute. reflexivity. Qed.

End QueueOrderDemo.

(* ===================================================================== *)
(** * The pipe maps stay in order                                         *)
(* ===================================================================== *)

Section Wiring.
Import solver.
Context {EF IDX : Type} `{!edgeFactory EF} `{!edgeIndex IDX}.
Implicit Types (s : @state EF IDX).

Local Notation M := (@M EF IDX).
Local Notation "x <- c1 ;; c2" := (bind c1 (λ x, c2))
  (at level 100, c1 at next level, right associativity).
Local Notation "c1 ;;; c2" := (bind c1 (λ _, c2))
  (at level 100, right associativity).

(** A computation keeps a property of the state. *)
Local Notation preserves P c :=
  (∀ s a s', P s → c s = Some (a, s') → P s').

Section Preserves.
Variable P : @state EF IDX → Prop.

Lemma preserves_bind {A B} (c : M A) (k : A → M B) :
  preserves P c → (∀ a, preserves P (k a)) → preserves P (bind c k).
Proof.
  intros Hc Hk s b s' Hs Hrun.
  apply bind_Some in Hrun as (a & s1 & Ha & Hb). eauto.
Qed.

Lemma preserves_ret {A} (a : A) : preserves P (ret a : M A).
Proof. by intros s ? s' Hs [= _ <-]. Qed.

Lemma preserves_get : preserves P (get : M _).
Proof. by intros s ? s' Hs [= _ <-]. Qed.

Lemma preserves_modify (f : @state EF IDX → @state EF IDX) :
  (∀ s, P s → P (f s)) → preserves P (modify f).
Proof. intros Hf s ? s' Hs [= _ <-]. auto. Qed.

Lemma preserves_forM_ {A} (l : list A) (f : A → M unit) :
  (∀ a, preserves P (f a)) → preserves P (forM_ l f).
Proof.
  intros Hf. induction l as [|a l IH]; simpl.
  - apply preserves_ret.
  - apply preserves_bind; [apply Hf|done].
Qed.

Lemma preserves_forM_i {A} (l : list A) (f : nat → A → M unit) i :
  (∀ i a, preserves P (f i a)) → preserves P (forM_i i l f).
Proof.
  intros Hf. revert i. induction l as [|a l IH]; intros i; simpl.
  - apply preserves_ret.
  - apply preserves_bind; [apply Hf|intros _; apply IH].
Qed.

End Preserves.

(** The third loop of [mergeTo] keeps what a write to an edge keeps. *)
Lemma preserves_mergeTo_deps (P : @state EF IDX → Prop) target src ds i :
  (∀ e f s, P s → P (upd_edge e f s)) →
  preserves P (forM_i i ds (mergeTo_dep target src)).
Proof.
  intros Hedge.
  assert (Hadd : ∀ x, preserves P (add_secondaryExporter target x : M unit)).
  { intros x s [] s' Hs [= <-]. by apply Hedge. }
  assert (Hsel : ∀ j x,
    preserves P
      (sel <- dep_Selector src j ;;
       add_secondaryExporter target
         (mkExpDep j (mkCacheKeyWithSelector sel x)))).
  { intros j x s [] s' Hs Hrun.
    apply bind_Some in Hrun as (sel & s1 & Hs1 & Hrun).
    apply dep_Selector_Some in Hs1 as [-> _]. by eapply Hadd. }
  apply (preserves_forM_i P). intros j d.
  unfold mergeTo_dep. apply (preserves_bind P).
  { apply (preserves_forM_ P). intros k. apply Hsel. }
  intros _. apply (preserves_bind P).
  { destruct (slowCacheKey d); [apply Hadd|apply (preserves_ret P)]. }
  intros _. destruct (result d); [|apply (preserves_ret P)].
  apply (preserves_forM_ P). intros k. apply Hsel.
Qed.

(** *** What the callbacks leave alone, beyond the frame *)

Lemma Receive_local p s b s' :
  Receive p s = Some (b, s') →
  pipe_alloc s' = pipe_alloc s ∧ stopped s' = stopped s ∧
  ∀ q, q ≠ p → pipes s' q = pipes s q.
Proof.
  unfold Receive, bind, get, modify, ret.
  destruct (decide _); intros [= <- <-]; [done|].
  split_and!; [done..|]. intros q Hq. simpl. by rewrite fn_lookup_alter_ne.
Qed.

Lemma Receive_same_queue p s b s' :
  Receive p s = Some (b, s') → same_queue s s'.
Proof.
  unfold Receive, bind, get, modify, ret.
  destruct (decide _); intros [= <- <-]; by repeat split.
Qed.

Lemma signal_local e s :
  pipe_alloc (signal e s) = pipe_alloc s ∧ stopped (signal e s) = stopped s ∧
  pipes (signal e s) = pipes s.
Proof.
  unfold signal. destruct (decide (e ∈ waitq s)); [done|].
  simpl. by destruct (last s).
Qed.

Lemma fire_local cb p s s' :
  fire cb p s = Some (tt, s') →
  pipe_alloc s' = pipe_alloc s ∧ stopped s' = stopped s ∧
  ∀ q, q ≠ p → pipes s' q = pipes s q.
Proof.
  destruct cb as [[]|]; simpl.
  - unfold bind, get, modify. destruct (From _) as [e|]; [|done].
    intros [= <-]. destruct (signal_local e s) as (-> & -> & ->). done.
  - unfold bind, get, modify. destruct (Target _) as [e|]; [|done].
    intros [= <-]. destruct (signal_local e s) as (-> & -> & ->). done.
  - intros Hrun. apply bind_Some in Hrun as (b & s1 & Hrecv & Hrun).
    apply Receive_local in Hrecv as (Ha & Hst & Hp).
    unfold bind, get, modify, ret, panic in Hrun.
    destruct (Completed _); [|by injection Hrun as <-].
    destruct (decide _); [done|]. by injection Hrun as <-.
  - by intros [= <-].
Qed.

Lemma Cancel_local p s s' :
  Cancel p s = Some (tt, s') →
  pipe_alloc s' = pipe_alloc s ∧ stopped s' = stopped s ∧
  ∀ q, q ≠ p → pipes s' q = pipes s q.
Proof.
  unfold Cancel. intros Hrun.
  apply bind_Some in Hrun as (s0 & ? & [= <- <-] & Hrun).
  destruct (Canceled (Request (pipes s p))); [by injection Hrun as <-|].
  apply bind_Some in Hrun as ([] & s1 & [= <-] & Hrun).
  apply bind_Some in Hrun as (? & ? & [= <- <-] & Hrun).
  apply bind_Some in Hrun as ([] & s2 & Hf1 & Hrun).
  apply bind_Some in Hrun as (? & ? & [= <- <-] & Hf2).
  apply fire_local in Hf1 as (Ha1 & Hs1 & Hp1).
  apply fire_local in Hf2 as (Ha2 & Hs2 & Hp2).
  split_and!.
  - by rewrite Ha2, Ha1.
  - by rewrite Hs2, Hs1.
  - intros q Hq. rewrite Hp2, Hp1 by done. simpl.
    by rewrite fn_lookup_alter_ne.
Qed.

(** *** Steps that leave the wiring alone *)

Lemma dequeue_wiring s :
  incoming (dequeue s).2 = incoming s ∧ outgoing (dequeue s).2 = outgoing s ∧
  pipe_alloc (dequeue s).2 = pipe_alloc s ∧ pipes (dequeue s).2 = pipes s.
Proof.
  unfold dequeue. destruct (next s); [|done]. simpl. by destruct (decide _).
Qed.

Lemma wired_frame s s' :
  incoming s' = incoming s → outgoing s' = outgoing s →
  pipe_alloc s' = pipe_alloc s →
  (∀ q, Target (pipes s' q) = Target (pipes s q)) →
  (∀ q, From (pipes s' q) = From (pipes s q)) →
  wired s → wired s'.
Proof.
  intros Hi Ho Ha Ht Hf [W1 W2 W3 W4].
  split; intros e; rewrite ?Hi, ?Ho; [| |done..];
    intros p Hp; rewrite ?Ht, ?Hf, Ha; auto.
Qed.

Lemma no_empty_slice_frame s s' :
  incoming s' = incoming s → outgoing s' = outgoing s →
  no_empty_slice s → no_empty_slice s'.
Proof. intros Hi Ho Hs e. rewrite Hi, Ho. apply Hs. Qed.

(** *** No empty slice is left behind *)

Lemma nes_append_in k p s :
  no_empty_slice s → no_empty_slice (set_incoming (append_at k p) s).
Proof.
  intros Hs e. split; [|apply Hs]. simpl. unfold append_at.
  destruct (decide (k = e)) as [->|Hne].
  - rewrite lookup_insert_eq. intros [= Heq]. by destruct (slice_at _ _).
  - rewrite lookup_insert_ne by done. apply Hs.
Qed.

Lemma nes_append_out k p s :
  no_empty_slice s → no_empty_slice (set_outgoing (append_at k p) s).
Proof.
  intros Hs e. split; [apply Hs|]. simpl. unfold append_at.
  destruct (decide (k = e)) as [->|Hne].
  - rewrite lookup_insert_eq. intros [= Heq]. by destruct (slice_at _ _).
  - rewrite lookup_insert_ne by done. apply Hs.
Qed.

Lemma nes_delete_in k s :
  no_empty_slice s → no_empty_slice (set_incoming (delete k) s).
Proof.
  intros Hs e. split; [|apply Hs]. simpl.
  destruct (decide (k = e)) as [->|Hne].
  - by rewrite lookup_delete_eq.
  - rewrite lookup_delete_ne by done. apply Hs.
Qed.

Lemma nes_delete_out k s :
  no_empty_slice s → no_empty_slice (set_outgoing (delete k) s).
Proof.
  intros Hs e. split; [apply Hs|]. simpl.
  destruct (decide (k = e)) as [->|Hne].
  - by rewrite lookup_delete_eq.
  - rewrite lookup_delete_ne by done. apply Hs.
Qed.

Lemma nes_insert_in k (l : list nat) s :
  0 <? length l = true →
  no_empty_slice s → no_empty_slice (set_incoming <[k := l]> s).
Proof.
  intros Hl Hs e. split; [|apply Hs]. simpl.
  destruct (decide (k = e)) as [->|Hne].
  - rewrite lookup_insert_eq. intros [= ->]. done.
  - rewrite lookup_insert_ne by done. apply Hs.
Qed.

Lemma nes_insert_out k (l : list nat) s :
  0 <? length l = true →
  no_empty_slice s → no_empty_slice (set_outgoing <[k := l]> s).
Proof.
  intros Hl Hs e. split; [apply Hs|]. simpl.
  destruct (decide (k = e)) as [->|Hne].
  - rewrite lookup_insert_eq. intros [= ->]. done.
  - rewrite lookup_insert_ne by done. apply Hs.
Qed.

Lemma nes_signal e s : no_empty_slice s → no_empty_slice (signal e s).
Proof.
  apply no_empty_slice_frame; apply (signal_frame e s).
Qed.

Lemma nes_Cancel p : preserves no_empty_slice (Cancel p).
Proof.
  intros s [] s' Hs [Hfr _]%Cancel_frame.
  eapply no_empty_slice_frame; [apply Hfr..|done].
Qed.

Lemma nes_newPipe target from req :
  preserves no_empty_slice (newPipe target from req).
Proof.
  intros s p s' Hs. unfold newPipe, bind, get, modify, ret.
  destruct from as [f|]; intros [= _ <-].
  - apply (nes_append_in target), (nes_append_out f), nes_signal, Hs.
  - apply (nes_append_in target), nes_signal, Hs.
Qed.

Lemma nes_build_enter edge : preserves no_empty_slice (build_enter edge).
Proof.
  intros s r s' Hs. unfold build_enter. intros Hrun.
  apply bind_Some in Hrun as (? & ? & [= <- <-] & Hrun).
  destruct (getEdge _ _) as [e|]; [|by injection Hrun as _ <-].
  apply bind_Some in Hrun as (p & s1 & Hnew & [= _ <-]).
  by apply nes_newPipe in Hnew.
Qed.

Lemma nes_dispatch_prune e : preserves no_empty_slice (dispatch_prune e).
Proof.
  intros s r s' Hs Hrun. unfold dispatch_prune in Hrun.
  apply bind_Some in Hrun as (? & ? & [= <- <-] & Hrun).
  apply bind_Some in Hrun as ([] & s1 & Hin & Hrun).
  apply bind_Some in Hrun as (? & ? & [= <- <-] & Hrun).
  apply bind_Some in Hrun as ([] & s2 & Hout & [= _ <-]).
  assert (Hs1 : no_empty_slice s1).
  { destruct (0 <? _) eqn:Hi in Hin; injection Hin as <-.
    - by apply nes_insert_in.
    - by apply nes_delete_in. }
  destruct (0 <? _) eqn:Ho in Hout; injection Hout as <-.
  - by apply nes_insert_out.
  - by apply nes_delete_out.
Qed.

Lemma nes_mergeTo target src : preserves no_empty_slice (mergeTo target src).
Proof.
  unfold mergeTo. apply preserves_bind; [apply preserves_get|]. intros s0.
  destruct (_ || _); [apply preserves_ret|].
  destruct (_ && _); [apply preserves_ret|].
  apply preserves_bind.
  { apply preserves_forM_. intros inc s [] s' Hs [= <-].
    by apply nes_append_in. }
  intros _. apply preserves_bind; [apply preserves_get|]. intros s1.
  apply preserves_bind.
  { apply preserves_forM_. intros out.
    apply preserves_bind; [by intros s [] s' Hs [= <-]|]. intros _.
    apply preserves_bind; [|intros _; apply nes_Cancel].
    intros s [] s' Hs [= <-]. by apply nes_append_out. }
  intros _. apply preserves_bind.
  { intros s [] s' Hs [= <-]. by apply nes_delete_in. }
  intros _. apply preserves_bind.
  { intros s [] s' Hs [= <-]. by apply nes_delete_out. }
  intros _. apply preserves_bind.
  { intros s [] s' Hs [= <-]. by apply nes_signal. }
  intros _. apply preserves_bind; [apply preserves_get|]. intros s2.
  apply preserves_bind; [|intros _; apply preserves_ret].
  apply preserves_mergeTo_deps. by intros e f s Hs.
Qed.

Section NesRequests.
Variable NewWithFunction : request_func → edgePipe.

Lemma nes_newRequestWithFunc e f :
  preserves no_empty_slice (newRequestWithFunc NewWithFunction e f).
Proof.
  intros s r s' Hs. unfold newRequestWithFunc, bind, get, modify, ret.
  intros [= _ <-]. by apply (nes_append_out e).
Qed.

Lemma nes_NewInputRequest pf_e ee req :
  preserves no_empty_slice (NewInputRequest NewWithFunction pf_e ee req).
Proof.
  intros s r s' Hs. unfold NewInputRequest. intros Hrun.
  apply bind_Some in Hrun as (? & ? & [= <- <-] & Hrun).
  destruct (getEdge _ _) as [target|].
  - apply bind_Some in Hrun as (p & s1 & Hnew & [= _ <-]).
    by apply nes_newPipe in Hnew.
  - apply bind_Some in Hrun as (p & s1 & Hnew & [= _ <-]).
    by apply nes_newRequestWithFunc in Hnew.
Qed.

End NesRequests.

(** *** A turn of the loop keeps what its parts keep *)

Section Turns.
Variable P : @state EF IDX → Prop.
Variable unpark :
  nat → list nat → list nat → list nat → @state EF IDX → @state EF IDX.
Variable isDep : @state EF IDX → nat → nat → bool.
Variable currentIndexKey : @state EF IDX → nat → option nat.
Variable markFailed : nat → error → @state EF IDX → @state EF IDX.

(** [P] looks at the pipe maps, the endpoints of the pipes, the
    allocation mark and the queue only. *)
Hypothesis P_frame : ∀ s s',
  incoming s' = incoming s → outgoing s' = outgoing s →
  pipe_alloc s' = pipe_alloc s →
  (∀ q, Target (pipes s' q) = Target (pipes s q)) →
  (∀ q, From (pipes s' q) = From (pipes s q)) →
  same_queue s s' →
  P s → P s'.
Hypothesis P_dequeue : ∀ s, P s → P (dequeue s).2.
Hypothesis P_prune : ∀ e, preserves P (dispatch_prune e).
Hypothesis P_mergeTo : ∀ target src, preserves P (mergeTo target src).
Hypothesis P_unpark : ∀ e inc updates out s,
  P s → P (unpark e inc updates out s).
Hypothesis P_markFailed : ∀ e x s, P s → P (markFailed e x s).

Lemma turn_Receive p : preserves P (Receive p).
Proof using P_frame.
  intros s b s' Hs Hrun. pose proof (Receive_frame _ _ _ _ Hrun) as Hfr.
  pose proof (Receive_same_queue _ _ _ _ Hrun) as Hsq.
  apply Receive_local in Hrun as (Ha & _ & _).
  apply (P_frame s s');
    [apply Hfr|apply Hfr|done|apply Hfr|apply Hfr|done|done].
Qed.

Lemma turn_dispatch_receive e out acc :
  preserves P (dispatch_receive e out acc).
Proof using P_frame.
  revert acc. induction out as [|p out IH]; intros acc; simpl.
  - apply preserves_ret.
  - apply preserves_bind; [apply turn_Receive|]. intros ok.
    apply preserves_bind; [apply preserves_get|]. intros s1.
    apply preserves_bind; [|intros _; apply IH].
    destruct (Completed _); [apply preserves_ret|].
    intros s2 u s3 Hs2 [= _ <-]. by apply (P_frame s2).
Qed.

Lemma turn_dispatch e :
  preserves P (dispatch unpark isDep currentIndexKey markFailed e).
Proof using P_frame P_prune P_mergeTo P_unpark P_markFailed.
  unfold dispatch. apply preserves_bind.
  { unfold dispatch_unpark. intros s u s' Hs Hrun.
    apply bind_Some in Hrun as (? & ? & [= <- <-] & Hrun).
    apply bind_Some in Hrun as ([] & s1 & [= <-] & Hrun).
    apply bind_Some in Hrun as (updates & s2 & Hrecv & [= _ <-]).
    apply P_unpark. eapply turn_dispatch_receive; [|exact Hrecv].
    by apply (P_frame s). }
  intros _. apply preserves_bind; [apply P_prune|].
  intros open. apply preserves_bind.
  { intros s u s' Hs. unfold dispatch_merge. intros Hrun.
    apply bind_Some in Hrun as (? & ? & [= <- <-] & Hrun).
    destruct (keysDidChange _); [|by injection Hrun as _ <-].
    apply bind_Some in Hrun as ([] & s1 & Hrun & [= _ <-]).
    assert (P s1); [|by apply (P_frame s1)].
    destruct (currentIndexKey s e) as [k|]; [|by injection Hrun as <-].
    destruct (LoadOrStore k e (index s)) as [origEdge idx].
    apply bind_Some in Hrun as ([] & s2 & [= <-] & Hrun).
    assert (Hs2 : P (set_index idx s)) by by apply (P_frame s).
    destruct origEdge as [origEdge|]; [|by injection Hrun as <-].
    apply bind_Some in Hrun as (? & ? & [= <- <-] & Hrun).
    destruct (_ || _); [by injection Hrun as <-|].
    destruct (merge_roles _ e origEdge) as [dest src].
    apply bind_Some in Hrun as (ok & s3 & Hmerge & Hrun).
    apply P_mergeTo in Hmerge; [|done].
    destruct ok; [|by injection Hrun as <-].
    unfold bind, get, modify in Hrun. injection Hrun as <-.
    by apply (P_frame s3). }
  intros _ s u s' Hs. rewrite dispatch_validate_cases. intros [= _ <-].
  destruct open.1, open.2; auto.
Qed.

Lemma turn_loop_iter :
  preserves P (loop_iter unpark isDep currentIndexKey markFailed).
Proof using P_frame P_dequeue P_prune P_mergeTo P_unpark P_markFailed.
  intros s r s' Hs. unfold loop_iter. intros Hrun.
  apply bind_Some in Hrun as (? & ? & [= <- <-] & Hrun).
  destruct (stopped s); [by injection Hrun as _ <-|].
  pose proof (P_dequeue s Hs) as Hdq.
  destruct (dequeue s) as [l s1]. simpl in Hdq.
  apply bind_Some in Hrun as ([] & ? & [= <-] & Hrun).
  destruct l as [l|].
  - apply bind_Some in Hrun as ([] & s2 & Hdisp & [= _ <-]).
    by eapply turn_dispatch.
  - unfold cond_Wait, bind, get, modify, ret in Hrun.
    destruct (cond s1); injection Hrun as _ <-; [by apply (P_frame s1)|done].
Qed.

End Turns.

(** *** New pipes *)

(** What [newPipe] does to the state. *)
Lemma newPipe_wiring target from req s p s' :
  newPipe target from req s = Some (p, s') →
  p = pipe_alloc s ∧ pipe_alloc s' = S p ∧
  incoming s' = append_at target p (incoming s) ∧
  outgoing s' = match from with
                | Some f => append_at f p (outgoing s)
                | None => outgoing s
                end ∧
  pipes s' p =
    set_OnReceiveCompletion (Some cb_signal_Target)
      (match from with
       | Some _ => set_OnSendCompletion (Some cb_signal_From)
       | None => id
       end (pipe_New req (Some target) from)) ∧
  (∀ q, q ≠ p → pipes s' q = pipes s q) ∧
  stopped s' = stopped s ∧ edges s' = edges s ∧ ef s' = ef s ∧
  index s' = index s ∧
  (∀ e, e ∈ waitq s' ↔ e = target ∨ e ∈ waitq s).
Proof.
  unfold newPipe, bind, get, modify, ret.
  set (s1 := set_pipes _ (set_pipe_alloc _ s)).
  pose proof (signal_frame target s1) as Hfr.
  destruct (signal_local target s1) as (Ha & Hst & Hp).
  assert (Hq : ∀ e, e ∈ waitq (signal target s1) ↔ e = target ∨ e ∈ waitq s).
  { intros e. by rewrite signal_waitq_elem. }
  destruct from as [f|]; intros [= <- <-]; simpl;
    rewrite ?fn_lookup_alter, Hp, Ha, Hst, (cf_incoming _ _ Hfr),
      (cf_outgoing _ _ Hfr), (cf_edges _ _ Hfr), (cf_ef _ _ Hfr),
      (cf_index _ _ Hfr); unfold s1; simpl; rewrite fn_lookup_insert;
    (split_and!; try done; intros q Hne;
     rewrite ?fn_lookup_alter_ne by done; by rewrite fn_lookup_insert_ne).
Qed.

(** A fresh pipe, entered in the maps under its endpoints, leaves the
    maps in order. *)
Lemma wired_new_pipe s s' p (tgt from : option nat) :
  wired s → p = pipe_alloc s → pipe_alloc s' = S p →
  incoming s' = match tgt with
                | Some t => append_at t p (incoming s)
                | None => incoming s
                end →
  outgoing s' = match from with
                | Some f => append_at f p (outgoing s)
                | None => outgoing s
                end →
  Target (pipes s' p) = tgt → From (pipes s' p) = from →
  (∀ q, q ≠ p → pipes s' q = pipes s q) →
  wired s'.
Proof.
  intros [W1 W2 W3 W4] -> Ha Hi Ho Ht Hf Hq.
  assert (Hfresh_i : ∀ e q, q ∈ slice_at (incoming s) e → q ≠ pipe_alloc s).
  { intros e q Hin. destruct (W1 e q Hin). lia. }
  assert (Hfresh_o : ∀ e q, q ∈ slice_at (outgoing s) e → q ≠ pipe_alloc s).
  { intros e q Hin. destruct (W2 e q Hin). lia. }
  assert (Hslice : ∀ (m : gmap nat (list nat)) k p e,
    slice_at (append_at k p m) e
    = if decide (k = e) then slice_at m e ++ [p] else slice_at m e).
  { intros m k p e. unfold append_at, slice_at at 1.
    destruct (decide (k = e)) as [->|Hne].
    - by rewrite lookup_insert_eq.
    - by rewrite lookup_insert_ne. }
  assert (Hold_i : ∀ e q, q ∈ slice_at (incoming s) e →
    Target (pipes s' q) = Some e ∧ q < pipe_alloc s').
  { intros e q Hin. destruct (W1 e q Hin) as [HT Hlt].
    rewrite Hq by eauto. split; [done|lia]. }
  assert (Hold_o : ∀ e q, q ∈ slice_at (outgoing s) e →
    From (pipes s' q) = Some e ∧ q < pipe_alloc s').
  { intros e q Hin. destruct (W2 e q Hin) as [HT Hlt].
    rewrite Hq by eauto. split; [done|lia]. }
  split.
  - intros e q. rewrite Hi. destruct tgt as [t|]; [|by apply Hold_i].
    rewrite Hslice. destruct (decide (t = e)) as [->|Hne]; [|by apply Hold_i].
    rewrite elem_of_app, list_elem_of_singleton.
    intros [Hin| ->]; [by apply Hold_i|]. split; [done|lia].
  - intros e q. rewrite Ho. destruct from as [f|]; [|by apply Hold_o].
    rewrite Hslice. destruct (decide (f = e)) as [->|Hne]; [|by apply Hold_o].
    rewrite elem_of_app, list_elem_of_singleton.
    intros [Hin| ->]; [by apply Hold_o|]. split; [done|lia].
  - intros e. rewrite Hi. destruct tgt as [t|]; [|done].
    rewrite Hslice. destruct (decide (t = e)) as [->|Hne]; [|done].
    apply NoDup_app. split_and!; [done| |apply NoDup_singleton].
    intros q Hin ->%list_elem_of_singleton. by eapply Hfresh_i.
  - intros e. rewrite Ho. destruct from as [f|]; [|done].
    rewrite Hslice. destruct (decide (f = e)) as [->|Hne]; [|done].
    apply NoDup_app. split_and!; [done| |apply NoDup_singleton].
    intros q Hin ->%list_elem_of_singleton. by eapply Hfresh_o.
Qed.

Lemma wired_newPipe target from req : preserves wired (newPipe target from req).
Proof.
  intros s p s' Hs Hrun.
  apply newPipe_wiring in Hrun as (Hp & Ha & Hi & Ho & Hpp & Hq & _).
  apply (wired_new_pipe s s' p (Some target) from); try done.
  - rewrite Hpp. by destruct from.
  - rewrite Hpp. by destruct from.
Qed.

Lemma wired_build_enter edge : preserves wired (build_enter edge).
Proof.
  intros s r s' Hs. unfold build_enter. intros Hrun.
  apply bind_Some in Hrun as (? & ? & [= <- <-] & Hrun).
  destruct (getEdge _ _) as [e|]; [|by injection Hrun as _ <-].
  apply bind_Some in Hrun as (p & s1 & Hnew & [= _ <-]).
  apply wired_newPipe in Hnew; [|done].
  apply (wired_frame s1); try done; intros q; simpl;
    (destruct (decide (p = q)) as [->|];
     [by rewrite fn_lookup_alter|by rewrite fn_lookup_alter_ne]).
Qed.

Section WiredRequests.
Variable NewWithFunction : request_func → edgePipe.

(** What [newRequestWithFunc] does to the state. *)
Lemma newRequestWithFunc_wiring e f s r s' :
  newRequestWithFunc NewWithFunction e f s = Some (r, s') →
  r = (pipe_alloc s, f) ∧ pipe_alloc s' = S (pipe_alloc s) ∧
  incoming s' = incoming s ∧
  outgoing s' = append_at e (pipe_alloc s) (outgoing s) ∧
  pipes s' (pipe_alloc s) =
    set_OnSendCompletion (Some cb_signal_From)
      (set_From (Some e) (set_Target None (NewWithFunction f))) ∧
  (∀ q, q ≠ pipe_alloc s → pipes s' q = pipes s q) ∧
  stopped s' = stopped s ∧ edges s' = edges s ∧ ef s' = ef s ∧
  index s' = index s ∧ same_queue s s'.
Proof.
  unfold newRequestWithFunc, bind, get, modify, ret. intros [= <- <-]. simpl.
  rewrite fn_lookup_alter, fn_lookup_insert.
  split_and!; try done. intros q Hne.
  rewrite fn_lookup_alter_ne by done. by rewrite fn_lookup_insert_ne.
Qed.

Lemma wired_newRequestWithFunc e f :
  preserves wired (newRequestWithFunc NewWithFunction e f).
Proof.
  intros s r s' Hs Hrun.
  apply newRequestWithFunc_wiring in Hrun
    as (_ & Ha & Hi & Ho & Hpp & Hq & _).
  apply (wired_new_pipe s s' (pipe_alloc s) None (Some e)); try done;
    by rewrite Hpp.
Qed.

Lemma wired_NewInputRequest pf_e ee req :
  preserves wired (NewInputRequest NewWithFunction pf_e ee req).
Proof.
  intros s r s' Hs. unfold NewInputRequest. intros Hrun.
  apply bind_Some in Hrun as (? & ? & [= <- <-] & Hrun).
  destruct (getEdge _ _) as [target|].
  - apply bind_Some in Hrun as (p & s1 & Hnew & [= _ <-]).
    by apply wired_newPipe in Hnew.
  - apply bind_Some in Hrun as (p & s1 & Hnew & [= _ <-]).
    by apply wired_newRequestWithFunc in Hnew.
Qed.

End WiredRequests.

Lemma wired_dispatch_prune e : preserves wired (dispatch_prune e).
Proof.
  assert (Hins_i : ∀ s k (f : nat → Prop) `{!∀ x, Decision (f x)},
    wired s →
    wired (set_incoming <[k := filter f (slice_at (incoming s) k)]> s)).
  { intros s k f ? [W1 W2 W3 W4]. split; [|done| |done]; intros a; simpl;
      unfold slice_at at 1;
      (destruct (decide (k = a)) as [->|Hne];
       [rewrite lookup_insert_eq|rewrite lookup_insert_ne by done]); simpl.
    - intros p [_ Hp]%list_elem_of_filter. auto.
    - apply W1.
    - by apply NoDup_filter.
    - apply W3. }
  assert (Hins_o : ∀ s k (f : nat → Prop) `{!∀ x, Decision (f x)},
    wired s →
    wired (set_outgoing <[k := filter f (slice_at (outgoing s) k)]> s)).
  { intros s k f ? [W1 W2 W3 W4]. split; [done| |done|]; intros a; simpl;
      unfold slice_at at 1;
      (destruct (decide (k = a)) as [->|Hne];
       [rewrite lookup_insert_eq|rewrite lookup_insert_ne by done]); simpl.
    - intros p [_ Hp]%list_elem_of_filter. auto.
    - apply W2.
    - by apply NoDup_filter.
    - apply W4. }
  assert (Hdel_i : ∀ s k, wired s → wired (set_incoming (delete k) s)).
  { intros s k [W1 W2 W3 W4]. split; [|done| |done]; intros a; simpl;
      unfold slice_at at 1;
      (destruct (decide (k = a)) as [->|Hne];
       [rewrite lookup_delete_eq|rewrite lookup_delete_ne by done]); simpl.
    - by intros p ?%elem_of_nil.
    - apply W1.
    - constructor.
    - apply W3. }
  assert (Hdel_o : ∀ s k, wired s → wired (set_outgoing (delete k) s)).
  { intros s k [W1 W2 W3 W4]. split; [done| |done|]; intros a; simpl;
      unfold slice_at at 1;
      (destruct (decide (k = a)) as [->|Hne];
       [rewrite lookup_delete_eq|rewrite lookup_delete_ne by done]); simpl.
    - by intros p ?%elem_of_nil.
    - apply W2.
    - constructor.
    - apply W4. }
  intros s r s' Hs Hrun. unfold dispatch_prune in Hrun.
  apply bind_Some in Hrun as (? & ? & [= <- <-] & Hrun).
  apply bind_Some in Hrun as ([] & s1 & Hin & Hrun).
  apply bind_Some in Hrun as (? & ? & [= <- <-] & Hrun).
  apply bind_Some in Hrun as ([] & s2 & Hout & [= _ <-]).
  assert (Hs1 : wired s1).
  { destruct (0 <? _) in Hin; injection Hin as <-.
    - by apply Hins_i.
    - by apply Hdel_i. }
  destruct (0 <? _) in Hout; injection Hout as <-.
  - by apply Hins_o.
  - by apply Hdel_o.
Qed.

(** *** mergeTo, pipe by pipe *)

(** The first loop changes the target of the pipes it visits and
    nothing else of the pipes. *)
Lemma mergeTo_incoming_rest target l s s' :
  forM_ l (λ inc,
    modify (upd_pipe inc (set_Target (Some target))) ;;;
    modify (set_incoming (append_at target inc))) s = Some (tt, s') →
  (∀ q, pipes s' q = if decide (q ∈ l)
                     then set_Target (Some target) (pipes s q)
                     else pipes s q) ∧
  pipe_alloc s' = pipe_alloc s ∧ stopped s' = stopped s.
Proof.
  intros Hrun.
  pose (I := λ (seen : list nat) (s' : @state EF IDX),
    (∀ q, pipes s' q = if decide (q ∈ seen)
                       then set_Target (Some target) (pipes s q)
                       else pipes s q) ∧
    pipe_alloc s' = pipe_alloc s ∧ stopped s' = stopped s).
  refine (forM_inv I l _ s s' _ _ Hrun); unfold I; clear I Hrun.
  - intros seen inc s1 s2 (Hp & Ha & Hst) [= <-]. simpl.
    split_and!; [|done..]. intros q.
    destruct (decide (inc = q)) as [->|Hne].
    + rewrite fn_lookup_alter, Hp.
      repeat case_decide; try done; set_solver.
    + rewrite fn_lookup_alter_ne, Hp by done.
      repeat case_decide; try done; set_solver.
  - split_and!; [|done..]. intros q. by rewrite decide_False by set_solver.
Qed.

(** The second loop changes the source of the pipes it visits; a pipe it
    does not visit is left as it is. *)
Lemma mergeTo_outgoing_rest target l s s' :
  forM_ l (λ out,
    modify (upd_pipe out (set_From (Some target))) ;;;
    modify (set_outgoing (append_at target out)) ;;;
    Cancel out) s = Some (tt, s') →
  (∀ q, From (pipes s' q) = if decide (q ∈ l) then Some target
                            else From (pipes s q)) ∧
  (∀ q, q ∉ l → pipes s' q = pipes s q) ∧
  pipe_alloc s' = pipe_alloc s ∧ stopped s' = stopped s.
Proof.
  intros Hrun.
  pose (I := λ (seen : list nat) (s' : @state EF IDX),
    (∀ q, From (pipes s' q) = if decide (q ∈ seen) then Some target
                              else From (pipes s q)) ∧
    (∀ q, q ∉ seen → pipes s' q = pipes s q) ∧
    pipe_alloc s' = pipe_alloc s ∧ stopped s' = stopped s).
  refine (forM_inv I l _ s s' _ _ Hrun); unfold I; clear I Hrun.
  - intros seen out s1 s2 (Hf & Hp & Ha & Hst) Hrun.
    unfold bind at 1 2, modify in Hrun.
    pose proof (Cancel_frame _ _ _ Hrun) as [Hfr _].
    apply Cancel_local in Hrun as (Ha2 & Hst2 & Hp2).
    split_and!.
    + intros q. rewrite (cf_From _ _ Hfr). simpl.
      destruct (decide (out = q)) as [->|Hne].
      * rewrite fn_lookup_alter. simpl.
        repeat case_decide; try done; set_solver.
      * rewrite fn_lookup_alter_ne, Hf by done.
        repeat case_decide; try done; set_solver.
    + intros q Hq. rewrite Hp2 by set_solver. simpl.
      rewrite fn_lookup_alter_ne by set_solver. apply Hp. set_solver.
    + by rewrite Ha2.
    + by rewrite Hst2.
  - split_and!; [|done..]. intros q. by rewrite decide_False by set_solver.
Qed.

(** The third loop leaves the allocation mark and [stopped] alone. *)
Lemma mergeTo_deps_rest target src ds i s s' :
  forM_i i ds (mergeTo_dep target src) s = Some (tt, s') →
  pipe_alloc s' = pipe_alloc s ∧ stopped s' = stopped s.
Proof.
  intros Hrun.
  refine (preserves_mergeTo_deps
            (λ s0, pipe_alloc s0 = pipe_alloc s ∧ stopped s0 = stopped s)
            target src ds i _ s tt s' _ Hrun); [|done].
  by intros e f s0 Hs0.
Qed.

Lemma mergeTo_false target src s s' :
  mergeTo target src s = Some (false, s') → s' = s.
Proof.
  unfold mergeTo. intros Hrun.
  apply bind_Some in Hrun as (? & ? & [= <- <-] & Hrun).
  destruct (_ || _); [by injection Hrun as <-|].
  destruct (_ && _); [by injection Hrun as <-|].
  repeat (apply bind_Some in Hrun as (? & ? & _ & Hrun)).
  by injection Hrun.
Qed.

(** A merge that went through, seen from every key and every pipe. *)
Lemma mergeTo_wiring target src s s' :
  mergeTo target src s = Some (true, s') →
  (∀ k, slice_at (incoming s') k =
        if decide (k = src) then []
        else if decide (k = target)
             then slice_at (incoming s) target ++ slice_at (incoming s) src
             else slice_at (incoming s) k) ∧
  (∀ k, slice_at (outgoing s') k =
        if decide (k = src) then []
        else if decide (k = target)
             then slice_at (outgoing s) target ++ slice_at (outgoing s) src
             else slice_at (outgoing s) k) ∧
  (∀ k, k ≠ target → k ≠ src →
        incoming s' !! k = incoming s !! k ∧
        outgoing s' !! k = outgoing s !! k) ∧
  (∀ q, Target (pipes s' q) =
        if decide (q ∈ slice_at (incoming s) src) then Some target
        else Target (pipes s q)) ∧
  (∀ q, From (pipes s' q) =
        if decide (q ∈ slice_at (outgoing s) src) then Some target
        else From (pipes s q)) ∧
  (∀ q, q ∉ slice_at (incoming s) src → q ∉ slice_at (outgoing s) src →
        pipes s' q = pipes s q) ∧
  pipe_alloc s' = pipe_alloc s ∧ stopped s' = stopped s ∧
  (∀ a, a ≠ target → edges s' a = edges s a) ∧
  edges s' target =
    set_secondaryExporters
      (λ l, l ++ edge_exporters (edge_selectors (edges s src)) 0
                   (deps (edges s src)))
      (edges s target) ∧
  ef s' = ef s ∧ index s' = index s.
Proof.
  intros Hrun. unfold mergeTo in Hrun.
  apply bind_Some in Hrun as (? & ? & [= <- <-] & Hrun).
  destruct (_ || _); [done|]. destruct (_ && _); [done|].
  destruct (mergeTo_incoming target (slice_at (incoming s) src) s)
    as (s1 & Hl1 & Hin1 & Hino1 & _ & _ & _ & Hout1 & He1 & Hef1 & Hidx1).
  unfold bind at 1 in Hrun. rewrite Hl1 in Hrun.
  apply mergeTo_incoming_rest in Hl1 as (Hp1 & Ha1 & Hst1).
  apply bind_Some in Hrun as (? & ? & [= <- <-] & Hrun).
  apply bind_Some in Hrun as ([] & s2 & Hl2 & Hrun).
  pose proof (mergeTo_outgoing _ _ _ _ Hl2)
    as (Hout2 & Houto2 & _ & Htgt2 & Hin2 & He2 & Hef2 & Hidx2).
  apply mergeTo_outgoing_rest in Hl2 as (Hf2 & Hp2 & Ha2 & Hst2).
  rewrite Hout1 in Hout2, Houto2, Hf2, Hp2.
  unfold bind at 1 2 3, modify in Hrun.
  apply bind_Some in Hrun as (? & ? & [= <- <-] & Hrun).
  apply bind_Some in Hrun as ([] & s4 & Hl3 & [= <-]).
  pose proof (mergeTo_deps_added _ _ _ _ _ _ Hl3) as Hea.
  apply mergeTo_deps_rest in Hl3 as (Ha4 & Hst4).
  set (s3 := signal target _) in *.
  pose proof (signal_frame target
    (set_outgoing (delete src) (set_incoming (delete src) s2))) as Hfr.
  destruct (signal_local target
    (set_outgoing (delete src) (set_incoming (delete src) s2)))
    as (Ha3 & Hst3 & Hp3).
  fold s3 in Hfr, Ha3, Hst3, Hp3.
  assert (Hi : incoming s4 = delete src (incoming s1)).
  { rewrite (ea_incoming _ _ _ _ Hea), (cf_incoming _ _ Hfr). simpl.
    by rewrite Hin2. }
  assert (Ho : outgoing s4 = delete src (outgoing s2)).
  { by rewrite (ea_outgoing _ _ _ _ Hea), (cf_outgoing _ _ Hfr). }
  assert (Hp : pipes s4 = pipes s2).
  { by rewrite (ea_pipes _ _ _ _ Hea), Hp3. }
  split_and!.
  - intros k. rewrite Hi. destruct (decide (k = src)) as [->|Hks].
    { unfold slice_at. by rewrite lookup_delete_eq. }
    rewrite slice_at_delete_ne by done.
    destruct (decide (k = target)) as [->|Hkt]; [done|].
    unfold slice_at. by rewrite Hino1.
  - intros k. rewrite Ho. destruct (decide (k = src)) as [->|Hks].
    { unfold slice_at. by rewrite lookup_delete_eq. }
    rewrite slice_at_delete_ne by done.
    destruct (decide (k = target)) as [->|Hkt]; [done|].
    unfold slice_at. by rewrite Houto2.
  - intros k Hkt Hks. rewrite Hi, Ho, !lookup_delete_ne by done.
    by rewrite Hino1, Houto2.
  - intros q. rewrite Hp, Htgt2, Hp1. by destruct (decide _).
  - intros q. rewrite Hp, Hf2, Hp1.
    destruct (decide (q ∈ slice_at (outgoing s) src)); [done|].
    by destruct (decide _).
  - intros q Hqi Hqo. rewrite Hp, Hp2, Hp1 by done. by rewrite decide_False.
  - rewrite Ha4, Ha3. simpl. by rewrite Ha2.
  - rewrite Hst4, Hst3. simpl. by rewrite Hst2.
  - intros a Hne. rewrite (ea_others _ _ _ _ Hea) by done.
    rewrite (cf_edges _ _ Hfr). simpl. by rewrite He2, He1.
  - rewrite (ea_target _ _ _ _ Hea), (cf_edges _ _ Hfr). simpl.
    by rewrite He2, He1.
  - rewrite (ea_ef _ _ _ _ Hea), (cf_ef _ _ Hfr). simpl. congruence.
  - rewrite (ea_index _ _ _ _ Hea), (cf_index _ _ Hfr). simpl. congruence.
Qed.

Lemma wired_mergeTo target src : preserves wired (mergeTo target src).
Proof.
  intros s b s' Hs Hrun. destruct b; [|by apply mergeTo_false in Hrun as ->].
  apply mergeTo_wiring in Hrun as (Hi & Ho & _ & Ht & Hf & _ & Ha & _).
  destruct Hs as [W1 W2 W3 W4]. split.
  - intros e p. rewrite Hi, Ht, Ha.
    destruct (decide (e = src)) as [->|Hes]; [by intros ?%elem_of_nil|].
    destruct (decide (e = target)) as [->|Het].
    + rewrite elem_of_app. intros [Hin|Hin].
      * destruct (W1 _ _ Hin). by destruct (decide _).
      * destruct (W1 _ _ Hin). by rewrite decide_True.
    + intros Hin. destruct (W1 _ _ Hin) as [HT Hlt].
      rewrite decide_False; [done|].
      intros Hsrc. destruct (W1 _ _ Hsrc). congruence.
  - intros e p. rewrite Ho, Hf, Ha.
    destruct (decide (e = src)) as [->|Hes]; [by intros ?%elem_of_nil|].
    destruct (decide (e = target)) as [->|Het].
    + rewrite elem_of_app. intros [Hin|Hin].
      * destruct (W2 _ _ Hin). by destruct (decide _).
      * destruct (W2 _ _ Hin). by rewrite decide_True.
    + intros Hin. destruct (W2 _ _ Hin) as [HT Hlt].
      rewrite decide_False; [done|].
      intros Hsrc. destruct (W2 _ _ Hsrc). congruence.
  - intros e. rewrite Hi.
    destruct (decide (e = src)) as [->|Hes]; [constructor|].
    destruct (decide (e = target)) as [->|Het]; [|done].
    apply NoDup_app. split_and!; [done| |done].
    intros p Hin Hsrc. destruct (W1 _ _ Hin), (W1 _ _ Hsrc). congruence.
  - intros e. rewrite Ho.
    destruct (decide (e = src)) as [->|Hes]; [constructor|].
    destruct (decide (e = target)) as [->|Het]; [|done].
    apply NoDup_app. split_and!; [done| |done].
    intros p Hin Hsrc. destruct (W2 _ _ Hin), (W2 _ _ Hsrc). congruence.
Qed.

(** *** The invariants of the pipe maps *)

Lemma no_empty_slice_newScheduler (ef0 : EF) (idx : IDX) es d0 p0 :
  no_empty_slice (newScheduler ef0 idx es d0 p0).
Proof. intros e. by split. Qed.

Lemma wired_newScheduler (ef0 : EF) (idx : IDX) es d0 p0 :
  wired (newScheduler ef0 idx es d0 p0).
Proof.
  split; intros e; simpl; unfold slice_at; rewrite lookup_empty; simpl;
    first [by intros p ?%elem_of_nil|constructor].
Qed.

(** X7. No key of the pipe maps is ever left with an empty slice, so
    that an edge has a key in a map exactly when it has pipes there: this
    holds in a new scheduler and is kept by [newPipe], [build]'s entry,
    the requests of the pipe factory, [mergeTo] and, as long as unparking
    an edge and marking it failed keep it, by every turn of the loop. *)
Theorem pipe_maps_drop_empty_slices s :
  no_empty_slice s →
  (∀ e, (is_Some (incoming s !! e) ↔ slice_at (incoming s) e ≠ []) ∧
        (is_Some (outgoing s !! e) ↔ slice_at (outgoing s) e ≠ [])) ∧
  (∀ (ef0 : EF) (idx : IDX) es d0 p0,
     no_empty_slice (newScheduler ef0 idx es d0 p0)) ∧
  (∀ target from req p s',
     newPipe target from req s = Some (p, s') → no_empty_slice s') ∧
  (∀ edge r s', build_enter edge s = Some (r, s') → no_empty_slice s') ∧
  (∀ nwf pf_e ee req r s',
     NewInputRequest nwf pf_e ee req s = Some (r, s') → no_empty_slice s') ∧
  (∀ nwf pf_e f r s',
     NewFuncRequest nwf pf_e f s = Some (r, s') → no_empty_slice s') ∧
  (∀ target src b s',
     mergeTo target src s = Some (b, s') → no_empty_slice s') ∧
  (∀ unpark isDep currentIndexKey markFailed,
     (∀ e inc updates out s,
        no_empty_slice s → no_empty_slice (unpark e inc updates out s)) →
     (∀ e x s, no_empty_slice s → no_empty_slice (markFailed e x s)) →
     ∀ r s',
       loop_iter unpark isDep currentIndexKey markFailed s = Some (r, s') →
       no_empty_slice s').
Proof.
  intros Hs. split_and!.
  - intros e. destruct (Hs e) as [Hi Ho]. unfold slice_at.
    split.
    + destruct (incoming s !! e) as [[|x l]|]; simpl; [done| |].
      * split; [done|by eexists].
      * split; [by intros [? [=]]|done].
    + destruct (outgoing s !! e) as [[|x l]|]; simpl; [done| |].
      * split; [done|by eexists].
      * split; [by intros [? [=]]|done].
  - apply no_empty_slice_newScheduler.
  - intros target from req p s'. by apply nes_newPipe.
  - intros edge r s'. by apply nes_build_enter.
  - intros nwf pf_e ee req r s'. by apply nes_NewInputRequest.
  - intros nwf pf_e f r s'. by apply nes_newRequestWithFunc.
  - intros target src b s'. by apply nes_mergeTo.
  - intros unpark isDep currentIndexKey markFailed Hu Hm r s'.
    apply (turn_loop_iter no_empty_slice unpark isDep currentIndexKey
             markFailed); try done.
    + intros s0 s1 Hi Ho _ _ _ _. by apply no_empty_slice_frame.
    + intros s0. apply no_empty_slice_frame; apply dequeue_wiring.
    + apply nes_dispatch_prune.
    + apply nes_mergeTo.
Qed.

(** X8. The pipe maps agree with the pipes: a pipe is listed under its
    target in [incoming] and under its source in [outgoing], under no
    other edge and only once, so that its completion callbacks signal the
    edge it is listed under. This holds in a new scheduler and is kept
    by [newPipe], [build]'s entry, the requests of the pipe factory,
    [mergeTo], which re-targets the pipes it moves, and, as long as
    unparking an edge and marking it failed keep it, by every turn of the
    loop. *)
Theorem pipe_maps_stay_wired s :
  wired s →
  (∀ p e1 e2, p ∈ slice_at (incoming s) e1 → p ∈ slice_at (incoming s) e2 →
     e1 = e2) ∧
  (∀ p e1 e2, p ∈ slice_at (outgoing s) e1 → p ∈ slice_at (outgoing s) e2 →
     e1 = e2) ∧
  (∀ e p, p ∈ slice_at (incoming s) e →
     fire (Some cb_signal_Target) p s = Some (tt, signal e s)) ∧
  (∀ e p, p ∈ slice_at (outgoing s) e →
     fire (Some cb_signal_From) p s = Some (tt, signal e s)) ∧
  (∀ (ef0 : EF) (idx : IDX) es d0 p0, wired (newScheduler ef0 idx es d0 p0)) ∧
  (∀ target from req p s',
     newPipe target from req s = Some (p, s') → wired s') ∧
  (∀ edge r s', build_enter edge s = Some (r, s') → wired s') ∧
  (∀ nwf pf_e ee req r s',
     NewInputRequest nwf pf_e ee req s = Some (r, s') → wired s') ∧
  (∀ nwf pf_e f r s',
     NewFuncRequest nwf pf_e f s = Some (r, s') → wired s') ∧
  (∀ target src b s', mergeTo target src s = Some (b, s') → wired s') ∧
  (∀ unpark isDep currentIndexKey markFailed,
     (∀ e inc updates out s, wired s → wired (unpark e inc updates out s)) →
     (∀ e x s, wired s → wired (markFailed e x s)) →
     ∀ r s',
       loop_iter unpark isDep currentIndexKey markFailed s = Some (r, s') →
       wired s').
Proof.
  intros Hs. split_and!.
  - intros p e1 e2 H1 H2.
    destruct (wired_incoming s Hs _ _ H1), (wired_incoming s Hs _ _ H2).
    congruence.
  - intros p e1 e2 H1 H2.
    destruct (wired_outgoing s Hs _ _ H1), (wired_outgoing s Hs _ _ H2).
    congruence.
  - intros e p Hin. destruct (wired_incoming s Hs _ _ Hin) as [Ht _].
    simpl. unfold bind, get, modify. by rewrite Ht.
  - intros e p Hin. destruct (wired_outgoing s Hs _ _ Hin) as [Hf _].
    simpl. unfold bind, get, modify. by rewrite Hf.
  - apply wired_newScheduler.
  - intros target from req p s'. by apply wired_newPipe.
  - intros edge r s'. by apply wired_build_enter.
  - intros nwf pf_e ee req r s'. by apply wired_NewInputRequest.
  - intros nwf pf_e f r s'. by apply wired_newRequestWithFunc.
  - intros target src b s'. by apply wired_mergeTo.
  - intros unpark isDep currentIndexKey markFailed Hu Hm r s'.
    apply (turn_loop_iter wired unpark isDep currentIndexKey markFailed);
      try done.
    + intros s0 s1 Hi Ho Ha Ht Hf _. by apply wired_frame.
    + intros s0. destruct (dequeue_wiring s0) as (Hi & Ho & Ha & Hp).
      apply wired_frame; try done; intros q; by rewrite Hp.
    + apply wired_dispatch_prune.
    + apply wired_mergeTo.
Qed.

(** X9. A merge touches its two edges only: the slices of every other
    edge, the pipes that neither came into nor went out of the source, the
    target of every pipe that did not come into the source and the source
    of every pipe that did not go out of it, and every edge but the target
    are as before; the target edge only gains secondary exporters; no
    pipe is allocated, and the factory, the index and the stop flag are
    left alone. *)
Theorem mergeTo_touches_its_edges_only target src s s' :
  mergeTo target src s = Some (true, s') →
  (∀ k, k ≠ target → k ≠ src →
     incoming s' !! k = incoming s !! k ∧ outgoing s' !! k = outgoing s !! k) ∧
  (∀ q, q ∉ slice_at (incoming s) src → q ∉ slice_at (outgoing s) src →
     pipes s' q = pipes s q) ∧
  (∀ q, q ∉ slice_at (incoming s) src →
     Target (pipes s' q) = Target (pipes s q)) ∧
  (∀ q, q ∉ slice_at (outgoing s) src →
     From (pipes s' q) = From (pipes s q)) ∧
  (∀ a, a ≠ target → edges s' a = edges s a) ∧
  (∃ xs, edges s' target =
           set_secondaryExporters (λ l, l ++ xs) (edges s target)) ∧
  pipe_alloc s' = pipe_alloc s ∧ stopped s' = stopped s ∧
  ef s' = ef s ∧ index s' = index s.
Proof.
  intros Hrun.
  apply mergeTo_wiring in Hrun
    as (_ & _ & Hk & Ht & Hf & Hp & Ha & Hst & Heo & Het & Hef & Hidx).
  split_and!; try done.
  - intros q Hq. by rewrite Ht, decide_False.
  - intros q Hq. by rewrite Hf, decide_False.
  - eauto.
Qed.

End Wiring.

Section WiringDemo.
Import solver demo.

Lemma exec_keeps {A} (P : demo_state → Prop)
    (c : @M graph (gmap nat nat) A) (s : demo_state) :
  (∀ s a s', P s → c s = Some (a, s') → P s') → P s → P (exec c s).
Proof.
  intros Hc Hs. unfold exec. destruct (c s) as [[a s']|] eqn:Hrun; eauto.
Qed.

Lemma demo_running_no_empty_slice : no_empty_slice demo_running.
Proof.
  unfold demo_running.
  repeat (apply exec_keeps; [apply nes_newPipe || apply nes_build_enter|]).
  apply no_empty_slice_newScheduler.
Qed.

Lemma demo_running_wired : wired demo_running.
Proof.
  unfold demo_running.
  repeat (apply exec_keeps; [apply wired_newPipe || apply wired_build_enter|]).
  apply wired_newScheduler.
Qed.

(** C is asked by A and B, and a turn of the loop leaves no empty
    slice. *)
Lemma pipe_maps_drop_empty_slices_witness :
  no_empty_slice demo_after_turn ∧
  (is_Some (incoming demo_running !! 3)
   ↔ slice_at (incoming demo_running) 3 ≠ []).
Proof.
  destruct (pipe_maps_drop_empty_slices demo_running
              demo_running_no_empty_slice)
    as (Hkey & _ & _ & _ & _ & _ & _ & Hloop).
  split.
  - refine (Hloop demo_unpark demo_isDep demo_currentIndexKey demo_markFailed
              _ _ loop_running demo_after_turn _).
    + intros e inc updates out s Hs. exact Hs.
    + intros e x s Hs. exact Hs.
    + vm_compute. reflexivity.
  - exact (proj1 (Hkey 3)).
Defined.

(** The root pipe of the build of A wakes A, and a turn of the loop
    leaves the maps wired. *)
Lemma pipe_maps_stay_wired_witness :
  wired demo_after_turn ∧
  fire (Some cb_signal_Target) 0 demo_running
  = Some (tt, signal 1 demo_running).
Proof.
  destruct (pipe_maps_stay_wired demo_running demo_running_wired)
    as (_ & _ & Hfire & _ & _ & _ & _ & _ & _ & _ & Hloop).
  split.
  - refine (Hloop demo_unpark demo_isDep demo_currentIndexKey demo_markFailed
              _ _ loop_running demo_after_turn _).
    + intros e inc updates out s Hs. exact Hs.
    + intros e x s Hs. by apply (wired_frame s).
    + vm_compute. reflexivity.
  - refine (Hfire 1 0 _). vm_compute. left.
Defined.

(** A merges into B: the slices of C, the root pipe of B and the
    allocation mark are as before. *)
Lemma mergeTo_touches_its_edges_only_witness :
  incoming demo_merged !! 3 = incoming demo_keys_A_meets_B !! 3 ∧
  pipes demo_merged 1 = pipes demo_keys_A_meets_B 1 ∧
  pipe_alloc demo_merged = pipe_alloc demo_keys_A_meets_B.
Proof.
  assert (Hrun : mergeTo 2 1 demo_keys_A_meets_B = Some (true, demo_merged))
    by (vm_compute; reflexivity).
  destruct (mergeTo_touches_its_edges_only 2 1 demo_keys_A_meets_B
              demo_merged Hrun)
    as (Hk & Hp & _ & _ & _ & _ & Ha & _).
  split_and!.
  - refine (proj1 (Hk 3 _ _)); discriminate.
  - refine (Hp 1 _ _); apply (bool_decide_unpack _); vm_compute; exact I.
  - exact Ha.
Defined.

End WiringDemo.

(* ===================================================================== *)
(** * The requests of the pipe factory                                    *)
(* ===================================================================== *)

Section Requests.
Import solver.
Context {EF IDX : Type} `{!edgeFactory EF} `{!edgeIndex IDX}.
Implicit Types (s : @state EF IDX).

Local Notation M := (@M EF IDX).
Local Notation "x <- c1 ;; c2" := (bind c1 (λ x, c2))
  (at level 100, c1 at next level, right associativity).
Local Notation "c1 ;;; c2" := (bind c1 (λ _, c2))
  (at level 100, right associativity).

Variable NewWithFunction : request_func → edgePipe.

Lemma fifo_same_queue s s' : same_queue s s' → fifo s' = fifo s.
Proof. intros (_ & Hn & _ & Hd & Ha). unfold fifo. by rewrite Hn, Hd, Ha. Qed.

Lemma newPipe_total target from req s :
  ∃ s', newPipe target from req s = Some (pipe_alloc s, s').
Proof.
  unfold newPipe, bind, get, modify, ret. destruct from; by eexists.
Qed.

Lemma newRequestWithFunc_total e f s :
  ∃ s', newRequestWithFunc NewWithFunction e f s = Some ((pipe_alloc s, f), s').
Proof. unfold newRequestWithFunc, bind, get, modify, ret. by eexists. Qed.

(** A new pipe puts its target at the end of the queue, unless the
    target waits already. *)
Lemma newPipe_fifo target from req s p s' :
  queue_reachable s →
  newPipe target from req s = Some (p, s') →
  fifo s' = fifo s ++ (if decide (target ∈ waitq s) then [] else [target]).
Proof.
  intros Hs. unfold newPipe, bind, get, modify, ret.
  set (s1 := set_pipes _ (set_pipe_alloc _ s)).
  assert (Hs1 : queue_reachable s1)
    by (apply (qr_other s); [done|by repeat split]).
  pose proof (fifo_signal target s1 Hs1) as Hfifo.
  change (waitq s1) with (waitq s) in Hfifo.
  rewrite (fifo_same_queue s s1) in Hfifo by by repeat split.
  rewrite <- Hfifo.
  destruct from; intros [= _ <-]; by apply fifo_same_queue.
Qed.

(** X10. A request of the pipe factory always yields a receiver, on a
    freshly allocated pipe that goes out of the requesting edge and wakes
    it on completion. When the graph knows the edge asked for, the pipe
    carries the request, comes into that edge, and the edge is queued
    behind the ones that wait, unless it waits already. When it does
    not, no edge is woken and no incoming list changes: the receiver is
    that of a function, started beside the scheduler, that fails with an
    internal error. *)
Theorem NewInputRequest_receiver pf_e ee req s :
  queue_reachable s →
  let p := pipe_alloc s in
  ∃ r s',
    NewInputRequest NewWithFunction pf_e ee req s = Some ((p, r), s') ∧
    pipe_alloc s' = S p ∧
    (∀ q, q ≠ p → pipes s' q = pipes s q) ∧
    outgoing s' = append_at pf_e p (outgoing s) ∧
    From (pipes s' p) = Some pf_e ∧
    fire (OnSendCompletion (pipes s' p)) p s' = Some (tt, signal pf_e s') ∧
    edges s' = edges s ∧ ef s' = ef s ∧ index s' = index s ∧
    match getEdge (ef s) ee with
    | Some target =>
        r = None ∧
        Request (pipes s' p) = mkPipeRequest req false ∧
        Target (pipes s' p) = Some target ∧
        incoming s' = append_at target p (incoming s) ∧
        fire (OnReceiveCompletion (pipes s' p)) p s'
          = Some (tt, signal target s') ∧
        fifo s' =
          fifo s ++ (if decide (target ∈ waitq s) then [] else [target])
    | None =>
        r = Some (inconsistent_graph ee) ∧
        (∀ ctx, ∃ x,
           inconsistent_graph ee ctx = (any_nil, Some (errdefs_Internal x))) ∧
        pipes s' p =
          set_OnSendCompletion (Some cb_signal_From)
            (set_From (Some pf_e)
               (set_Target None (NewWithFunction (inconsistent_graph ee)))) ∧
        incoming s' = incoming s ∧
        waitq s' = waitq s ∧ fifo s' = fifo s
    end.
Proof.
  intros Hs p. unfold NewInputRequest. unfold bind at 1, get.
  destruct (getEdge (ef s) ee) as [target|].
  - destruct (newPipe_total target (Some pf_e) (mkPipeRequest req false) s)
      as [s' Hnew].
    exists None, s'. unfold bind, ret. rewrite Hnew.
    pose proof (newPipe_fifo _ _ _ _ _ _ Hs Hnew) as Hfifo.
    apply newPipe_wiring in Hnew
      as (_ & Ha & Hi & Ho & Hpp & Hq & _ & He & Hef & Hidx & _).
    fold p in Ha, Hi, Ho, Hpp, Hq.
    assert (HF : From (pipes s' p) = Some pf_e) by by rewrite Hpp.
    assert (HT : Target (pipes s' p) = Some target) by by rewrite Hpp.
    split_and!; try done.
    + rewrite Hpp. simpl. unfold bind, get, modify. by rewrite HF.
    + by rewrite Hpp.
    + rewrite Hpp. simpl. unfold bind, get, modify. by rewrite HT.
  - unfold NewFuncRequest.
    destruct (newRequestWithFunc_total pf_e (inconsistent_graph ee) s)
      as [s' Hnew].
    exists (Some (inconsistent_graph ee)), s'. unfold bind, ret. rewrite Hnew.
    apply newRequestWithFunc_wiring in Hnew
      as (_ & Ha & Hi & Ho & Hpp & Hq & _ & He & Hef & Hidx & Hsame).
    fold p in Ha, Ho, Hpp, Hq.
    assert (HF : From (pipes s' p) = Some pf_e) by by rewrite Hpp.
    split_and!; try done.
    + rewrite Hpp. simpl. unfold bind, get, modify. by rewrite HF.
    + intros ctx. by eexists.
    + apply Hsame.
    + by apply fifo_same_queue.
Qed.

End Requests.

Section RequestsDemo.
Import solver demo.

(** A asks for an edge the graph does not have, on a scheduler where A
    and B wait: nobody else is woken. *)
Lemma NewInputRequest_receiver_witness :
  ∃ s',
    NewInputRequest (λ _, pipes demo_init 0) 1 EdgeX
      (mkEdgeRequest edgeStatusCacheFast) (signal 2 (signal 1 demo_init))
    = Some ((0, Some (inconsistent_graph EdgeX)), s') ∧
    fifo s' = fifo (signal 2 (signal 1 demo_init)).
Proof.
  pose proof (NewInputRequest_receiver (λ _, pipes demo_init 0) 1 EdgeX
                (mkEdgeRequest edgeStatusCacheFast)
                (signal 2 (signal 1 demo_init)) demo_signalled_reachable)
    as Hthm.
  cbv zeta in Hthm.
  assert (Hget : getEdge (ef (signal 2 (signal 1 demo_init))) EdgeX = None)
    by (vm_compute; reflexivity).
  rewrite Hget in Hthm.
  destruct Hthm as (r & s' & Hrun & _ & _ & _ & _ & _ & _ & _ & _
                    & Hr & _ & _ & _ & _ & Hfifo).
  exists s'. split; [|exact Hfifo].
  rewrite Hrun, Hr. reflexivity.
Defined.

End RequestsDemo.

(* ===================================================================== *)
(** * More on dispatch                                                    *)
(* ===================================================================== *)

Section DispatchMore.
Import solver.
Context {EF IDX : Type} `{!edgeFactory EF} `{!edgeIndex IDX}.
Implicit Types (s : @state EF IDX).

Local Notation M := (@M EF IDX).
Local Notation "x <- c1 ;; c2" := (bind c1 (λ x, c2))
  (at level 100, c1 at next level, right associativity).
Local Notation "c1 ;;; c2" := (bind c1 (λ _, c2))
  (at level 100, right associativity).

(** The pipes whose receiver has not seen the last status of the
    sender. *)
Local Notation behind s :=
  (λ p, ReceiverStatus (pipes s p) ≠ SenderStatus (pipes s p)).
(** Some pipe of the list is not completed on the side of the sender. *)
Local Notation active s l :=
  (existsb (λ p, negb (Completed (SenderStatus (pipes s p)))) l).

Lemma set_ReceiverStatus_same (pp : edgePipe) :
  set_ReceiverStatus (λ _, ReceiverStatus pp) pp = pp.
Proof. by destruct pp. Qed.

Lemma set_hasActiveOutgoing_same (x : edge) :
  set_hasActiveOutgoing (hasActiveOutgoing x) x = x.
Proof. by destruct x. Qed.

(** One visit of the loop over [out]. *)
Lemma dispatch_receive_step e p s :
  ∃ s1,
    (ok <- Receive p ;;
     s' <- get ;;
     (if Completed (ReceiverStatus (pipes s' p)) then ret tt
      else modify (upd_edge e (set_hasActiveOutgoing true))) ;;;
     ret ok) s
    = Some (bool_decide (behind s p), s1) ∧
    pipes s1 p = set_ReceiverStatus (λ _, SenderStatus (pipes s p)) (pipes s p) ∧
    (∀ q, q ≠ p → pipes s1 q = pipes s q) ∧
    edges s1 e =
      set_hasActiveOutgoing
        (hasActiveOutgoing (edges s e)
         || negb (Completed (SenderStatus (pipes s p)))) (edges s e) ∧
    (∀ a, a ≠ e → edges s1 a = edges s a) ∧
    incoming s1 = incoming s ∧ outgoing s1 = outgoing s ∧
    pipe_alloc s1 = pipe_alloc s ∧ ef s1 = ef s ∧ index s1 = index s ∧
    stopped s1 = stopped s ∧ same_queue s s1.
Proof.
  unfold Receive. unfold bind at 1 2, get.
  destruct (decide (ReceiverStatus (pipes s p) = SenderStatus (pipes s p)))
    as [Heq|Hne].
  - rewrite bool_decide_eq_false_2 by (by intros []).
    unfold ret at 1. unfold bind at 1, get. unfold bind at 1. rewrite Heq.
    assert (Hp : pipes s p
                 = set_ReceiverStatus (λ _, SenderStatus (pipes s p)) (pipes s p)).
    { rewrite <- Heq. by rewrite set_ReceiverStatus_same. }
    destruct (Completed (SenderStatus (pipes s p))); simpl.
    + exists s. rewrite orb_false_r, set_hasActiveOutgoing_same.
      by split_and!.
    + eexists. split; [reflexivity|]. simpl. rewrite orb_true_r.
      rewrite fn_lookup_alter.
      split_and!; try done.
      intros a Ha. by rewrite fn_lookup_alter_ne.
  - rewrite bool_decide_eq_true_2 by done.
    unfold bind at 1, modify. unfold ret at 1. unfold bind at 1, get.
    unfold bind at 1. simpl. rewrite fn_lookup_alter. simpl.
    destruct (Completed (SenderStatus (pipes s p))); simpl.
    + eexists. split; [reflexivity|]. simpl. rewrite fn_lookup_alter.
      rewrite orb_false_r, set_hasActiveOutgoing_same.
      split_and!; try done. intros q Hq. by rewrite fn_lookup_alter_ne.
    + eexists. split; [reflexivity|]. simpl. rewrite !fn_lookup_alter.
      rewrite orb_true_r.
      split_and!; try done.
      * intros q Hq. by rewrite fn_lookup_alter_ne.
      * intros a Ha. by rewrite fn_lookup_alter_ne.
Qed.

Lemma dispatch_receive_cons e p out acc s :
  dispatch_receive e (p :: out) acc s =
  (ok <- (ok <- Receive p ;;
          s' <- get ;;
          (if Completed (ReceiverStatus (pipes s' p)) then ret tt
           else modify (upd_edge e (set_hasActiveOutgoing true))) ;;;
          ret ok) ;;
   dispatch_receive e out (if ok : bool then acc ++ [p] else acc)) s.
Proof.
  simpl. unfold bind. destruct (Receive p s) as [[ok s1]|]; [|done].
  unfold get, ret, modify. by destruct (Completed _).
Qed.

(** The loop over [out]: every receiver is brought up to date, the
    receivers that were behind are collected in order, and the edge is
    marked active when a request is not completed. *)
Lemma dispatch_receive_views e out acc s :
  ∃ s',
    dispatch_receive e out acc s
    = Some (acc ++ filter (behind s) (first_mentions out), s') ∧
    (∀ q, q ∈ out → ReceiverStatus (pipes s' q) = SenderStatus (pipes s q)) ∧
    (∀ q, q ∉ out → pipes s' q = pipes s q) ∧
    (∀ q, pipes s' q =
          set_ReceiverStatus (λ _, ReceiverStatus (pipes s' q)) (pipes s q)) ∧
    edges s' e =
      set_hasActiveOutgoing
        (hasActiveOutgoing (edges s e) || active s out) (edges s e) ∧
    (∀ a, a ≠ e → edges s' a = edges s a) ∧
    incoming s' = incoming s ∧ outgoing s' = outgoing s ∧
    pipe_alloc s' = pipe_alloc s ∧ ef s' = ef s ∧ index s' = index s ∧
    stopped s' = stopped s ∧ same_queue s s'.
Proof.
  revert acc s. induction out as [|p out IH]; intros acc s.
  - exists s. simpl. rewrite filter_nil, app_nil_r, orb_false_r.
    rewrite set_hasActiveOutgoing_same.
    split_and!; try done.
    + by intros q ?%elem_of_nil.
    + intros q. by rewrite set_ReceiverStatus_same.
  - rewrite dispatch_receive_cons.
    destruct (dispatch_receive_step e p s)
      as (s1 & Hstep & Hp1 & Hq1 & He1 & Ha1 & Hi1 & Ho1 & Hal1 & Hef1
          & Hidx1 & Hst1 & Hsq1).
    unfold bind at 1. rewrite Hstep.
    destruct (IH (if bool_decide (behind s p) then acc ++ [p] else acc) s1)
      as (s' & Hrun & Hv & Hn & Hr & He & Ha & Hi & Ho & Hal & Hef & Hidx
          & Hst & Hsq).
    assert (HS : ∀ q, SenderStatus (pipes s1 q) = SenderStatus (pipes s q)).
    { intros q. destruct (decide (q = p)) as [->|Hne].
      - by rewrite Hp1.
      - by rewrite Hq1. }
    exists s'. split_and!.
    + rewrite Hrun. f_equal. f_equal. simpl.
      rewrite (filter_split (behind s1) (behind s) (λ y, y ≠ p)).
      2:{ intros y. destruct (decide (y = p)) as [->|Hne].
          - rewrite Hp1. simpl. naive_solver.
          - rewrite Hq1 by done. naive_solver. }
      destruct (decide (behind s p)) as [Hb|Hb].
      * rewrite bool_decide_eq_true_2, filter_cons_True by done.
        by rewrite <- app_assoc.
      * by rewrite bool_decide_eq_false_2, filter_cons_False by done.
    + intros q Hq. destruct (decide (q ∈ out)) as [Hin|Hnin].
      * by rewrite Hv, HS.
      * assert (q = p) as -> by set_solver.
        rewrite Hn by done. by rewrite Hp1.
    + intros q Hq. rewrite Hn by set_solver. apply Hq1. set_solver.
    + intros q. rewrite Hr at 1. destruct (decide (q = p)) as [->|Hne].
      * by rewrite Hp1.
      * by rewrite Hq1.
    + rewrite He, He1. simpl.
      assert (Hact : ∀ l : list nat, active s1 l = active s l).
      { intros l. induction l as [|x l IHl]; simpl; [done|].
        by rewrite HS, IHl. }
      by rewrite Hact, orb_assoc.
    + intros a Hne. by rewrite Ha, Ha1.
    + congruence.
    + congruence.
    + congruence.
    + congruence.
    + congruence.
    + congruence.
    + destruct Hsq1 as (? & ? & ? & ? & ?), Hsq as (? & ? & ? & ? & ?).
      repeat split; congruence.
Qed.

Variable unpark :
  nat → list nat → list nat → list nat → @state EF IDX → @state EF IDX.
Variable isDep : @state EF IDX → nat → nat → bool.
Variable currentIndexKey : @state EF IDX → nat → option nat.

(** X11. The first phase of a dispatch: before the edge is unparked,
    the receiver of every outgoing request of the edge is brought up to
    the last status of its sender, and nothing else of any pipe changes;
    [unpark] is handed the incoming pipes, the outgoing pipes, and as
    updates the outgoing pipes whose receiver was behind, each once, in
    the order of the slice; the edge is marked as having active outgoing
    requests exactly when one of them is not completed. The pipe maps,
    the queue and the other edges are left alone. *)
Theorem dispatch_brings_views_up_to_date e s :
  let inc := slice_at (incoming s) e in
  let out := slice_at (outgoing s) e in
  let updates :=
    filter (λ p, ReceiverStatus (pipes s p) ≠ SenderStatus (pipes s p))
      (first_mentions out) in
  ∃ s1,
    dispatch_unpark unpark e s = Some (tt, unpark e inc updates out s1) ∧
    (∀ q, q ∈ out → ReceiverStatus (pipes s1 q) = SenderStatus (pipes s q)) ∧
    (∀ q, q ∉ out → pipes s1 q = pipes s q) ∧
    (∀ q, pipes s1 q =
          set_ReceiverStatus (λ _, ReceiverStatus (pipes s1 q)) (pipes s q)) ∧
    edges s1 e =
      set_hasActiveOutgoing
        (existsb (λ p, negb (Completed (SenderStatus (pipes s p)))) out)
        (edges s e) ∧
    (∀ a, a ≠ e → edges s1 a = edges s a) ∧
    incoming s1 = incoming s ∧ outgoing s1 = outgoing s ∧ same_queue s s1 ∧
    (NoDup out →
     updates =
       filter (λ p, ReceiverStatus (pipes s p) ≠ SenderStatus (pipes s p))
         out).
Proof.
  intros inc out updates.
  unfold dispatch_unpark. unfold bind at 1, get. unfold bind at 1, modify.
  fold inc out.
  destruct (dispatch_receive_views e out []
              (upd_edge e (set_hasActiveOutgoing false) s))
    as (s1 & Hrun & Hv & Hn & Hr & He & Ha & Hi & Ho & _ & _ & _ & _ & Hsq).
  exists s1. unfold bind. rewrite Hrun. simpl in *.
  rewrite fn_lookup_alter in He.
  split_and!; try done.
  - intros a Hne. rewrite Ha by done. by rewrite fn_lookup_alter_ne.
  - intros Hnd. unfold updates. by rewrite first_mentions_id.
Qed.

(** X12. The merge decision of a dispatch is taken once per change of
    keys: when the block returns, the edge no longer has its keys marked
    as changed, so that running the block again changes nothing; an edge
    whose keys did not change is left as it is; and in no case is a pipe
    allocated or the scheduler stopped. *)
Theorem dispatch_merge_once e s s' :
  dispatch_merge isDep currentIndexKey e s = Some (tt, s') →
  keysDidChange (edges s' e) = false ∧
  dispatch_merge isDep currentIndexKey e s' = Some (tt, s') ∧
  (keysDidChange (edges s e) = false → s' = s) ∧
  pipe_alloc s' = pipe_alloc s ∧ stopped s' = stopped s.
Proof.
  intros Hrun. unfold dispatch_merge in Hrun.
  apply bind_Some in Hrun as (? & ? & [= <- <-] & Hrun).
  destruct (keysDidChange (edges s e)) eqn:Hk.
  2:{ injection Hrun as <-. split_and!; try done.
      unfold dispatch_merge, bind, get, ret. by rewrite Hk. }
  apply bind_Some in Hrun as ([] & s1 & Hrun & [= <-]).
  assert (Hflag : keysDidChange
                    (edges (upd_edge e (set_keysDidChange false) s1) e)
                  = false).
  { simpl. by rewrite fn_lookup_alter. }
  split_and!; [done| |done| |].
  - unfold dispatch_merge, bind, get, ret. by rewrite Hflag.
  - simpl.
    destruct (currentIndexKey s e) as [k|]; [|by injection Hrun as <-].
    destruct (LoadOrStore k e (index s)) as [origEdge idx].
    apply bind_Some in Hrun as ([] & s2 & [= <-] & Hrun).
    destruct origEdge as [origEdge|]; [|by injection Hrun as <-].
    apply bind_Some in Hrun as (? & ? & [= <- <-] & Hrun).
    destruct (_ || _); [by injection Hrun as <-|].
    destruct (merge_roles _ e origEdge) as [dest src].
    apply bind_Some in Hrun as (ok & s3 & Hmerge & Hrun).
    destruct ok.
    + apply mergeTo_wiring in Hmerge as (_ & _ & _ & _ & _ & _ & Hal & _).
      unfold bind, get, modify in Hrun. by injection Hrun as <-.
    + apply mergeTo_false in Hmerge as ->. by injection Hrun as <-.
  - simpl.
    destruct (currentIndexKey s e) as [k|]; [|by injection Hrun as <-].
    destruct (LoadOrStore k e (index s)) as [origEdge idx].
    apply bind_Some in Hrun as ([] & s2 & [= <-] & Hrun).
    destruct origEdge as [origEdge|]; [|by injection Hrun as <-].
    apply bind_Some in Hrun as (? & ? & [= <- <-] & Hrun).
    destruct (_ || _); [by injection Hrun as <-|].
    destruct (merge_roles _ e origEdge) as [dest src].
    apply bind_Some in Hrun as (ok & s3 & Hmerge & Hrun).
    destruct ok.
    + apply mergeTo_wiring in Hmerge
        as (_ & _ & _ & _ & _ & _ & _ & Hst & _).
      unfold bind, get, modify in Hrun. by injection Hrun as <-.
    + apply mergeTo_false in Hmerge as ->. by injection Hrun as <-.
Qed.

(** Pruning an edge whose listed pipes are all open changes nothing. *)
Lemma dispatch_prune_fixpoint e s :
  open_pipes SenderStatus s (slice_at (incoming s) e)
    = slice_at (incoming s) e →
  open_pipes ReceiverStatus s (slice_at (outgoing s) e)
    = slice_at (outgoing s) e →
  incoming s !! e ≠ Some [] → outgoing s !! e ≠ Some [] →
  dispatch_prune e s
  = Some ((slice_at (incoming s) e, slice_at (outgoing s) e), s).
Proof.
  intros Hi Ho Hni Hno.
  unfold dispatch_prune, bind, get, modify, ret. simpl. rewrite Hi.
  assert (H1 : (if 0 <? length (slice_at (incoming s) e)
                then set_incoming <[e := slice_at (incoming s) e]> s
                else set_incoming (delete e) s) = s).
  { unfold slice_at. destruct s as [? ? ? ? ? ? inc ? ? ? ? ? ? ? ?].
    unfold set_incoming. simpl in *.
    destruct (inc !! e) as [[|x l]|] eqn:Hl; simpl; [done| |].
    - by rewrite insert_id.
    - by rewrite delete_id. }
  destruct (0 <? length (slice_at (incoming s) e)); rewrite H1, Ho.
  - assert (H2 : (if 0 <? length (slice_at (outgoing s) e)
                  then set_outgoing <[e := slice_at (outgoing s) e]> s
                  else set_outgoing (delete e) s) = s).
    { unfold slice_at. destruct s as [? ? ? ? ? ? ? out ? ? ? ? ? ? ?].
      unfold set_outgoing. simpl in *.
      destruct (out !! e) as [[|x l]|] eqn:Hl; simpl; [done| |].
      - by rewrite insert_id.
      - by rewrite delete_id. }
    destruct (0 <? length (slice_at (outgoing s) e)); by rewrite H2.
  - assert (H2 : (if 0 <? length (slice_at (outgoing s) e)
                  then set_outgoing <[e := slice_at (outgoing s) e]> s
                  else set_outgoing (delete e) s) = s).
    { unfold slice_at. destruct s as [? ? ? ? ? ? ? out ? ? ? ? ? ? ?].
      unfold set_outgoing. simpl in *.
      destruct (out !! e) as [[|x l]|] eqn:Hl; simpl; [done| |].
      - by rewrite insert_id.
      - by rewrite delete_id. }
    destruct (0 <? length (slice_at (outgoing s) e)); by rewrite H2.
Qed.

(** X13. Pruning drops the completed pipes of the dispatched edge and
    nothing else: the pipes left in its two slices are those that were
    there and are still open, in their order; the key of a slice left
    empty is deleted; the slices of the other edges, the pipes, the edges
    and the queue are untouched; and pruning again changes nothing. *)
Theorem dispatch_prune_drops_completed e s :
  let oi := open_pipes SenderStatus s (slice_at (incoming s) e) in
  let oo := open_pipes ReceiverStatus s (slice_at (outgoing s) e) in
  ∃ s',
    dispatch_prune e s = Some ((oi, oo), s') ∧
    (∀ p, p ∈ slice_at (incoming s') e ↔
          p ∈ slice_at (incoming s) e ∧
          Completed (SenderStatus (pipes s p)) = false) ∧
    (∀ p, p ∈ slice_at (outgoing s') e ↔
          p ∈ slice_at (outgoing s) e ∧
          Completed (ReceiverStatus (pipes s p)) = false) ∧
    slice_at (incoming s') e `sublist_of` slice_at (incoming s) e ∧
    slice_at (outgoing s') e `sublist_of` slice_at (outgoing s) e ∧
    (incoming s' !! e = None ↔ oi = []) ∧
    (outgoing s' !! e = None ↔ oo = []) ∧
    (∀ a, a ≠ e → incoming s' !! a = incoming s !! a
                  ∧ outgoing s' !! a = outgoing s !! a) ∧
    pipes s' = pipes s ∧ edges s' = edges s ∧ same_queue s s' ∧
    dispatch_prune e s' = Some ((oi, oo), s').
Proof.
  intros oi oo.
  assert (Hidem : ∀ (P : nat → Prop) `{!∀ x, Decision (P x)} (l : list nat),
            filter P (filter P l) = filter P l).
  { intros P ? l. apply filter_all. by intros x [? _]%list_elem_of_filter. }
  assert (Hrun : ∃ s',
    dispatch_prune e s = Some ((oi, oo), s') ∧
    slice_at (incoming s') e = oi ∧ slice_at (outgoing s') e = oo ∧
    (incoming s' !! e = None ↔ oi = []) ∧
    (outgoing s' !! e = None ↔ oo = []) ∧
    (∀ a, a ≠ e → incoming s' !! a = incoming s !! a
                  ∧ outgoing s' !! a = outgoing s !! a) ∧
    pipes s' = pipes s ∧ edges s' = edges s ∧ same_queue s s').
  { unfold oi, oo, dispatch_prune, bind, get, modify, ret, open_pipes.
    simpl.
    destruct (filter _ (slice_at (incoming s) e)) as [|i l1] eqn:Hoi; simpl;
      destruct (filter _ (slice_at (outgoing s) e)) as [|o l2] eqn:Hoo; simpl;
      (eexists; split; [reflexivity|]); simpl; unfold slice_at;
      rewrite ?lookup_insert_eq, ?lookup_delete_eq; simpl;
      (split_and!; try done);
      intros a Ha; by rewrite ?lookup_insert_ne, ?lookup_delete_ne. }
  destruct Hrun as (s' & Hrun & Hi & Ho & Hni & Hno & Hother & Hp & He & Hsq).
  exists s'. split_and!; try done.
  - intros p. rewrite Hi. unfold oi, open_pipes.
    by rewrite list_elem_of_filter, (comm and).
  - intros p. rewrite Ho. unfold oo, open_pipes.
    by rewrite list_elem_of_filter, (comm and).
  - rewrite Hi. apply sublist_filter.
  - rewrite Ho. apply sublist_filter.
  - rewrite <- Hi at 1. rewrite <- Ho at 1. apply dispatch_prune_fixpoint.
    + unfold open_pipes. rewrite Hp, Hi. apply Hidem.
    + unfold open_pipes. rewrite Hp, Ho. apply Hidem.
    + intros Hnil. unfold slice_at in Hi. rewrite Hnil in Hi. simpl in Hi.
      symmetry in Hi. apply Hni in Hi. congruence.
    + intros Hnil. unfold slice_at in Ho. rewrite Hnil in Ho. simpl in Ho.
      symmetry in Ho. apply Hno in Ho. congruence.
Qed.

End DispatchMore.

Section DispatchMoreDemo.
Import solver demo.

(** A is dispatched after C has answered its only request. *)
Lemma dispatch_brings_views_up_to_date_witness :
  ∃ s1,
    dispatch_unpark demo_unpark 1 demo_C_answered = Some (tt, s1) ∧
    ReceiverStatus (pipes s1 2) = mkStatus StCompleted None any_nil ∧
    hasActiveOutgoing (edges s1 1) = false.
Proof.
  pose proof (dispatch_brings_views_up_to_date demo_unpark 1 demo_C_answered)
    as Hthm.
  cbv zeta in Hthm.
  destruct Hthm as (s1 & Hrun & Hv & _ & _ & He & _).
  exists s1. split_and!.
  - exact Hrun.
  - assert (Hin : 2 ∈ slice_at (outgoing demo_C_answered) 1)
      by (vm_compute; left).
    rewrite (Hv 2 Hin). vm_compute. reflexivity.
  - rewrite He. vm_compute. reflexivity.
Defined.

(** A has met B in the index and merged into it; deciding again changes
    nothing. *)
Lemma dispatch_merge_once_witness :
  keysDidChange (edges demo_A_decided 1) = false ∧
  dispatch_merge demo_isDep demo_currentIndexKey 1 demo_A_decided
  = Some (tt, demo_A_decided).
Proof.
  assert (Hrun : dispatch_merge demo_isDep demo_currentIndexKey 1
                   demo_keys_A_meets_B = Some (tt, demo_A_decided))
    by (vm_compute; reflexivity).
  destruct (dispatch_merge_once demo_isDep demo_currentIndexKey 1
              demo_keys_A_meets_B demo_A_decided Hrun) as (H1 & H2 & _).
  split; [exact H1|exact H2].
Defined.

End DispatchMoreDemo.

(* ===================================================================== *)
(** * The loop serves the edges in the order of the queue                 *)
(* ===================================================================== *)

Section Order.
Import solver.
Context {EF IDX : Type} `{!edgeFactory EF} `{!edgeIndex IDX}.
Implicit Types (s : @state EF IDX).

Local Notation M := (@M EF IDX).
Local Notation "x <- c1 ;; c2" := (bind c1 (λ x, c2))
  (at level 100, c1 at next level, right associativity).
Local Notation "c1 ;;; c2" := (bind c1 (λ _, c2))
  (at level 100, right associativity).
Local Notation preserves P c :=
  (∀ s a s', P s → c s = Some (a, s') → P s').

(** The queue still holds [l], in this order, in front of what was
    queued since. *)
Local Notation holds l :=
  (λ s : @state EF IDX, queue_reachable s ∧ ∃ more, fifo s = l ++ more).

Lemma holds_signal l e s : holds l s → holds l (signal e s).
Proof.
  intros [Hs [more Hf]]. split; [by apply qr_signal|].
  rewrite fifo_signal, Hf by done. rewrite <- app_assoc. by eexists.
Qed.

Lemma holds_other l s s' : same_queue s s' → holds l s → holds l s'.
Proof.
  intros Hsq [Hs [more Hf]]. split; [by apply (qr_other s)|].
  rewrite (fifo_same_queue s s') by done. by eexists.
Qed.

Lemma holds_more l s s' :
  queue_reachable s' → (∃ more, fifo s' = fifo s ++ more) →
  holds l s → holds l s'.
Proof.
  intros Hs' [more' Hf'] [Hs [more Hf]]. split; [done|].
  rewrite Hf', Hf, <- app_assoc. by eexists.
Qed.

Lemma holds_fire l cb p : preserves (holds l) (fire cb p).
Proof.
  intros s [] s' Hs. destruct cb as [[]|]; simpl.
  - unfold bind, get, modify. destruct (From _); [|done].
    intros [= <-]. by apply holds_signal.
  - unfold bind, get, modify. destruct (Target _); [|done].
    intros [= <-]. by apply holds_signal.
  - intros Hrun. apply bind_Some in Hrun as (b & s1 & Hrecv & Hrun).
    apply Receive_same_queue in Hrecv.
    apply (holds_other l s s1) in Hs; [|done].
    unfold bind, get, modify, ret, panic in Hrun.
    destruct (Completed _); [|by injection Hrun as <-].
    destruct (decide _); [done|]. injection Hrun as <-.
    apply (holds_other l s1); [by repeat split|done].
  - by intros [= <-].
Qed.

Lemma holds_Cancel l p : preserves (holds l) (Cancel p).
Proof.
  intros s [] s' Hs. unfold Cancel. intros Hrun.
  apply bind_Some in Hrun as (s0 & ? & [= <- <-] & Hrun).
  destruct (Canceled (Request (pipes s p))); [by injection Hrun as <-|].
  apply bind_Some in Hrun as ([] & s1 & [= <-] & Hrun).
  apply bind_Some in Hrun as (? & ? & [= <- <-] & Hrun).
  apply bind_Some in Hrun as ([] & s2 & Hf1 & Hrun).
  apply bind_Some in Hrun as (? & ? & [= <- <-] & Hf2).
  eapply holds_fire; [|exact Hf2]. eapply holds_fire; [|exact Hf1].
  apply (holds_other l s); [by repeat split|done].
Qed.

Lemma holds_mergeTo l target src : preserves (holds l) (mergeTo target src).
Proof.
  unfold mergeTo.
  apply (preserves_bind (holds l)); [apply (preserves_get (holds l))|].
  intros s0.
  destruct (_ || _); [apply (preserves_ret (holds l))|].
  destruct (_ && _); [apply (preserves_ret (holds l))|].
  apply (preserves_bind (holds l)).
  { apply (preserves_forM_ (holds l)). intros inc s [] s' Hs [= <-].
    apply (holds_other l s); [by repeat split|done]. }
  intros _. apply (preserves_bind (holds l));
    [apply (preserves_get (holds l))|]. intros s1.
  apply (preserves_bind (holds l)).
  { apply (preserves_forM_ (holds l)). intros out.
    apply (preserves_bind (holds l)).
    { intros s [] s' Hs [= <-].
      apply (holds_other l s); [by repeat split|done]. }
    intros _. apply (preserves_bind (holds l)); [|intros _; apply holds_Cancel].
    intros s [] s' Hs [= <-].
    apply (holds_other l s); [by repeat split|done]. }
  intros _. apply (preserves_bind (holds l)).
  { intros s [] s' Hs [= <-].
    apply (holds_other l s); [by repeat split|done]. }
  intros _. apply (preserves_bind (holds l)).
  { intros s [] s' Hs [= <-].
    apply (holds_other l s); [by repeat split|done]. }
  intros _. apply (preserves_bind (holds l)).
  { intros s [] s' Hs [= <-]. by apply holds_signal. }
  intros _. apply (preserves_bind (holds l));
    [apply (preserves_get (holds l))|]. intros s2.
  apply (preserves_bind (holds l)); [|intros _; apply (preserves_ret (holds l))].
  apply (preserves_mergeTo_deps (holds l)).
  intros e f s Hs. apply (holds_other l s); [by repeat split|done].
Qed.

Lemma holds_dispatch_prune l e : preserves (holds l) (dispatch_prune e).
Proof.
  intros s r s' Hs Hrun. unfold dispatch_prune in Hrun.
  apply bind_Some in Hrun as (? & ? & [= <- <-] & Hrun).
  apply bind_Some in Hrun as ([] & s1 & Hin & Hrun).
  apply bind_Some in Hrun as (? & ? & [= <- <-] & Hrun).
  apply bind_Some in Hrun as ([] & s2 & Hout & [= _ <-]).
  assert (Hs1 : holds l s1).
  { destruct (0 <? _) in Hin; injection Hin as <-;
      (apply (holds_other l s); [by repeat split|done]). }
  destruct (0 <? _) in Hout; injection Hout as <-;
    (apply (holds_other l s1); [by repeat split|done]).
Qed.

Section Serve.
Variable unpark :
  nat → list nat → list nat → list nat → @state EF IDX → @state EF IDX.
Variable isDep : @state EF IDX → nat → nat → bool.
Variable currentIndexKey : @state EF IDX → nat → option nat.
Variable markFailed : nat → error → @state EF IDX → @state EF IDX.

Local Notation loop_iter := (loop_iter unpark isDep currentIndexKey markFailed).
Local Notation loop_for := (loop_for unpark isDep currentIndexKey markFailed).
Local Notation dispatch := (dispatch unpark isDep currentIndexKey markFailed).

(** The edge state machine reaches the queue through [signal] only: what
    it queues comes behind what waits. *)
Hypothesis unpark_queues : ∀ e inc updates out s,
  queue_reachable s →
  queue_reachable (unpark e inc updates out s) ∧
  ∃ more, fifo (unpark e inc updates out s) = fifo s ++ more.
Hypothesis markFailed_queues : ∀ e x s,
  queue_reachable s →
  queue_reachable (markFailed e x s) ∧
  ∃ more, fifo (markFailed e x s) = fifo s ++ more.

Lemma holds_dispatch l e : preserves (holds l) (dispatch e).
Proof using unpark_queues markFailed_queues.
  apply (turn_dispatch (holds l) unpark isDep currentIndexKey markFailed).
  - intros s s' _ _ _ _ _ Hsq. by apply holds_other.
  - apply holds_dispatch_prune.
  - apply holds_mergeTo.
  - intros e0 inc updates out s Hs.
    destruct (unpark_queues e0 inc updates out s (proj1 Hs)) as [Hr Hm].
    by apply (holds_more l s).
  - intros e0 x s Hs.
    destruct (markFailed_queues e0 x s (proj1 Hs)) as [Hr Hm].
    by apply (holds_more l s).
Qed.

(** A turn that goes on with an edge queued has served the head of the
    queue and kept the rest in front. *)
Lemma loop_iter_serves s e rest s' :
  queue_reachable s → fifo s = e :: rest →
  loop_iter s = Some (loop_running, s') →
  stopped s = false ∧
  (dispatch e ;;; ret loop_running) (dequeue s).2 = Some (loop_running, s') ∧
  holds rest s'.
Proof using unpark_queues markFailed_queues.
  intros Hs Hfifo Hrun.
  destruct (fifo_dequeue s Hs) as [Htl Hhd].
  rewrite Hfifo in Htl, Hhd. simpl in Htl, Hhd.
  destruct (queue_reachable_inv s Hs) as [l Hinv].
  destruct (dequeue_queue_inv s l Hinv) as (_ & _ & Hh & _).
  pose proof (qr_dequeue s Hs) as Hdq.
  unfold solver.loop_iter in Hrun.
  apply bind_Some in Hrun as (? & ? & [= <- <-] & Hrun).
  destruct (stopped s); [done|].
  destruct (dequeue s) as [o s0]. simpl in *.
  destruct o as [a|]; [|done]. injection Hhd as <-.
  apply bind_Some in Hrun as ([] & ? & [= <-] & Hrun).
  rewrite Hh in Hrun. split; [done|]. split; [done|].
  apply bind_Some in Hrun as ([] & s2 & Hdisp & [= <-]).
  eapply holds_dispatch; [|exact Hdisp].
  split; [done|]. exists []. by rewrite app_nil_r.
Qed.

(** Turn by turn: what [n] turns that went on have served. *)
Lemma loop_for_serves n s s' :
  queue_reachable s →
  n ≤ length (fifo s) →
  loop_for n s = Some (loop_running, s') →
  queue_reachable s' ∧
  (∃ more, fifo s' = drop n (fifo s) ++ more) ∧
  ∀ k e, k < n → fifo s !! k = Some e →
    ∃ sk sk',
      loop_for k s = Some (loop_running, sk) ∧
      stopped sk = false ∧
      head (fifo sk) = Some e ∧
      (dispatch e ;;; ret loop_running) (dequeue sk).2
        = Some (loop_running, sk') ∧
      loop_for (S k) s = Some (loop_running, sk').
Proof using unpark_queues markFailed_queues.
  revert s. induction n as [|n IH]; intros s Hs Hlen Hrun.
  - injection Hrun as <-. split_and!; [done|exists []; by rewrite app_nil_r|].
    intros k e Hk. lia.
  - simpl in Hrun. apply bind_Some in Hrun as (r & s1 & Hturn & Hrun).
    destruct r; try by injection Hrun.
    destruct (fifo s) as [|e0 rest] eqn:Hfifo; [simpl in Hlen; lia|].
    simpl in Hlen.
    destruct (loop_iter_serves s e0 rest s1 Hs Hfifo Hturn)
      as (Hst & Hdisp & Hs1 & more1 & Hf1).
    destruct (IH s1 Hs1) as (Hs' & [more2 Hf'] & Hserved); [|done|].
    { rewrite Hf1, length_app. lia. }
    split_and!; [done| |].
    + simpl. rewrite Hf', Hf1.
      rewrite drop_app_le by lia. rewrite <- app_assoc. by eexists.
    + intros k e Hk Hlook. destruct k as [|k].
      * injection Hlook as ->. exists s, s1. simpl.
        rewrite Hfifo. split_and!; try done.
        unfold bind at 1. by rewrite Hturn.
      * simpl in Hlook.
        destruct (Hserved k e) as (sk & sk' & Hk1 & Hk2 & Hk3 & Hk4 & Hk5);
          [lia| |].
        { rewrite Hf1. rewrite lookup_app_l; [done|].
          by apply lookup_lt_Some in Hlook. }
        exists sk, sk'. split_and!; try done.
        -- simpl. unfold bind at 1. by rewrite Hturn.
        -- change (loop_for (S (S k)) s)
             with ((r <- loop_iter ;;
                    match r with
                    | loop_running => loop_for (S k)
                    | _ => ret r
                    end) s).
           unfold bind at 1. by rewrite Hturn.
Qed.

(** X14. The loop serves the edges in the order of the queue, and no
    edge overtakes another: as long as the edge state machine queues
    edges behind those that wait, after [n] turns that went on, with at
    least [n] edges queued at the start, the queue holds the edges that
    were behind the first [n], in their order, in front of the edges
    queued since; and each of these turns has taken the edge at its place
    in the queue of the start and dispatched it. *)
Theorem loop_serves_in_order n s s' :
  queue_reachable s →
  n ≤ length (fifo s) →
  loop_for n s = Some (loop_running, s') →
  queue_reachable s' ∧
  (∃ more, fifo s' = drop n (fifo s) ++ more) ∧
  ∀ k e, k < n → fifo s !! k = Some e →
    ∃ sk sk',
      loop_for k s = Some (loop_running, sk) ∧
      stopped sk = false ∧
      head (fifo sk) = Some e ∧
      (dispatch e ;;; ret loop_running) (dequeue sk).2
        = Some (loop_running, sk') ∧
      loop_for (S k) s = Some (loop_running, sk').
Proof using unpark_queues markFailed_queues.
  apply loop_for_serves.
Qed.

(** X15. A build is served: when [build] has made its request and
    waits, its edge is in the queue, behind the edges that waited before
    or at the place where it waited already; and as long as the turns of
    the loop go on, the loop dispatches the edge after at most as many
    turns as there were edges in the queue. *)
Theorem build_is_served edge e p s s0 :
  queue_reachable s →
  getEdge (ef s) edge = Some e →
  build_enter edge s = Some (inr p, s0) →
  queue_reachable s0 ∧
  fifo s0 = fifo s ++ (if decide (e ∈ waitq s) then [] else [e]) ∧
  ∃ k,
    k ≤ length (fifo s) ∧ fifo s0 !! k = Some e ∧
    ∀ s', loop_for (S k) s0 = Some (loop_running, s') →
      ∃ sk,
        loop_for k s0 = Some (loop_running, sk) ∧
        stopped sk = false ∧
        head (fifo sk) = Some e ∧
        (dispatch e ;;; ret loop_running) (dequeue sk).2
          = Some (loop_running, s').
Proof using unpark_queues markFailed_queues.
  intros Hs Hget Hrun.
  assert (Hs0 : queue_reachable s0) by by eapply keeps_build_enter.
  assert (Hfifo : fifo s0
                  = fifo s ++ (if decide (e ∈ waitq s) then [] else [e])).
  { unfold build_enter in Hrun.
    apply bind_Some in Hrun as (? & ? & [= <- <-] & Hrun).
    rewrite Hget in Hrun.
    apply bind_Some in Hrun as (p' & s1 & Hnew & [= _ <-]).
    rewrite <- (newPipe_fifo _ _ _ _ _ _ Hs Hnew).
    apply fifo_same_queue. by repeat split. }
  split; [done|]. split; [done|].
  assert (Hk : ∃ k, k ≤ length (fifo s) ∧ fifo s0 !! k = Some e).
  { rewrite Hfifo. destruct (decide (e ∈ waitq s)) as [Hin|Hnin].
    - destruct (queue_reachable_inv s Hs) as [l Hinv].
      apply (qi_waitq _ _ Hinv) in Hin.
      rewrite <- (queue_inv_fifo _ _ Hinv) in Hin.
      apply list_elem_of_lookup_1 in Hin as [k Hk].
      exists k. rewrite app_nil_r. split; [|done].
      apply lookup_lt_Some in Hk. lia.
    - exists (length (fifo s)). split; [done|].
      by rewrite list_lookup_middle. }
  destruct Hk as (k & Hle & Hlook). exists k. split; [done|]. split; [done|].
  intros s' Hturns.
  destruct (loop_for_serves (S k) s0 s' Hs0) as (_ & _ & Hserved);
    [by apply lookup_lt_Some in Hlook|done|].
  destruct (Hserved k e) as (sk & sk' & H1 & H2 & H3 & H4 & H5); [lia|done|].
  rewrite Hturns in H5. injection H5 as <-. by exists sk.
Qed.

End Serve.

End Order.

Section OrderDemo.
Import solver demo.

Lemma demo_unpark_queues e inc updates out (s : demo_state) :
  queue_reachable s →
  queue_reachable (demo_unpark e inc updates out s) ∧
  ∃ more, fifo (demo_unpark e inc updates out s) = fifo s ++ more.
Proof. intros Hs. split; [done|]. exists []. by rewrite app_nil_r. Qed.

Lemma demo_markFailed_queues e x (s : demo_state) :
  queue_reachable s →
  queue_reachable (demo_markFailed e x s) ∧
  ∃ more, fifo (demo_markFailed e x s) = fifo s ++ more.
Proof.
  intros Hs. split; [by apply demo_markFailed_reachable|].
  exists []. by rewrite app_nil_r.
Qed.

(** C is built while A and B wait. *)
Lemma build_is_served_witness :
  queue_reachable demo_build_C ∧
  ∃ k, k ≤ 2 ∧ fifo demo_build_C !! k = Some 3.
Proof.
  assert (Hget : getEdge (ef (signal 2 (signal 1 demo_init))) EdgeC = Some 3)
    by (vm_compute; reflexivity).
  assert (Hrun : build_enter EdgeC (signal 2 (signal 1 demo_init))
                 = Some (inr 0, demo_build_C))
    by (vm_compute; reflexivity).
  destruct (build_is_served demo_unpark demo_isDep demo_currentIndexKey
              demo_markFailed demo_unpark_queues demo_markFailed_queues
              EdgeC 3 0 (signal 2 (signal 1 demo_init)) demo_build_C
              demo_signalled_reachable Hget Hrun)
    as (H1 & _ & k & Hk & Hlook & _).
  split; [exact H1|]. exists k. split; [|exact Hlook].
  assert (Hlen : length (fifo (signal 2 (signal 1 demo_init))) = 2)
    by (vm_compute; reflexivity).
  rewrite Hlen in Hk. exact Hk.
Defined.

(** A, B and C wait; after two turns C is at the head. *)
Lemma loop_serves_in_order_witness :
  queue_reachable demo_after_two_turns ∧
  ∃ more, fifo demo_after_two_turns = drop 2 (fifo demo_running) ++ more.
Proof.
  assert (Hrun : loop_for demo_unpark demo_isDep demo_currentIndexKey
                   demo_markFailed 2 demo_running
                 = Some (loop_running, demo_after_two_turns))
    by (vm_compute; reflexivity).
  assert (Hlen : 2 ≤ length (fifo demo_running)) by (vm_compute; lia).
  destruct (loop_serves_in_order demo_unpark demo_isDep demo_currentIndexKey
              demo_markFailed demo_unpark_queues demo_markFailed_queues
              2 demo_running demo_after_two_turns demo_running_reachable
              Hlen Hrun) as (H1 & H2 & _).
  split; [exact H1|exact H2].
Defined.

Example demo_after_two_turns_fifo : fifo demo_after_two_turns = [3].
Proof. vm_compute. reflexivity. Qed.

End OrderDemo.
